(** * DiskAtlasPy: the scan engine and the squarified treemap layout

    A shallow embedding of [diskatlas/scanner.py], [diskatlas/models.py] and
    [diskatlas/treemap.py], together with the part of CPython's [heapq] that
    the scanner calls, and the properties of the specification proved or
    refuted on it.  Parts XII to XVIII embed the modules around them,
    [scanner.iter_all_files], [magic.py], [crypto_tools.py], [drives.py] and
    [suspicious.py] with [utils.shannon_entropy], with the properties their
    code shows. *)

From Stdlib Require Import ZArith QArith Qminmax Lia Lqa Field Ascii String.
From Stdlib Require Strings.Byte.
From Stdlib Require OrderedTypeEx.
From stdpp Require Import base tactics option list sorting strings pretty gmap.

Set Warnings "-register-all".
Local Open Scope Z_scope.

(* ===================================================================== *)
(** * Part I. [heapq] on Python lists

    A heap is a Python list used as an implicit binary tree: the parent of
    position [i > 0] is [(i - 1) >> 1].  [heappush] and [heapreplace] are
    transcribed from CPython's [Lib/heapq.py], including the way [_siftup]
    first walks the hole down to a leaf and then calls [_siftdown]. *)

Module heapq.
Section heapq.
Context {A : Type}.
(** [lt x y] is Python's [x < y] on the items of the heap. *)
Variable lt : A -> A -> bool.

Definition parent (pos : nat) : nat := ((pos - 1) / 2)%nat.

(** The [while pos > startpos] loop of [_siftdown]; [newitem] is held in a
    local variable while parents are moved down.  Every iteration
    strictly decreases [pos], so [pos] itself is enough fuel. *)
Fixpoint siftdown_loop (fuel : nat) (heap : list A) (startpos pos : nat)
    (newitem : A) : list A :=
  match fuel with
  | O => <[pos := newitem]> heap
  | S fuel' =>
      if decide (startpos < pos)%nat then
        let parentpos := parent pos in
        let parent := default newitem (heap !! parentpos) in
        if lt newitem parent
        then siftdown_loop fuel' (<[pos := parent]> heap) startpos parentpos newitem
        else <[pos := newitem]> heap
      else <[pos := newitem]> heap
  end.

Definition _siftdown (heap : list A) (startpos pos : nat) : list A :=
  match heap !! pos with
  | Some newitem => siftdown_loop pos heap startpos pos newitem
  | None => heap
  end.

(** The [while childpos < endpos] loop of [_siftup]: the smaller child is
    moved up until the hole reaches a leaf; returns the list and the
    position of the leaf. *)
Fixpoint siftup_loop (fuel : nat) (heap : list A) (endpos pos : nat)
    (newitem : A) : list A * nat :=
  match fuel with
  | O => (heap, pos)
  | S fuel' =>
      let childpos := (2 * pos + 1)%nat in
      if decide (childpos < endpos)%nat then
        let rightpos := (childpos + 1)%nat in
        let childpos :=
          if decide (rightpos < endpos)%nat then
            if lt (default newitem (heap !! childpos))
                  (default newitem (heap !! rightpos))
            then childpos else rightpos
          else childpos in
        siftup_loop fuel' (<[pos := default newitem (heap !! childpos)]> heap)
                    endpos childpos newitem
      else (heap, pos)
  end.

Definition _siftup (heap : list A) (pos : nat) : list A :=
  match heap !! pos with
  | Some newitem =>
      let endpos := length heap in
      let startpos := pos in
      let '(heap, pos) := siftup_loop endpos heap endpos pos newitem in
      _siftdown (<[pos := newitem]> heap) startpos pos
  | None => heap
  end.

(** [heapq.heappush(heap, item)] *)
Definition heappush (heap : list A) (item : A) : list A :=
  let heap := heap ++ [item] in
  _siftdown heap 0 (length heap - 1).

(** [heapq.heapreplace(heap, item)]; on an empty heap Python raises
    [IndexError], the scanner only calls it on a heap that is full. *)
Definition heapreplace (heap : list A) (item : A) : list A :=
  match heap with
  | [] => []
  | _ :: _ => _siftup (<[0%nat := item]> heap) 0
  end.

(** ** The fuel is enough: more of it changes nothing *)

Lemma parent_lt i : (0 < i)%nat -> (parent i < i)%nat.
Proof.
  intros Hi. unfold parent.
  apply Nat.Div0.div_lt_upper_bound. lia.
Qed.

Lemma siftdown_loop_fuel f1 : forall f2 heap startpos pos newitem,
  (pos <= f1)%nat -> (pos <= f2)%nat ->
  siftdown_loop f1 heap startpos pos newitem =
  siftdown_loop f2 heap startpos pos newitem.
Proof.
  induction f1 as [|f1 IH]; intros [|f2] heap startpos pos newitem H1 H2; simpl;
    try done.
  - destruct (decide (startpos < pos)%nat); [lia|done].
  - destruct (decide (startpos < pos)%nat); [lia|done].
  - destruct (decide (startpos < pos)%nat) as [Hp|]; [|done].
    destruct (lt newitem _); [|done].
    pose proof (parent_lt pos ltac:(lia)). apply IH; lia.
Qed.

Lemma siftup_loop_fuel f1 : forall f2 heap endpos pos newitem,
  (endpos <= f1 + pos)%nat -> (endpos <= f2 + pos)%nat ->
  siftup_loop f1 heap endpos pos newitem =
  siftup_loop f2 heap endpos pos newitem.
Proof.
  induction f1 as [|f1 IH]; intros [|f2] heap endpos pos newitem H1 H2;
    cbn [siftup_loop]; try done.
  - destruct (decide (2 * pos + 1 < endpos)%nat); [lia|done].
  - destruct (decide (2 * pos + 1 < endpos)%nat); [lia|done].
  - destruct (decide (2 * pos + 1 < endpos)%nat) as [Hp|]; [|done].
    destruct (decide (2 * pos + 1 + 1 < endpos)%nat);
      [destruct (lt _ _)|]; apply IH; lia.
Qed.

(** ** The heap invariant, stated on a key the comparison refines *)

Variable key : A -> Z.
Hypothesis lt_key : forall x y, lt x y = true -> key x <= key y.
Hypothesis nlt_key : forall x y, lt x y = false -> key y <= key x.

(** Every edge [(parent i, i)] is ordered, except those touching [pos]. *)
Definition edges_ok (h : list A) (pos : nat) : Prop :=
  forall i x p, (0 < i)%nat -> i <> pos -> parent i <> pos ->
    h !! i = Some x -> h !! parent i = Some p -> key p <= key x.

(** The children of [pos] are above the parent of [pos]. *)
Definition grand_ok (h : list A) (pos : nat) : Prop :=
  forall c x g, (0 < pos)%nat -> (0 < c)%nat -> parent c = pos ->
    h !! c = Some x -> h !! parent pos = Some g -> key g <= key x.

(** The children of [pos] are above [v]. *)
Definition below_ok (h : list A) (pos : nat) (v : A) : Prop :=
  forall c x, (0 < c)%nat -> parent c = pos -> h !! c = Some x -> key v <= key x.

Definition heap_inv (h : list A) : Prop :=
  forall i x p, (0 < i)%nat ->
    h !! i = Some x -> h !! parent i = Some p -> key p <= key x.

Lemma parent_child c p : (0 < c)%nat -> parent c = p ->
  c = (2 * p + 1)%nat \/ c = (2 * p + 2)%nat.
Proof.
  unfold parent. intros Hc <-.
  pose proof (Nat.div_mod_eq (c - 1) 2) as E.
  pose proof (Nat.mod_upper_bound (c - 1) 2 ltac:(lia)) as B.
  lia.
Qed.

Lemma parent_left p : parent (2 * p + 1) = p.
Proof.
  unfold parent. replace (2 * p + 1 - 1)%nat with (p * 2)%nat by lia.
  apply Nat.div_mul. lia.
Qed.

Lemma parent_right p : parent (2 * p + 2) = p.
Proof.
  unfold parent. replace (2 * p + 2 - 1)%nat with (1 + p * 2)%nat by lia.
  rewrite Nat.div_add by lia. reflexivity.
Qed.

Lemma siftdown_loop_inv fuel : forall h pos newitem,
  (pos <= fuel)%nat -> (pos < length h)%nat ->
  edges_ok h pos -> grand_ok h pos -> below_ok h pos newitem ->
  heap_inv (siftdown_loop fuel h 0 pos newitem).
Proof.
  assert (Hfin : forall h pos newitem,
    (pos < length h)%nat -> edges_ok h pos -> below_ok h pos newitem ->
    (forall p, (0 < pos)%nat -> h !! parent pos = Some p -> key p <= key newitem) ->
    heap_inv (<[pos := newitem]> h)).
  { intros h pos newitem Hlen He Hb Hp i x p Hi Hx Hpi.
    destruct (decide (i = pos)) as [->|Ni].
    - rewrite list_lookup_insert_eq in Hx by done. simplify_eq.
      rewrite list_lookup_insert_ne in Hpi
        by (pose proof (parent_lt pos Hi); lia).
      eauto.
    - rewrite list_lookup_insert_ne in Hx by done.
      destruct (decide (parent i = pos)) as [Ep|Np].
      + rewrite Ep, list_lookup_insert_eq in Hpi by done. simplify_eq.
        eapply Hb; eauto.
      + rewrite list_lookup_insert_ne in Hpi by done. eapply He; eauto. }
  induction fuel as [|fuel IH]; intros h pos newitem Hf Hlen He Hg Hb; simpl.
  - apply Hfin; auto. intros; lia.
  - destruct (decide (0 < pos)%nat) as [Hpos|Hpos];
      [|apply Hfin; auto; intros; lia].
    pose proof (parent_lt pos Hpos) as Hq.
    destruct (h !! parent pos) as [p|] eqn:Ep;
      [|apply lookup_ge_None_1 in Ep; lia].
    simpl. destruct (lt newitem p) eqn:Hlt.
    + apply lt_key in Hlt.
      apply IH; [lia|rewrite length_insert; lia|..].
      * intros i x g Hi Ni Npi Hx Hgp.
        destruct (decide (i = pos)) as [->|Nip]; [done|].
        rewrite list_lookup_insert_ne in Hx by done.
        destruct (decide (parent i = pos)) as [Epi|Npp].
        -- rewrite Epi, list_lookup_insert_eq in Hgp by done. simplify_eq.
           eapply (Hg i); eauto.
        -- rewrite list_lookup_insert_ne in Hgp by done. eapply He; eauto.
      * intros c x g Hq0 Hc Hpc Hx Hgp.
        rewrite list_lookup_insert_ne in Hgp
          by (pose proof (parent_lt _ Hq0); lia).
        pose proof (parent_lt _ Hq0) as Hqq.
        assert (key g <= key p).
        { eapply (He (parent pos)); eauto; lia. }
        destruct (decide (c = pos)) as [->|Nc].
        -- rewrite list_lookup_insert_eq in Hx by done. by simplify_eq.
        -- rewrite list_lookup_insert_ne in Hx by done.
           assert (key p <= key x); [|lia].
           eapply (He c); eauto. rewrite Hpc. lia. by rewrite Hpc.
      * intros c x Hc Hpc Hx.
        destruct (decide (c = pos)) as [->|Nc].
        -- rewrite list_lookup_insert_eq in Hx by done. by simplify_eq.
        -- rewrite list_lookup_insert_ne in Hx by done.
           assert (key p <= key x); [|lia].
           eapply (He c); eauto. rewrite Hpc. lia. by rewrite Hpc.
    + apply nlt_key in Hlt. apply Hfin; auto.
      intros p' _ Hp'. by simplify_eq.
Qed.

Lemma edges_ok_insert h pos v : edges_ok h pos -> edges_ok (<[pos := v]> h) pos.
Proof.
  intros He i x p Hi Ni Np Hx Hp.
  rewrite list_lookup_insert_ne in Hx by done.
  rewrite list_lookup_insert_ne in Hp by done. eauto.
Qed.

Lemma leaf_no_child (h : list A) pos c x :
  (length h <= 2 * pos + 1)%nat -> (0 < c)%nat -> parent c = pos ->
  h !! c = Some x -> False.
Proof.
  intros Hl Hc Hp Hx. apply lookup_lt_Some in Hx.
  destruct (parent_child c pos Hc Hp); lia.
Qed.

Lemma _siftdown_leaf_inv h pos :
  (pos < length h)%nat -> (length h <= 2 * pos + 1)%nat ->
  edges_ok h pos -> heap_inv (_siftdown h 0 pos).
Proof.
  intros Hlen Hleaf He. unfold _siftdown.
  destruct (h !! pos) as [newitem|] eqn:E;
    [|apply lookup_ge_None_1 in E; lia].
  apply siftdown_loop_inv; auto.
  - intros c x g _ Hc Hp Hx _. destruct (leaf_no_child h pos c x); auto.
  - intros c x Hc Hp Hx. destruct (leaf_no_child h pos c x); auto.
Qed.

Lemma heappush_inv h item : heap_inv h -> heap_inv (heappush h item).
Proof.
  intros Hh. unfold heappush.
  rewrite length_app. simpl.
  replace (length h + 1 - 1)%nat with (length h) by lia.
  apply _siftdown_leaf_inv.
  - rewrite length_app. simpl. lia.
  - rewrite length_app. simpl. lia.
  - intros i x p Hi Ni Np Hx Hp.
    assert (i < length h)%nat.
    { apply lookup_lt_Some in Hx. rewrite length_app in Hx. simpl in Hx. lia. }
    pose proof (parent_lt i Hi).
    rewrite lookup_app_l in Hx by lia.
    rewrite lookup_app_l in Hp by lia. eauto.
Qed.

Lemma siftup_loop_inv fuel : forall h pos newitem,
  (length h <= fuel + pos)%nat -> (pos < length h)%nat ->
  edges_ok h pos -> grand_ok h pos ->
  let '(h', leaf) := siftup_loop fuel h (length h) pos newitem in
  length h' = length h /\ (leaf < length h)%nat /\
  (length h <= 2 * leaf + 1)%nat /\ edges_ok h' leaf.
Proof.
  induction fuel as [|fuel IH]; intros h pos newitem Hf Hlen He Hg; simpl.
  { repeat split; auto; lia. }
  destruct (decide (2 * pos + 1 < length h)%nat) as [Hc|Hc];
    [|replace (pos + (pos + 0) + 1)%nat with (2 * pos + 1)%nat by lia;
      destruct (decide _); [lia|]; repeat split; auto; lia].
  replace (pos + (pos + 0) + 1)%nat with (2 * pos + 1)%nat by lia.
  destruct (decide _) as [_|]; [|lia].
  set (l := (2 * pos + 1)%nat) in *.
  set (c := if decide (l + 1 < length h)%nat
            then if lt (default newitem (h !! l)) (default newitem (h !! (l + 1)%nat))
                 then l else (l + 1)%nat
            else l).
  destruct (h !! l) as [xl|] eqn:El; [|apply lookup_ge_None_1 in El; lia].
  assert (Hcr : (c = l \/ c = l + 1)%nat /\ (c < length h)%nat /\
            exists xc, h !! c = Some xc /\
              forall s xs, (s = l \/ s = l + 1)%nat -> h !! s = Some xs ->
                key xc <= key xs).
  { subst c. destruct (decide (l + 1 < length h)%nat) as [Hr|Hr].
    - destruct (h !! (l + 1)%nat) as [xr|] eqn:Er;
        [|apply lookup_ge_None_1 in Er; lia].
      simpl. destruct (lt xl xr) eqn:Hlt.
      + apply lt_key in Hlt. split; [auto|split; [lia|]].
        exists xl. split; [done|]. intros s xs [->| ->] Hs; simplify_eq; lia.
      + apply nlt_key in Hlt. split; [auto|split; [lia|]].
        exists xr. split; [done|]. intros s xs [->| ->] Hs; simplify_eq; lia.
    - split; [auto|split; [lia|]]. exists xl. split; [done|].
      intros s xs [->| ->] Hs; [by simplify_eq|].
      apply lookup_lt_Some in Hs. lia. }
  clearbody c. destruct Hcr as (Hcl & Hclen & xc & Exc & Hmin).
  rewrite Exc. simpl.
  assert (Hpc : parent c = pos).
  { destruct Hcl as [->| ->]; subst l; [apply parent_left|].
    replace (2 * pos + 1 + 1)%nat with (2 * pos + 2)%nat by lia.
    apply parent_right. }
  specialize (IH (<[pos := xc]> h) c newitem).
  rewrite length_insert in IH.
  destruct (siftup_loop fuel (<[pos:=xc]> h) (length h) c newitem) as [h' leaf].
  apply IH; [lia|lia|..].
  - intros i x p Hi Ni Np Hx Hp.
    destruct (decide (i = pos)) as [Eip|Nip].
    + subst i. rewrite list_lookup_insert_eq in Hx by done.
      injection Hx as <-.
      rewrite list_lookup_insert_ne in Hp
        by (pose proof (parent_lt pos Hi); lia).
      eapply (Hg c); eauto; lia.
    + rewrite list_lookup_insert_ne in Hx by done.
      destruct (decide (parent i = pos)) as [Epi|Npp].
      * rewrite Epi, list_lookup_insert_eq in Hp by done.
        injection Hp as <-.
        apply (Hmin i); [|done].
        destruct (parent_child i pos Hi Epi); subst l; lia.
      * rewrite list_lookup_insert_ne in Hp by done. eapply He; eauto.
  - intros g x gp _ Hg0 Hpg Hx Hgp.
    rewrite Hpc, list_lookup_insert_eq in Hgp by done.
    injection Hgp as <-.
    assert (pos < c)%nat by (rewrite <- Hpc; apply parent_lt; lia).
    assert (c < g)%nat by (rewrite <- Hpg; apply parent_lt; lia).
    rewrite list_lookup_insert_ne in Hx by lia.
    eapply (He g); eauto; [lia|rewrite Hpg; lia|by rewrite Hpg].
Qed.

Lemma heapreplace_inv h item : heap_inv h -> heap_inv (heapreplace h item).
Proof.
  intros Hh. destruct h as [|m t]; [done|].
  unfold heapreplace, _siftup.
  set (h0 := <[0%nat := item]> (m :: t)).
  assert (E0 : h0 !! 0%nat = Some item) by done.
  rewrite E0. cbv zeta.
  assert (H := siftup_loop_inv (length h0) h0 0 item).
  destruct (siftup_loop (length h0) h0 (length h0) 0 item) as [h' leaf].
  destruct H as (Hl & Hleaf & Hnc & He).
  { lia. }
  { subst h0. simpl. lia. }
  { intros i x p Hi Ni Np Hx Hp. subst h0.
    rewrite list_lookup_insert_ne in Hx by lia.
    rewrite list_lookup_insert_ne in Hp by lia. eauto. }
  { intros c x g Hpos. lia. }
  apply _siftdown_leaf_inv.
  - rewrite length_insert. lia.
  - rewrite length_insert. lia.
  - by apply edges_ok_insert.
Qed.

(** The root of a heap carries the least key. *)
Lemma heap_root_min h m x :
  heap_inv h -> h !! 0%nat = Some m -> x ∈ h -> key m <= key x.
Proof.
  intros Hh Hm Hx. apply list_elem_of_lookup in Hx as [i Hi].
  revert x Hi. induction (lt_wf i) as [i _ IH]. intros x Hi.
  destruct (decide (i = 0%nat)) as [->|Ni]; [simplify_eq; lia|].
  assert (0 < i)%nat as Hpos by lia.
  pose proof (parent_lt i Hpos) as Hq.
  destruct (h !! parent i) as [p|] eqn:Ep.
  - pose proof (IH (parent i) Hq p Ep). pose proof (Hh i x p Hpos Hi Ep). lia.
  - apply lookup_ge_None_1 in Ep. apply lookup_lt_Some in Hi. lia.
Qed.

(** ** The items of the heap *)

Lemma insert_swap_out (l : list A) i x y :
  l !! i = Some y -> y :: <[i := x]> l ≡ₚ x :: l.
Proof.
  revert i. induction l as [|a l IH]; intros [|i] Hi; simplify_eq/=.
  - apply perm_swap.
  - rewrite (perm_swap a y), (IH i Hi). apply perm_swap.
Qed.

Lemma insert_insert_perm (l : list A) i j x v :
  i <> j -> (i < length l)%nat -> l !! j = Some x ->
  <[j := v]> (<[i := x]> l) ≡ₚ <[i := v]> l.
Proof.
  intros Nij Hi Hj.
  destruct (lookup_lt_is_Some_2 l i Hi) as [y Hy].
  assert (H1 : x :: <[j := v]> (<[i := x]> l) ≡ₚ v :: <[i := x]> l).
  { apply insert_swap_out. by rewrite list_lookup_insert_ne. }
  pose proof (insert_swap_out l i x y Hy) as H2.
  pose proof (insert_swap_out l i v y Hy) as H3.
  apply (Permutation_cons_inv (a := y)), (Permutation_cons_inv (a := x)).
  rewrite (perm_swap y x), H1, (perm_swap v y), H2, H3.
  apply perm_swap.
Qed.

Lemma siftdown_loop_perm fuel : forall h pos newitem,
  (pos < length h)%nat ->
  siftdown_loop fuel h 0 pos newitem ≡ₚ <[pos := newitem]> h.
Proof.
  induction fuel as [|fuel IH]; intros h pos newitem Hlen; simpl; [done|].
  destruct (decide (0 < pos)%nat) as [Hpos|Hpos]; [|done].
  pose proof (parent_lt pos Hpos) as Hq.
  destruct (h !! parent pos) as [p|] eqn:Ep;
    [|apply lookup_ge_None_1 in Ep; lia].
  simpl. destruct (lt newitem p); [|done].
  rewrite IH by (rewrite length_insert; lia).
  apply insert_insert_perm; [lia|done|done].
Qed.

Lemma siftup_loop_perm fuel : forall h pos newitem v,
  (pos < length h)%nat ->
  let '(h', leaf) := siftup_loop fuel h (length h) pos newitem in
  (leaf < length h')%nat /\ <[leaf := v]> h' ≡ₚ <[pos := v]> h.
Proof.
  induction fuel as [|fuel IH]; intros h pos newitem v Hlen; simpl; [done|].
  replace (pos + (pos + 0) + 1)%nat with (2 * pos + 1)%nat by lia.
  destruct (decide (2 * pos + 1 < length h)%nat) as [Hc|Hc]; [|done].
  set (l := (2 * pos + 1)%nat) in *.
  set (c := if decide (l + 1 < length h)%nat
            then if lt (default newitem (h !! l)) (default newitem (h !! (l + 1)%nat))
                 then l else (l + 1)%nat
            else l).
  assert (Hcr : (c = l \/ c = l + 1)%nat /\ (c < length h)%nat).
  { subst c. destruct (decide (l + 1 < length h)%nat); [|auto].
    destruct (lt _ _); split; auto; lia. }
  clearbody c. destruct Hcr as (Hcl & Hclen).
  destruct (lookup_lt_is_Some_2 h c Hclen) as [xc Exc].
  rewrite Exc. simpl.
  specialize (IH (<[pos := xc]> h) c newitem v).
  rewrite length_insert in IH.
  destruct (siftup_loop fuel (<[pos:=xc]> h) (length h) c newitem) as [h' leaf].
  destruct (IH Hclen) as [Hleaf Hperm]. split; [done|].
  rewrite Hperm. apply insert_insert_perm; [lia|done|done].
Qed.

Lemma heappush_perm h item : heappush h item ≡ₚ item :: h.
Proof.
  unfold heappush, _siftdown. rewrite length_app. simpl.
  replace (length h + 1 - 1)%nat with (length h) by lia.
  rewrite list_lookup_middle by done.
  rewrite siftdown_loop_perm by (rewrite length_app; simpl; lia).
  rewrite list_insert_id by (by apply list_lookup_middle).
  by rewrite Permutation_app_comm.
Qed.

Lemma heapreplace_perm m t item : heapreplace (m :: t) item ≡ₚ item :: t.
Proof.
  unfold heapreplace, _siftup.
  set (h0 := <[0%nat := item]> (m :: t)).
  assert (E0 : h0 !! 0%nat = Some item) by done.
  rewrite E0. cbv zeta.
  assert (H := siftup_loop_perm (length h0) h0 0 item item).
  destruct (siftup_loop (length h0) h0 (length h0) 0 item) as [h' leaf].
  destruct H as [Hleaf Hperm]; [subst h0; simpl; lia|].
  unfold _siftdown. rewrite list_lookup_insert_eq by done.
  rewrite siftdown_loop_perm by (by rewrite length_insert).
  by rewrite list_insert_insert_eq, Hperm.
Qed.

Lemma length_heappush h item : length (heappush h item) = S (length h).
Proof. by rewrite heappush_perm. Qed.

Lemma length_heapreplace h item : length (heapreplace h item) = length h.
Proof. destruct h; [done|]. by rewrite heapreplace_perm. Qed.

(** ** A heap bounded to [limit] items

    The shape shared by [_push_top] and by lines 101-105 of [scan_dir]:
    push while the heap holds fewer than [limit] items, then replace the
    root by any item with a larger key. *)

Definition bounded_push (limit : Z) (heap : list A) (item : A) : list A :=
  if Z.of_nat (length heap) <? limit then heappush heap item
  else match heap !! 0%nat with
       | Some top => if key item >? key top then heapreplace heap item else heap
       | None => heap
       end.

(** [heap] holds [min limit (length xs)] items of [xs], none smaller than
    an item of [xs] it does not hold. *)
Definition top_of (limit : Z) (xs heap : list A) : Prop :=
  heap_inv heap /\
  length heap = Z.to_nat (Z.min limit (Z.of_nat (length xs))) /\
  exists rest, xs ≡ₚ heap ++ rest /\
    forall x y, x ∈ heap -> y ∈ rest -> key y <= key x.

Lemma top_of_nil limit : top_of limit [] [].
Proof.
  split; [by intros i x p _ Hx|]. split; [simpl; lia|].
  exists []. split; [done|]. intros x y Hx. by apply elem_of_nil in Hx.
Qed.

Lemma bounded_push_top_of limit xs heap item :
  0 < limit -> top_of limit xs heap ->
  top_of limit (xs ++ [item]) (bounded_push limit heap item).
Proof.
  intros Hlim (Hinv & Hlen & rest & Hperm & Hord).
  pose proof (Permutation_length Hperm) as Hl. rewrite length_app in Hl.
  unfold bounded_push. destruct (Z.ltb_spec (Z.of_nat (length heap)) limit) as [Hlt|Hge].
  - assert (rest = []) as -> by (apply nil_length_inv; lia).
    rewrite app_nil_r in Hperm.
    split; [by apply heappush_inv|]. split.
    { rewrite length_heappush, length_app. simpl. lia. }
    exists []. rewrite app_nil_r. split.
    + by rewrite heappush_perm, Hperm, Permutation_app_comm.
    + intros x y _ Hy. by apply elem_of_nil in Hy.
  - destruct heap as [|top t]; [simpl in *; lia|].
    change ((top :: t) !! 0%nat) with (Some top). cbv iota beta.
    assert (Hmin : forall x, x ∈ top :: t -> key top <= key x).
    { intros x Hx. by apply (heap_root_min (top :: t)). }
    destruct (Z.gtb_spec (key item) (key top)) as [Hgt|Hle].
    + split; [by apply heapreplace_inv|]. split.
      { rewrite length_heapreplace, length_app. simpl in *. lia. }
      exists (top :: rest). split.
      * rewrite heapreplace_perm, Hperm. simpl.
        rewrite (Permutation_app_comm (t ++ rest) [item]).
        rewrite <- (Permutation_middle t rest top). simpl.
        apply perm_swap.
      * intros x y Hx Hy. rewrite heapreplace_perm in Hx.
        assert (key top <= key x).
        { apply elem_of_cons in Hx as [->|Hx]; [lia|].
          apply Hmin. by right. }
        apply elem_of_cons in Hy as [->|Hy]; [done|].
        pose proof (Hord top y ltac:(left) Hy). lia.
    + split; [done|]. split.
      { rewrite length_app. simpl in *. lia. }
      exists (item :: rest). split.
      * rewrite Hperm. simpl.
        rewrite (Permutation_app_comm (t ++ rest) [item]).
        by rewrite <- (Permutation_middle t rest item).
      * intros x y Hx Hy. apply elem_of_cons in Hy as [->|Hy]; [|by apply Hord].
        pose proof (Hmin x Hx). lia.
Qed.

(** When no later item is larger than any of the first [limit] items, the
    heap holds the first [limit] items and every later item is refused. *)
Lemma bounded_push_first limit xs heap item :
  0 < limit -> heap_inv heap ->
  heap ≡ₚ take (Z.to_nat limit) xs ->
  (forall y, y ∈ take (Z.to_nat limit) xs ->
     (Z.to_nat limit <= length xs)%nat -> key item <= key y) ->
  bounded_push limit heap item ≡ₚ take (Z.to_nat limit) (xs ++ [item]) /\
  heap_inv (bounded_push limit heap item) /\
  (bounded_push limit heap item = heap <-> (Z.to_nat limit <= length xs)%nat).
Proof.
  intros Hlim Hinv Hperm Hsmall.
  pose proof (Permutation_length Hperm) as Hl. rewrite length_take in Hl.
  unfold bounded_push.
  destruct (Z.ltb_spec (Z.of_nat (length heap)) limit) as [Hlt|Hge].
  - assert (length xs < Z.to_nat limit)%nat by lia.
    rewrite take_ge in Hperm by lia. rewrite take_ge by (rewrite length_app; simpl; lia).
    split; [by rewrite heappush_perm, Hperm, Permutation_app_comm|].
    split; [by apply heappush_inv|]. split; [|lia].
    intros E. apply (f_equal length) in E. rewrite length_heappush in E. lia.
  - assert (Z.to_nat limit <= length xs)%nat by lia.
    rewrite take_app_le by lia.
    destruct heap as [|top t]; [simpl in *; lia|].
    change ((top :: t) !! 0%nat) with (Some top). cbv iota beta.
    assert (key item <= key top).
    { apply Hsmall; [|done]. rewrite <- Hperm. by left. }
    destruct (Z.gtb_spec (key item) (key top)); [lia|]. done.
Qed.

End heapq.
End heapq.

(* ===================================================================== *)
(** * Part II. Python values the scanner computes with *)

Module py.

(** [x < y] on tuples [(int, str)] and [(int, str, str)]: lexicographic,
    strings compared code point by code point (which on UTF-8 encoded
    strings is the byte-wise order of [String.ltb]). *)
Definition lt2 (x y : Z * string) : bool :=
  (x.1 <? y.1) || ((x.1 =? y.1) && String.ltb x.2 y.2).

Definition lt3 (x y : Z * string * string) : bool :=
  (x.1.1 <? y.1.1) ||
  ((x.1.1 =? y.1.1) &&
     (String.ltb x.1.2 y.1.2 ||
      (String.eqb x.1.2 y.1.2 && String.ltb x.2 y.2))).

(** [l.sort(key=key, reverse=True)] and [sorted(l, key=key, reverse=True)]:
    a stable sort, items with equal keys keep their order. *)
Fixpoint insert_desc {A} (key : A -> Z) (x : A) (l : list A) : list A :=
  match l with
  | [] => [x]
  | y :: l' => if key x <? key y then y :: insert_desc key x l' else x :: l
  end.

Definition sort_desc {A} (key : A -> Z) (l : list A) : list A :=
  foldr (insert_desc key) [] l.

Definition desc {A} (key : A -> Z) (x y : A) : Prop := key y <= key x.

Lemma insert_desc_perm {A} (key : A -> Z) x l : insert_desc key x l ≡ₚ x :: l.
Proof.
  induction l as [|y l IH]; simpl; [done|].
  destruct (key x <? key y); [|done]. rewrite IH. apply perm_swap.
Qed.

Lemma sort_desc_perm {A} (key : A -> Z) l : sort_desc key l ≡ₚ l.
Proof.
  induction l as [|x l IH]; simpl; [done|].
  by rewrite insert_desc_perm, IH.
Qed.

Lemma insert_desc_sorted {A} (key : A -> Z) x l :
  Sorted (desc key) l -> Sorted (desc key) (insert_desc key x l).
Proof.
  induction l as [|y l IH]; intros Hs; simpl.
  { repeat constructor. }
  destruct (key x <? key y) eqn:E.
  - apply Sorted_inv in Hs as [Hs Hhd]. constructor; [by apply IH|].
    destruct l as [|z l]; simpl.
    + constructor. unfold desc. lia.
    + destruct (key x <? key z); constructor.
      * by apply HdRel_inv in Hhd.
      * unfold desc. lia.
  - constructor; [done|]. constructor. unfold desc. lia.
Qed.

Lemma sort_desc_sorted {A} (key : A -> Z) l : Sorted (desc key) (sort_desc key l).
Proof.
  induction l as [|x l IH]; simpl; [constructor|].
  by apply insert_desc_sorted.
Qed.

Lemma length_sort_desc {A} (key : A -> Z) l : length (sort_desc key l) = length l.
Proof. by rewrite sort_desc_perm. Qed.

Lemma lt2_key x y : lt2 x y = true -> x.1 <= y.1.
Proof. unfold lt2. lia. Qed.

Lemma lt2_nkey x y : lt2 x y = false -> y.1 <= x.1.
Proof. unfold lt2. lia. Qed.



(** [s.rstrip(chars)] *)
Fixpoint lstrip (chars : list ascii) (s : string) : string :=
  match s with
  | EmptyString => EmptyString
  | String a s' => if bool_decide (a ∈ chars) then lstrip chars s' else s
  end.

Definition rstrip (chars : list ascii) (s : string) : string :=
  String.rev (lstrip chars (String.rev s)).

(** [";".join(l)] *)
Fixpoint join (sep : string) (l : list string) : string :=
  match l with
  | [] => ""
  | [s] => s
  | s :: l' => s +:+ sep +:+ join sep l'
  end.

(** [x or y] on strings *)
Definition str_or (x y : string) : string :=
  if decide (x = "") then y else x.

(** [l[:k]]: the first [k] items, or all but the last [-k] when [k] is
    negative. *)
Definition slice_to {A} (k : Z) (l : list A) : list A :=
  if 0 <=? k then take (Z.to_nat k) l
  else take (length l - Z.to_nat (- k)) l.

Lemma sort_desc_of_sorted {A} (key : A -> Z) l :
  Sorted (desc key) l -> sort_desc key l = l.
Proof.
  induction 1 as [|x l Hs IH Hhd]; [done|]. simpl. rewrite IH.
  destruct Hhd as [|y l Hxy]; [done|]. simpl. unfold desc in Hxy.
  destruct (Z.ltb_spec (key x) (key y)); [lia|done].
Qed.

Lemma sorted_desc_lookup {A} (key : A -> Z) l :
  Sorted (desc key) l ->
  forall i j a b, (i <= j)%nat -> l !! i = Some a -> l !! j = Some b ->
    (key b <= key a).
Proof.
  intros Hs. apply Sorted_StronglySorted in Hs.
  2:{ intros a b c. unfold desc. lia. }
  induction Hs as [|c l _ IH Hc]; intros i j a b Hij Hi Hj; [done|].
  destruct i as [|i], j as [|j]; simpl in *; try lia.
  - injection Hi as <-. injection Hj as <-. lia.
  - injection Hi as <-. rewrite Forall_forall in Hc.
    apply Hc. by eapply list_elem_of_lookup_2.
  - apply (IH i j); [lia|done..].
Qed.

Lemma sorted_desc_take {A} (key : A -> Z) l k :
  Sorted (desc key) l -> Sorted (desc key) (take k l).
Proof.
  intros Hs. revert k. induction Hs as [|x l Hs IH Hhd]; intros [|k]; simpl;
    try constructor.
  - apply IH.
  - destruct Hhd as [|y l Hxy]; [destruct k; constructor|].
    destruct k; simpl; constructor. done.
Qed.

Lemma length_slice_to {A} (k : Z) (l : list A) :
  Z.of_nat (length (slice_to k l)) =
  if (0 <=? k) then Z.min k (Z.of_nat (length l))
  else Z.max 0 (Z.of_nat (length l) + k).
Proof.
  unfold slice_to. destruct (Z.leb_spec 0 k); rewrite length_take; lia.
Qed.

Lemma slice_to_take {A} (k : Z) (l : list A) :
  slice_to k l = take (length (slice_to k l)) l.
Proof.
  unfold slice_to. destruct (0 <=? k).
  - rewrite length_take. destruct (decide (Z.to_nat k <= length l)%nat).
    + by rewrite Nat.min_l.
    + rewrite Nat.min_r by lia. by rewrite !take_ge by lia.
  - rewrite length_take. by rewrite Nat.min_l by lia.
Qed.

(** The sort is stable: the items of one key keep their order. *)
Lemma insert_desc_stable {A} (key : A -> Z) (k : Z) x l :
  filter (fun y => key y = k) (insert_desc key x l) =
  filter (fun y => key y = k) (x :: l).
Proof.
  induction l as [|y l IH]; simpl; [done|].
  destruct (Z.ltb_spec (key x) (key y)); [|done].
  rewrite filter_cons, IH, !filter_cons.
  destruct (decide (key y = k)), (decide (key x = k)); try done. lia.
Qed.

Lemma sort_desc_stable {A} (key : A -> Z) (k : Z) l :
  filter (fun y => key y = k) (sort_desc key l) = filter (fun y => key y = k) l.
Proof.
  induction l as [|x l IH]; simpl; [done|].
  by rewrite insert_desc_stable, !filter_cons, IH.
Qed.

End py.

(* ===================================================================== *)
(** * Part III. [models.py] *)

Inductive Node : Type := mkNode {
  name : string;
  path : string;
  is_dir : bool;
  size : Z;
  children : list Node
}.

(** [elapsed_sec], a wall-clock float, is left out. *)
Record ScanResult : Type := mkScanResult {
  root : Node;
  ext_stats : gmap string (Z * Z);
  top_files : list (Z * string);
  scanned_paths : list string;
  files : Z;
  dirs : Z;
  bytes_scanned : Z
}.

(* ===================================================================== *)
(** * Part IV. What [os.scandir] shows to one scan

    A directory is the list of entries that iterating [os.scandir] yields,
    in the order it yields them, and whether the call or the iteration then
    raises [OSError] (a directory that cannot be opened is
    [Listing [] true]).  An entry answers [is_symlink()] ([None]: the call
    raises [OSError]) and [stat(follow_symlinks=...)]. The tree is finite:
    a symbolic link cycle followed for ever is not represented. *)

Inductive dir : Type :=
| Listing (entries : list entry) (raises : bool)
with entry : Type :=
| Entry (entry_name : string) (is_symlink : option bool) (st : stat)
with stat : Type :=
| StatError
| StatFile (st_size : N)
| StatDir (d : dir).

(** The functions of [os] and [str] the scanner calls. *)
Record Platform : Type := mkPlatform {
  abspath : string -> string;           (* os.path.abspath *)
  basename : string -> string;          (* os.path.basename *)
  splitext : string -> string * string; (* os.path.splitext *)
  os_sep : string;                      (* os.sep *)
  entry_path : string -> string -> string;
    (* DirEntry.path = os.path.join(scandir_path, DirEntry.name) *)
  lower : string -> string;             (* str.lower *)
  scandir : string -> dir               (* os.scandir on a root path *)
}.

(* ===================================================================== *)
(** * Part V. A concrete platform: POSIX paths, ASCII names

    Used to run the scanner on concrete directory trees. [abspath] is the
    identity: the roots are given absolute and normalised. *)

Module posix.

Definition is_slash (a : ascii) : bool := bool_decide (a = "/"%char).
Definition is_dot (a : ascii) : bool := bool_decide (a = "."%char).

(** [posixpath.basename]: what follows the last slash. *)
Fixpoint basename (p : string) : string :=
  match p with
  | EmptyString => EmptyString
  | String a p' =>
      if existsb is_slash (list_ascii_of_string p') then basename p'
      else if is_slash a then p' else p
  end.

(** [genericpath._splitext] on a name without a slash: the extension
    starts at the last dot, unless only dots precede it. *)
Fixpoint splitext_go (seen_other : bool) (p : string) : string * string :=
  match p with
  | EmptyString => (EmptyString, EmptyString)
  | String a p' =>
      if is_dot a && seen_other
         && negb (existsb is_dot (list_ascii_of_string p'))
      then (EmptyString, p)
      else let '(r, e) := splitext_go (seen_other || negb (is_dot a)) p' in
           (String a r, e)
  end.
Definition splitext (p : string) : string * string := splitext_go false p.

(** [posixpath.join(a, b)] for a name [b] *)
Definition join (a b : string) : string :=
  if decide (a = "") then b
  else if decide (String.get (String.length a - 1) a = Some "/"%char)
       then a +:+ b else a +:+ "/" +:+ b.

Definition lower_ascii (a : ascii) : ascii :=
  let n := nat_of_ascii a in
  if decide (65 <= n <= 90)%nat then ascii_of_nat (n + 32) else a.
Fixpoint lower (s : string) : string :=
  match s with
  | EmptyString => EmptyString
  | String a s' => String (lower_ascii a) (lower s')
  end.

Definition platform (fs : string -> dir) : Platform :=
  mkPlatform (fun p => p) basename splitext "/" join lower fs.

End posix.

(** A regular file named [f<size>], and a directory that lists regular
    files of the given sizes in the given order. *)
Definition plain_file (sz : N) : entry :=
  Entry ("f" +:+ pretty sz) (Some false) (StatFile sz).

Definition files_dir (sizes : list N) : dir := Listing (plain_file <$> sizes) false.

Definition ascending (lo : N) (n : nat) : list N :=
  (fun i => (lo + N.of_nat i)%N) <$> seq 0 n.

(* ===================================================================== *)
(** * Part VI. [scanner.py] *)

Definition DEFAULT_TOP_FILES_PER_DIR : Z := 80.
Definition DEFAULT_GLOBAL_TOP_FILES : Z := 400.

Definition _push_top (heap : list (Z * string)) (item : Z * string) (limit : Z)
    : list (Z * string) :=
  if limit <=? 0 then heap
  else if Z.of_nat (length heap) <? limit then heapq.heappush py.lt2 heap item
  else match heap !! 0%nat with
       | Some top => if item.1 >? top.1 then heapq.heapreplace py.lt2 heap item
                     else heap
       | None => heap
       end.

(** The variables of [scan_paths] that [scan_dir] updates ([nonlocal]), the
    number of calls made to [cancel_flag] so far, and, as a ghost field the
    code does not have, the files counted so far as [(size, path, name)]. *)
Record scan_state : Type := mkState {
  s_files : Z;
  s_dirs : Z;
  s_bytes_scanned : Z;
  s_ext_stats : gmap string (Z * Z);
  s_global_top : list (Z * string);
  s_polls : nat;
  s_visited : list (Z * string * string)
}.

(** The local variables of one call of [scan_dir]. *)
Record dir_state : Type := mkDirState {
  node : Node;
  local_top : list (Z * string * string);
  local_files_count : Z;
  local_other_bytes : Z
}.

Definition append_child (n c : Node) : Node :=
  mkNode (name n) (path n) (is_dir n) (size n) (children n ++ [c]).

Definition add_size (n : Node) (k : Z) : Node :=
  mkNode (name n) (path n) (is_dir n) (size n + k) (children n).

(** The totals of the histogram. *)
Definition ext_bytes (m : gmap string (Z * Z)) : Z :=
  map_fold (fun _ v acc => v.1 + acc) 0 m.
Definition ext_count (m : gmap string (Z * Z)) : Z :=
  map_fold (fun _ v acc => v.2 + acc) 0 m.

Lemma ext_totals_insert (m : gmap string (Z * Z)) k v :
  ext_bytes (<[k := v]> m) = ext_bytes m - (default (0, 0) (m !! k)).1 + v.1 /\
  ext_count (<[k := v]> m) = ext_count m - (default (0, 0) (m !! k)).2 + v.2.
Proof.
  unfold ext_bytes, ext_count. destruct (m !! k) as [v0|] eqn:E; simpl.
  - rewrite <- (insert_delete_eq m k v).
    rewrite !map_fold_insert_L by (intros; try apply lookup_delete_eq; lia).
    rewrite (map_fold_delete_L (fun _ v acc => v.1 + acc) 0 k v0 m)
      by (intros; try done; lia).
    rewrite (map_fold_delete_L (fun _ v acc => v.2 + acc) 0 k v0 m)
      by (intros; try done; lia).
    lia.
  - rewrite !map_fold_insert_L by (intros; try done; lia). lia.
Qed.

Section scanner.
Variable os : Platform.
(** [cancel_flag], when given, answers its [k]-th call with [f k]. *)
Variable cancel_flag : option (nat -> bool).
Variable follow_symlinks : bool.
Variable top_files_per_dir : Z.
Variable global_top_files : Z.

(** [cancel_flag and cancel_flag()] *)
Definition poll (s : scan_state) : bool * scan_state :=
  match cancel_flag with
  | None => (false, s)
  | Some f =>
      (f (s_polls s),
       mkState (s_files s) (s_dirs s) (s_bytes_scanned s) (s_ext_stats s)
               (s_global_top s) (S (s_polls s)) (s_visited s))
  end.

Definition ext_key (entry_name : string) : string :=
  py.str_or (lower os (splitext os entry_name).2) "<без расширения>".

(** Lines 83 and 88-98: the counters, the histogram and the global heap. *)
Definition count_dir (s : scan_state) : scan_state :=
  mkState (s_files s) (s_dirs s + 1) (s_bytes_scanned s) (s_ext_stats s)
          (s_global_top s) (s_polls s) (s_visited s).

Definition count_file (s : scan_state) (sz : Z) (nm pth : string) : scan_state :=
  let ext := ext_key nm in
  let '(b, c) := default (0, 0) (s_ext_stats s !! ext) in
  mkState (s_files s + 1) (s_dirs s) (s_bytes_scanned s + sz)
          (<[ext := (b + sz, c + 1)]> (s_ext_stats s))
          (_push_top (s_global_top s) (sz, pth) global_top_files)
          (s_polls s) (s_visited s ++ [(sz, pth, nm)]).

(** Lines 89-91 and 100-109: the per-directory heap. *)
Definition keep_file (l : dir_state) (sz : Z) (nm pth : string) : dir_state :=
  let node' := add_size (node l) sz in
  let count := local_files_count l + 1 in
  if top_files_per_dir >? 0 then
    if Z.of_nat (length (local_top l)) <? top_files_per_dir then
      mkDirState node' (heapq.heappush py.lt3 (local_top l) (sz, nm, pth))
                 count (local_other_bytes l)
    else
      match local_top l !! 0%nat with
      | Some top =>
          if sz >? top.1.1 then
            mkDirState node' (heapq.heapreplace py.lt3 (local_top l) (sz, nm, pth))
                       count (local_other_bytes l)
          else mkDirState node' (local_top l) count (local_other_bytes l + sz)
      | None => mkDirState node' (local_top l) count (local_other_bytes l + sz)
      end
  else mkDirState node' (local_top l) count (local_other_bytes l + sz).

Definition file_node (x : Z * string * string) : Node :=
  mkNode x.1.2 x.2 false x.1.1 [].

(** Lines 122-128: the synthetic child that stands for the other files. *)
Definition overflow_node (dir_path : string) (other_count bytes : Z) : Node :=
  mkNode ("… другие файлы (" +:+ pretty other_count +:+ ")")
         dir_path false bytes [].

(** Lines 115-129: the retained files, largest first, then the overflow. *)
Definition finish_dir (dir_path : string) (l : dir_state) : Node :=
  let top := py.sort_desc (fun x : Z * string * string => x.1.1) (local_top l) in
  let node' := foldl append_child (node l) (file_node <$> top) in
  let other_count := Z.max 0 (local_files_count l - Z.of_nat (length (local_top l))) in
  if (other_count >? 0) && (local_other_bytes l >? 0) then
    append_child node' (overflow_node dir_path other_count (local_other_bytes l))
  else node'.

Definition new_dir_node (dir_path : string) : Node :=
  mkNode (py.str_or (basename os (py.rstrip ["\"; "/"]%char dir_path)) dir_path)
         dir_path true 0 [].

(** The [for entry in it] loop of [scan_dir]; it returns the local
    variables and whether it was left by [break].  [scan_sub] stands for
    the recursive call [scan_dir(entry.path)].  [emit] only calls the
    progress sink and is not modelled. *)
Section entries.
Variable scan_sub : string -> dir -> scan_state -> Node * scan_state.

Fixpoint scan_entries (dir_path : string) (entries : list entry)
    (l : dir_state) (s : scan_state) {struct entries}
    : dir_state * bool * scan_state :=
  match entries with
  | [] => (l, false, s)
  | Entry nm symlink st :: entries' =>
      let '(cancelled, s) := poll s in
      if cancelled then (l, true, s) else
      match symlink with
      | None => scan_entries dir_path entries' l s
      | Some sl =>
          if sl && negb follow_symlinks
          then scan_entries dir_path entries' l s
          else
            match st with
            | StatError => scan_entries dir_path entries' l s
            | StatDir d' =>
                let s := count_dir s in
                let '(child, s) := scan_sub (entry_path os dir_path nm) d' s in
                let node' :=
                  add_size (append_child (node l) child) (size child) in
                scan_entries dir_path entries'
                  (mkDirState node' (local_top l) (local_files_count l)
                              (local_other_bytes l)) s
            | StatFile st_size =>
                let sz := Z.of_N st_size in
                let pth := entry_path os dir_path nm in
                let s := count_file s sz nm pth in
                scan_entries dir_path entries' (keep_file l sz nm pth) s
            end
      end
  end.
End entries.

Fixpoint scan_dir (dir_path : string) (d : dir) (s : scan_state) {struct d}
    : Node * scan_state :=
  let node' := new_dir_node dir_path in
  let '(cancelled, s) := poll s in
  if cancelled then (node', s) else
  match d with
  | Listing entries raises =>
      let '(l, broke, s) :=
        scan_entries scan_dir dir_path entries (mkDirState node' [] 0 0) s in
      if negb broke && raises then (node l, s)
      else (finish_dir dir_path l, s)
  end.

(** The body of [scan_paths].  With no path left after the filter,
    [paths[0]] raises [IndexError]: the result is [None]. *)
Definition normalize_paths (paths : list string) : list string :=
  let paths := abspath os <$> filter (fun p => p <> "") paths in
  (fun p : string =>
     if bool_decide (String.length p = 3%nat /\ String.get 1 p = Some ":"%char)
     then py.rstrip ["\"; "/"]%char p +:+ os_sep os else p) <$> paths.

Definition root_name (paths : list string) : option string :=
  if decide (1 < length paths)%nat then Some "Этот компьютер"
  else match paths with
       | [] => None
       | p :: _ =>
           Some (py.str_or (basename os (py.rstrip ["\"; "/"]%char p)) p)
       end.

Definition initial_state : scan_state := mkState 0 0 0 ∅ [] 0 [].

(** The [for p in paths] loop. *)
Fixpoint scan_roots (paths : list string) (root : Node) (s : scan_state)
    : Node * scan_state :=
  match paths with
  | [] => (root, s)
  | p :: paths' =>
      let '(cancelled, s) := poll s in
      if cancelled then (root, s) else
      let '(child, s) := scan_dir p (scandir os p) s in
      scan_roots paths' (add_size (append_child root child) (size child)) s
  end.

(** Lines 34-40 and the loop: the root node and the final state. *)
Definition scan_run (paths : list string) (name' : string) : Node * scan_state :=
  scan_roots paths (mkNode name' (py.join ";" paths) true 0 []) initial_state.

Definition scan_paths (paths : list string) : option ScanResult :=
  let paths := normalize_paths paths in
  name' ← root_name paths;
  let '(root, s) := scan_run paths name' in
  let top_files_sorted :=
    py.sort_desc (fun x : Z * string => x.1) (s_global_top s) in
  Some (mkScanResult root (s_ext_stats s) top_files_sorted paths
                     (s_files s) (s_dirs s) (s_bytes_scanned s)).


(* ===================================================================== *)
(** * Part VII. Properties of the scan engine *)

(* --------------------------------------------------------------------- *)
(** ** One pass over a listing *)

(** Induction on directory trees: a property holds of a listing when it
  holds of the directories its entries lead to. *)
Definition subdir (e : entry) : option dir :=
  match e with Entry _ _ (StatDir d) => Some d | _ => None end.

Lemma dir_tree_ind (P : dir -> Prop) :
  (forall entries raises,
      Forall (fun e => forall d, subdir e = Some d -> P d) entries ->
      P (Listing entries raises)) ->
  forall d, P d.
Proof.
  intros H. fix IH 1. intros [entries raises]. apply H.
  induction entries as [|e entries IHe]; constructor; [|exact IHe].
  intros d Hd. destruct e as [nm sl [| |d']]; simpl in Hd; try discriminate.
  injection Hd as <-. apply IH.
Qed.

(** What the loop body does with an entry that is reached. *)
Inductive action : Type :=
| Skip
| IsFile (sz : Z) (nm : string)
| IsDir (nm : string) (d : dir).

Definition classify (e : entry) : action :=
  match e with
  | Entry nm symlink st =>
      match symlink with
      | None => Skip
      | Some sl =>
          if sl && negb follow_symlinks then Skip
          else match st with
               | StatError => Skip
               | StatFile st_size => IsFile (Z.of_N st_size) nm
               | StatDir d => IsDir nm d
               end
      end
  end.

Definition files_of (entries : list entry) : list (Z * string) :=
  omap (fun e => match classify e with
                 | IsFile sz nm => Some (sz, nm) | _ => None end) entries.

Definition dirs_of (entries : list entry) : list (string * dir) :=
  omap (fun e => match classify e with
                 | IsDir nm d => Some (nm, d) | _ => None end) entries.

Lemma files_of_cons e entries :
  files_of (e :: entries) =
  match classify e with
  | IsFile sz nm => (sz, nm) :: files_of entries
  | _ => files_of entries
  end.
Proof. unfold files_of. simpl. by destruct (classify e). Qed.

Lemma dirs_of_cons e entries :
  dirs_of (e :: entries) =
  match classify e with
  | IsDir nm d => (nm, d) :: dirs_of entries
  | _ => dirs_of entries
  end.
Proof. unfold dirs_of. simpl. by destruct (classify e). Qed.

Lemma classify_subdir e nm d : classify e = IsDir nm d -> subdir e = Some d.
Proof.
  destruct e as [nm' [sl|] st]; simpl; [|done].
  destruct (sl && negb follow_symlinks); [done|].
  destruct st; congruence.
Qed.

(** The files of a listing, fed to the per-directory heap in order. *)
Definition keep_files (dir_path : string) (l : dir_state)
    (fs : list (Z * string)) : dir_state :=
  foldl (fun l x => keep_file l x.1 x.2 (entry_path os dir_path x.2)) l fs.

Definition sum_sizes (ns : list Node) : Z := foldr Z.add 0 (size <$> ns).
Definition sum_fst {B} (xs : list (Z * B)) : Z := foldr Z.add 0 (fst <$> xs).

Lemma sum_sizes_cons c cs : sum_sizes (c :: cs) = size c + sum_sizes cs.
Proof. reflexivity. Qed.

Lemma sum_fst_cons {B} (x : Z * B) xs : sum_fst (x :: xs) = x.1 + sum_fst xs.
Proof. reflexivity. Qed.

Lemma sum_sizes_app a b : sum_sizes (a ++ b) = sum_sizes a + sum_sizes b.
Proof. unfold sum_sizes. induction a; csimpl; lia. Qed.

Lemma sum_fst_app {B} (a b : list (Z * B)) : sum_fst (a ++ b) = sum_fst a + sum_fst b.
Proof. unfold sum_fst. induction a; csimpl; lia. Qed.

Lemma keep_file_node l sz nm pth :
  node (keep_file l sz nm pth) = add_size (node l) sz.
Proof.
  unfold keep_file.
  repeat (case_match; simpl; try done).
Qed.

Definition same_local (l1 l2 : dir_state) : Prop :=
  local_top l1 = local_top l2 /\
  local_files_count l1 = local_files_count l2 /\
  local_other_bytes l1 = local_other_bytes l2.

Lemma keep_file_same_local l1 l2 sz nm pth :
  same_local l1 l2 -> same_local (keep_file l1 sz nm pth) (keep_file l2 sz nm pth).
Proof.
  intros (H1 & H2 & H3). unfold keep_file, same_local.
  rewrite H1, H2, H3. repeat (case_match; simpl; try done).
Qed.

Lemma keep_files_same_local dir_path fs : forall l1 l2,
  same_local l1 l2 ->
  same_local (keep_files dir_path l1 fs) (keep_files dir_path l2 fs).
Proof.
  induction fs as [|x fs IH]; intros l1 l2 H; simpl; [done|].
  apply IH. by apply keep_file_same_local.
Qed.

Lemma same_local_trans l1 l2 l3 :
  same_local l1 l2 -> same_local l2 l3 -> same_local l1 l3.
Proof. intros (?&?&?) (?&?&?). repeat split; congruence. Qed.

Lemma scan_entries_cons scan_sub dir_path e entries l s :
  scan_entries scan_sub dir_path (e :: entries) l s =
  let '(cancelled, s1) := poll s in
  if cancelled then (l, true, s1) else
  match classify e with
  | Skip => scan_entries scan_sub dir_path entries l s1
  | IsFile sz nm =>
      scan_entries scan_sub dir_path entries
        (keep_file l sz nm (entry_path os dir_path nm))
        (count_file s1 sz nm (entry_path os dir_path nm))
  | IsDir nm d =>
      let '(child, s2) := scan_sub (entry_path os dir_path nm) d (count_dir s1) in
      scan_entries scan_sub dir_path entries
        (mkDirState (add_size (append_child (node l) child) (size child))
                    (local_top l) (local_files_count l) (local_other_bytes l)) s2
  end.
Proof.
  destruct e as [nm [sl|] st]; simpl; destruct (poll s) as [[] s1]; try done.
  destruct (sl && negb follow_symlinks); [done|]. by destruct st.
Qed.

(** One pass over a listing: a prefix of the entries was processed (all
    of them unless the loop was left by [break]); the heap, the file
    count and the overflow bytes are those of feeding the files of the
    prefix in order; the children appended are the nodes of the
    directories of the prefix, in order. *)
Lemma scan_entries_spec (Q : string -> dir -> Node -> Prop)
    (scan_sub : string -> dir -> scan_state -> Node * scan_state) dir_path :
  forall entries,
  Forall (fun e => forall nm d, classify e = IsDir nm d ->
            forall s0, Q nm d (scan_sub (entry_path os dir_path nm) d s0).1)
         entries ->
  forall l s l' broke s',
  scan_entries scan_sub dir_path entries l s = (l', broke, s') ->
  exists done rest subs,
    entries = done ++ rest /\ (broke = false -> rest = []) /\
    Forall2 (fun x c => Q x.1 x.2 c) (dirs_of done) subs /\
    same_local l' (keep_files dir_path l (files_of done)) /\
    children (node l') = children (node l) ++ subs /\
    size (node l') = size (node l) + sum_fst (files_of done) + sum_sizes subs /\
    name (node l') = name (node l) /\ path (node l') = path (node l) /\
    is_dir (node l') = is_dir (node l).
Proof.
  induction entries as [|e entries IH]; intros HQ l s l' broke s' Hrun.
  { simpl in Hrun. injection Hrun as <- <- <-. exists [], [], [].
    unfold sum_fst, sum_sizes. simpl. rewrite !app_nil_r.
    repeat split; first [done | constructor | lia]. }
  apply Forall_cons in HQ as [HQe HQ].
  rewrite scan_entries_cons in Hrun.
  destruct (poll s) as [[] s1].
  { injection Hrun as <- <- <-. exists [], (e :: entries), [].
    unfold sum_fst, sum_sizes. simpl. rewrite !app_nil_r.
    repeat split; first [done | constructor | lia]. }
  destruct (classify e) as [|sz nm|nm d] eqn:Ec.
  - destruct (IH HQ _ _ _ _ _ Hrun)
      as (done & rest & subs & -> & Hb & Hsubs & Hloc & Hch & Hsz & Hn & Hp & Hd).
    exists (e :: done), rest, subs.
    rewrite files_of_cons, dirs_of_cons, Ec. by repeat (split; [done|]).
  - destruct (IH HQ _ _ _ _ _ Hrun)
      as (done & rest & subs & -> & Hb & Hsubs & Hloc & Hch & Hsz & Hn & Hp & Hd).
    exists (e :: done), rest, subs.
    rewrite keep_file_node in Hch, Hsz, Hn, Hp, Hd.
    rewrite files_of_cons, dirs_of_cons, Ec.
    do 5 (split; [done|]). split; [|done].
    rewrite Hsz, sum_fst_cons. simpl. lia.
  - specialize (HQe nm d eq_refl (count_dir s1)).
    destruct (scan_sub (entry_path os dir_path nm) d (count_dir s1))
      as [child s2].
    destruct (IH HQ _ _ _ _ _ Hrun)
      as (done & rest & subs & -> & Hb & Hsubs & Hloc & Hch & Hsz & Hn & Hp & Hd).
    exists (e :: done), rest, (child :: subs).
    simpl in Hch, Hsz, Hn, Hp, Hd.
    rewrite files_of_cons, dirs_of_cons, Ec.
    do 2 (split; [done|]). split; [by constructor|].
    split; [|split; [|split; [|done]]].
    + eapply same_local_trans; [exact Hloc|].
      by apply keep_files_same_local.
    + by rewrite Hch, <- app_assoc.
    + rewrite Hsz, sum_sizes_cons. simpl. lia.
Qed.

(* --------------------------------------------------------------------- *)
(** ** The counters, the histogram and the global heap *)

(** A property of the scan state that every step of the scan keeps is kept
    by the whole scan. *)
Section state_invariant.
Variable J : scan_state -> Prop.
Hypothesis J_poll : forall s, J s -> J (poll s).2.
Hypothesis J_count_dir : forall s, J s -> J (count_dir s).
Hypothesis J_count_file : forall s sz nm pth, J s -> J (count_file s sz nm pth).

Lemma scan_entries_state scan_sub dir_path : forall entries,
  Forall (fun e => forall d, subdir e = Some d ->
            forall p s, J s -> J (scan_sub p d s).2) entries ->
  forall l s, J s -> J (scan_entries scan_sub dir_path entries l s).2.
Proof.
  induction entries as [|e entries IH]; intros Hsub l s Hs; [done|].
  apply Forall_cons in Hsub as [He Hsub].
  rewrite scan_entries_cons. pose proof (J_poll s Hs) as Hp.
  destruct (poll s) as [[] s1]; [done|]. simpl in Hp.
  destruct (classify e) as [|sz nm|nm d] eqn:Ec.
  - by apply IH.
  - apply IH; [done|]. by apply J_count_file.
  - pose proof (He d (classify_subdir _ _ _ Ec) (entry_path os dir_path nm)
                  (count_dir s1) (J_count_dir _ Hp)) as Hc.
    destruct (scan_sub _ d _) as [child s2]. by apply IH.
Qed.

Lemma scan_dir_state : forall d dir_path s, J s -> J (scan_dir dir_path d s).2.
Proof.
  induction d as [entries raises IH] using dir_tree_ind. intros dir_path s Hs.
  simpl. pose proof (J_poll s Hs) as Hp.
  destruct (poll s) as [[] s1]; [done|]. simpl in Hp.
  pose proof (scan_entries_state scan_dir dir_path entries IH
                (mkDirState (new_dir_node dir_path) [] 0 0) s1 Hp) as H.
  destruct (scan_entries _ _ _ _ _) as [[l broke] s2].
  by destruct (negb broke && raises).
Qed.

Lemma scan_roots_state : forall paths root s,
  J s -> J (scan_roots paths root s).2.
Proof.
  induction paths as [|p paths IH]; intros root s Hs; [done|].
  simpl. pose proof (J_poll s Hs) as Hp.
  destruct (poll s) as [[] s1]; [done|]. simpl in Hp.
  pose proof (scan_dir_state (scandir os p) p s1 Hp) as H.
  destruct (scan_dir p _ s1) as [child s2]. by apply IH.
Qed.
End state_invariant.

(** The files counted so far whose extension key is [k]. *)
Definition with_key (k : string) (vis : list (Z * string * string))
    : list (Z * string * string) :=
  filter (fun x => ext_key x.2 = k) vis.

(** What the histogram holds at [k] when each file of [vis] has added its
    size and a count of one at its own key. *)
Definition per_key (vis : list (Z * string * string)) (k : string) : option (Z * Z) :=
  match with_key k vis with
  | [] => None
  | fs => Some (sum_fst (fst <$> fs), Z.of_nat (length fs))
  end.

(** The global heap after the files [xs] were offered to it in order. *)
Definition push_all (xs : list (Z * string)) : list (Z * string) :=
  foldl (fun heap x => _push_top heap x global_top_files) [] xs.

Definition state_ok (s : scan_state) : Prop :=
  s_files s = Z.of_nat (length (s_visited s)) /\
  s_bytes_scanned s = sum_fst (fst <$> s_visited s) /\
  ext_bytes (s_ext_stats s) = s_bytes_scanned s /\
  ext_count (s_ext_stats s) = s_files s /\
  (forall k, s_ext_stats s !! k = per_key (s_visited s) k) /\
  s_global_top s = push_all (fst <$> s_visited s).

Lemma per_key_default vis k :
  default (0, 0) (per_key vis k) =
  (sum_fst (fst <$> with_key k vis), Z.of_nat (length (with_key k vis))).
Proof. unfold per_key. by destruct (with_key k vis). Qed.

Lemma per_key_snoc vis sz pth nm k :
  per_key (vis ++ [(sz, pth, nm)]) k =
  if decide (ext_key nm = k)
  then Some ((default (0, 0) (per_key vis k)).1 + sz,
             (default (0, 0) (per_key vis k)).2 + 1)
  else per_key vis k.
Proof.
  rewrite per_key_default. unfold per_key, with_key.
  rewrite filter_app, filter_cons, filter_nil. simpl.
  destruct (decide (ext_key nm = k)) as [E|N]; [|by rewrite app_nil_r].
  set (fs := filter _ vis).
  destruct (fs ++ [(sz, pth, nm)]) as [|a b] eqn:Eapp.
  { by destruct fs. }
  change (a.1 :: list_fmap _ _ fst b) with (fst <$> (a :: b)).
  change (S (length b)) with (length (a :: b)).
  rewrite <- Eapp, fmap_app, sum_fst_app, length_app. simpl.
  unfold sum_fst at 2. simpl. f_equal. f_equal; lia.
Qed.

Lemma state_ok_initial : state_ok initial_state.
Proof. repeat split. Qed.

Lemma state_ok_poll s : state_ok s -> state_ok (poll s).2.
Proof. unfold poll. by destruct cancel_flag. Qed.

Lemma state_ok_count_dir s : state_ok s -> state_ok (count_dir s).
Proof. done. Qed.

Lemma state_ok_count_file s sz nm pth :
  state_ok s -> state_ok (count_file s sz nm pth).
Proof.
  intros (Hf & Hb & Heb & Hec & Hk & Hg). unfold count_file.
  pose proof (ext_totals_insert (s_ext_stats s) (ext_key nm)) as Hins.
  destruct (default (0, 0) (s_ext_stats s !! ext_key nm)) as [b c] eqn:Ed.
  destruct (Hins (b + sz, c + 1)) as [H1 H2]. simpl in H1, H2.
  unfold state_ok. simpl.
  rewrite length_app, fmap_app, sum_fst_app. simpl.
  split; [lia|]. split; [unfold sum_fst at 2; simpl; lia|].
  split; [lia|]. split; [lia|]. split.
  - intros k. rewrite per_key_snoc, lookup_insert.
    destruct (decide (ext_key nm = k)) as [<-|N]; [|done].
    by rewrite <- Hk, Ed.
  - unfold push_all. by rewrite foldl_app, Hg.
Qed.

Lemma scan_roots_state_ok paths root :
  state_ok (scan_roots paths root initial_state).2.
Proof.
  apply scan_roots_state;
    auto using state_ok_poll, state_ok_count_dir, state_ok_count_file,
               state_ok_initial.
Qed.

(** The files the scan counted, in the order it met them, as
    [(size, path, name)]: the ghost field of the final state. *)
Definition visited (paths : list string) : list (Z * string * string) :=
  let paths := normalize_paths paths in
  match root_name paths with
  | Some name' => s_visited (scan_run paths name').2
  | None => []
  end.

Lemma scan_paths_Some paths r :
  scan_paths paths = Some r ->
  exists name', root_name (normalize_paths paths) = Some name' /\
    r = mkScanResult (scan_run (normalize_paths paths) name').1
          (s_ext_stats (scan_run (normalize_paths paths) name').2)
          (py.sort_desc (fun x : Z * string => x.1)
             (s_global_top (scan_run (normalize_paths paths) name').2))
          (normalize_paths paths)
          (s_files (scan_run (normalize_paths paths) name').2)
          (s_dirs (scan_run (normalize_paths paths) name').2)
          (s_bytes_scanned (scan_run (normalize_paths paths) name').2).
Proof.
  unfold scan_paths. intros H.
  destruct (root_name (normalize_paths paths)) as [name'|]; [|done].
  exists name'. split; [done|]. simpl in H.
  destruct (scan_run (normalize_paths paths) name') as [root' s].
  by injection H as <-.
Qed.

Lemma push_top_bounded heap x :
  _push_top heap x global_top_files =
  if global_top_files <=? 0 then heap
  else heapq.bounded_push py.lt2 fst global_top_files heap x.
Proof. reflexivity. Qed.

Lemma push_all_snoc xs x :
  push_all (xs ++ [x]) = _push_top (push_all xs) x global_top_files.
Proof. unfold push_all. by rewrite foldl_app. Qed.

Lemma push_all_top_of xs :
  0 < global_top_files ->
  heapq.top_of fst global_top_files xs (push_all xs).
Proof.
  intros HK. induction xs as [|x xs IH] using rev_ind.
  { apply heapq.top_of_nil. }
  rewrite push_all_snoc, push_top_bounded.
  destruct (Z.leb_spec global_top_files 0); [lia|].
  apply heapq.bounded_push_top_of; auto using py.lt2_key, py.lt2_nkey.
Qed.

Lemma push_all_off xs : global_top_files <= 0 -> push_all xs = [].
Proof.
  intros HK. induction xs as [|x xs IH] using rev_ind; [done|].
  rewrite push_all_snoc, push_top_bounded, IH.
  by destruct (Z.leb_spec global_top_files 0); [|lia].
Qed.

Lemma length_push_all xs :
  length (push_all xs) = Z.to_nat (Z.min global_top_files (Z.of_nat (length xs))).
Proof.
  destruct (Z.le_gt_cases global_top_files 0) as [HK|HK].
  - rewrite push_all_off by done. simpl. lia.
  - by destruct (push_all_top_of xs) as (_ & Hlen & _); [lia|].
Qed.

(** C8. Whenever [scan_paths] returns a result, the bytes of [ext_stats]
    summed over all keys equal [bytes_scanned] and its counts summed equal
    [files]; [files] and [bytes_scanned] are the number and the total size
    of the files visited; and the histogram holds at every key exactly the
    total size and the number of the visited files whose key it is, where
    the key of a file is its lower-cased extension, or the sentinel when
    that is empty. *)
Theorem ext_stats_totals paths r :
  scan_paths paths = Some r ->
  ext_bytes (ext_stats r) = bytes_scanned r /\
  ext_count (ext_stats r) = files r /\
  files r = Z.of_nat (length (visited paths)) /\
  bytes_scanned r = sum_fst (fst <$> visited paths) /\
  (forall k, ext_stats r !! k = per_key (visited paths) k) /\
  (forall nm, ext_key nm =
     if decide (lower os (splitext os nm).2 = "") then "<без расширения>"
     else lower os (splitext os nm).2).
Proof.
  intros H. apply scan_paths_Some in H as (name' & Hn & ->).
  unfold visited. rewrite Hn. simpl.
  destruct (scan_roots_state_ok (normalize_paths paths)
              (mkNode name' (py.join ";" (normalize_paths paths)) true 0 []))
    as (Hf & Hb & Heb & Hec & Hk & Hg).
  unfold scan_run. by repeat (split; [done|]).
Qed.

(** C9. Whenever [scan_paths] returns a result, [top_files] is the global
    heap of the visited files sorted by size, largest first (a function of
    the visit order alone); it has [min(global_top_files, files)] items
    (none when the cap is not positive); the visited files split into
    [top_files] and the others, none of which is larger than one of
    [top_files]; and after any number of files the heap holds no more than
    [global_top_files] items. *)
Theorem top_files_largest paths r :
  scan_paths paths = Some r ->
  top_files r = py.sort_desc fst (push_all (fst <$> visited paths)) /\
  length (top_files r) = Z.to_nat (Z.min global_top_files (files r)) /\
  Sorted (py.desc fst) (top_files r) /\
  (exists rest, fst <$> visited paths ≡ₚ top_files r ++ rest /\
     forall x y, x ∈ top_files r -> y ∈ rest -> y.1 <= x.1) /\
  (forall k, Z.of_nat (length (push_all (take k (fst <$> visited paths))))
             <= Z.max 0 global_top_files).
Proof.
  intros H. apply scan_paths_Some in H as (name' & Hn & ->).
  unfold visited. rewrite Hn. simpl.
  destruct (scan_roots_state_ok (normalize_paths paths)
              (mkNode name' (py.join ";" (normalize_paths paths)) true 0 []))
    as (Hf & Hb & Heb & Hec & Hk & Hg).
  unfold scan_run. rewrite Hg, Hf.
  set (vis := s_visited _). split; [done|]. split.
  { by rewrite py.length_sort_desc, length_push_all, length_fmap. }
  split; [apply py.sort_desc_sorted|]. split.
  - destruct (Z.le_gt_cases global_top_files 0) as [HK|HK].
    + rewrite push_all_off by done. exists (fst <$> vis). split; [done|].
      intros x y Hx. by apply elem_of_nil in Hx.
    + destruct (push_all_top_of (fst <$> vis)) as (_ & _ & rest & Hp & Ho); [lia|].
      exists rest. rewrite py.sort_desc_perm. split; [done|].
      intros x y Hx. rewrite py.sort_desc_perm in Hx. by apply Ho.
  - intros k. rewrite length_push_all. lia.
Qed.

(* --------------------------------------------------------------------- *)
(** ** The node of one directory *)

(** The overflow child [finish_dir] appends, if any. *)
Definition overflow_of (dir_path : string) (l : dir_state) : list Node :=
  let other_count := Z.max 0 (local_files_count l - Z.of_nat (length (local_top l))) in
  if (other_count >? 0) && (local_other_bytes l >? 0)
  then [overflow_node dir_path other_count (local_other_bytes l)] else [].

Lemma foldl_append_child cs : forall n,
  foldl append_child n cs =
  mkNode (name n) (path n) (is_dir n) (size n) (children n ++ cs).
Proof.
  induction cs as [|c cs IH]; intros [nm p d sz ch]; simpl.
  - by rewrite app_nil_r.
  - rewrite IH. simpl. by rewrite <- app_assoc.
Qed.

Lemma finish_dir_eq dir_path l :
  finish_dir dir_path l =
  mkNode (name (node l)) (path (node l)) (is_dir (node l)) (size (node l))
    (children (node l)
       ++ (file_node <$> py.sort_desc (fun x : Z * string * string => x.1.1) (local_top l))
       ++ overflow_of dir_path l).
Proof.
  unfold finish_dir, overflow_of. rewrite foldl_append_child.
  destruct (_ && _); unfold append_child; simpl.
  - by rewrite <- app_assoc.
  - by rewrite app_nil_r.
Qed.




Lemma keep_files_snoc dir_path l fs x :
  keep_files dir_path l (fs ++ [x]) =
  keep_file (keep_files dir_path l fs) x.1 x.2 (entry_path os dir_path x.2).
Proof. unfold keep_files. by rewrite foldl_app. Qed.







Lemma scan_entries_no_cancel scan_sub dir_path :
  cancel_flag = None ->
  forall entries l s, (scan_entries scan_sub dir_path entries l s).1.2 = false.
Proof.
  intros Hc. induction entries as [|e entries IH]; intros l s; [done|].
  rewrite scan_entries_cons. unfold poll. rewrite Hc.
  destruct (classify e); auto.
  destruct (scan_sub _ _ _). auto.
Qed.

(** The node of a directory: either the scan stopped on it at once or its
    listing raised, and the node has the subdirectories met and the size
    accumulated so far; or the node is completed from the local heap. *)
Lemma scan_dir_node (Q : string -> dir -> Node -> Prop) dir_path entries raises s :
  Forall (fun e => forall nm d, classify e = IsDir nm d ->
            forall s0, Q nm d (scan_dir (entry_path os dir_path nm) d s0).1)
         entries ->
  exists done rest subs,
    entries = done ++ rest /\
    Forall2 (fun x c => Q x.1 x.2 c) (dirs_of done) subs /\
    (cancel_flag = None -> rest = []) /\
    let l := keep_files dir_path (mkDirState (new_dir_node dir_path) [] 0 0)
               (files_of done) in
    let base := mkNode (name (new_dir_node dir_path)) dir_path true
                  (sum_fst (files_of done) + sum_sizes subs) subs in
    let n := (scan_dir dir_path (Listing entries raises) s).1 in
    (n = base /\
       ((cancel_flag <> None /\ done = []) \/ (rest = [] /\ raises = true))) \/
    n = finish_dir dir_path
          (mkDirState base (local_top l) (local_files_count l)
                      (local_other_bytes l)).
Proof.
  intros HQ. simpl.
  destruct (poll s) as [[] s1] eqn:Ep.
  { exists [], entries, []. split; [done|]. split; [constructor|].
    assert (cancel_flag <> None) as Hc.
    { intros Hc. unfold poll in Ep. by rewrite Hc in Ep. }
    split; [done|]. left. split; [by unfold new_dir_node|by left]. }
  pose proof (scan_entries_no_cancel scan_dir dir_path) as Hnc.
  specialize (fun H => Hnc H entries (mkDirState (new_dir_node dir_path) [] 0 0) s1).
  destruct (scan_entries scan_dir dir_path entries _ s1) as [[l' broke] s2] eqn:Erun.
  destruct (scan_entries_spec Q scan_dir dir_path entries HQ _ _ _ _ _ Erun)
    as (done & rest & subs & -> & Hb & Hsubs & (Ht & Hc & Ho) & Hch & Hsz & Hn & Hp & Hd).
  exists done, rest, subs. split; [done|]. split; [done|]. split; [auto|].
  simpl in Hch, Hsz, Hn, Hp, Hd.
  assert (node l' = mkNode (name (new_dir_node dir_path)) dir_path true
                      (sum_fst (files_of done) + sum_sizes subs) subs) as Hnode.
  { destruct (node l') as [nm p d sz ch]. simpl in *. subst. f_equal; lia. }
  destruct broke; simpl.
  - right.
    destruct l' as [nd lt lc lo]. simpl in *. by rewrite Hnode, Ht, Hc, Ho.
  - destruct raises; simpl.
    + left. split; [done|]. right. auto.
    + right.
      destruct l' as [nd lt lc lo]. simpl in *. by rewrite Hnode, Ht, Hc, Ho.
Qed.

Lemma scan_dir_path_is_dir dir_path d s :
  path (scan_dir dir_path d s).1 = dir_path /\ is_dir (scan_dir dir_path d s).1 = true.
Proof.
  destruct d as [entries raises].
  destruct (scan_dir_node (fun _ _ _ => True) dir_path entries raises s)
    as (done & rest & subs & _ & _ & _ & [[-> _]| ->]).
  - by apply Forall_forall.
  - done.
  - by rewrite finish_dir_eq.
Qed.

Lemma sum_sizes_perm a b : a ≡ₚ b -> sum_sizes a = sum_sizes b.
Proof.
  induction 1 as [|x a b _ IH|x y a|a b c _ IH1 _ IH2];
    rewrite ?sum_sizes_cons; lia.
Qed.

Lemma sum_sizes_file_nodes (kept : list (Z * string * string)) :
  sum_sizes (file_node <$> kept) = sum_fst (fst <$> kept).
Proof.
  induction kept as [|x kept IH]; [done|].
  rewrite !fmap_cons, sum_sizes_cons, sum_fst_cons, IH. done.
Qed.

Lemma sum_fst_perm {B} (a b : list (Z * B)) : a ≡ₚ b -> sum_fst a = sum_fst b.
Proof.
  induction 1 as [|x a b _ IH|x y a|a b c _ IH1 _ IH2];
    rewrite ?sum_fst_cons; lia.
Qed.


Lemma files_of_nonneg entries : Forall (fun x => 0 <= x.1) (files_of entries).
Proof.
  induction entries as [|e entries IH]; [constructor|].
  rewrite files_of_cons. destruct (classify e) as [|sz nm|] eqn:E; auto.
  constructor; [|done]. simpl.
  destruct e as [nm' [sl|] st]; simpl in E; [|done].
  destruct (sl && negb follow_symlinks); [done|].
  destruct st; simplify_eq. lia.
Qed.




Lemma overflow_of_cases dir_path l :
  overflow_of dir_path l = [] \/
  exists count bytes, 0 < count /\ 0 < bytes /\
    overflow_of dir_path l = [overflow_node dir_path count bytes].
Proof.
  unfold overflow_of.
  destruct (Z.gtb_spec (Z.max 0 (local_files_count l - Z.of_nat (length (local_top l)))) 0);
    [|by left].
  destruct (Z.gtb_spec (local_other_bytes l) 0); [|by left].
  right. eauto.
Qed.


(* --------------------------------------------------------------------- *)
(** ** The order of the children *)

(** The local state of [scan_dir] once the loop has met the entries
    [done]: the heap [local_top], [local_files_count] and
    [local_other_bytes]. *)
Definition loop_state (dir_path : string) (done : list entry) : dir_state :=
  keep_files dir_path (mkDirState (new_dir_node dir_path) [] 0 0) (files_of done).

(** [laid_out d n], for the node [n] of the directory [d].  The loop met
    the entries [done] of the listing: all of them when there is no
    cancellation flag.  The children of [n] are, in this order: one node
    for each subdirectory among [done], in listing order, each laid out
    in the same way; then the file nodes [kept], which are the contents
    of the heap [local_top] after [done], sorted by size, largest first;
    then [ov], the overflow node that the counters after [done] give, if
    any.  The file and overflow nodes are missing only where the code
    returns before it appends them: the flag answered true on entering
    the directory, or the listing raised. *)
Inductive laid_out : dir -> Node -> Prop :=
| laid_out_listing entries raises n done rest subs kept ov :
    entries = done ++ rest ->
    (cancel_flag = None -> rest = []) ->
    Forall2 (fun x c => path c = entry_path os (path n) x.1 /\
                        is_dir c = true /\ laid_out x.2 c)
            (dirs_of done) subs ->
    kept = py.sort_desc (fun x : Z * string * string => x.1.1)
             (local_top (loop_state (path n) done)) ->
    Sorted (py.desc (fun x : Z * string * string => x.1.1)) kept ->
    ov = overflow_of (path n) (loop_state (path n) done) ->
    (ov = [] \/
     exists count bytes, 0 < count /\ 0 < bytes /\
       ov = [overflow_node (path n) count bytes]) ->
    (children n = subs ++ (file_node <$> kept) ++ ov \/
     (children n = subs /\
      ((cancel_flag <> None /\ done = []) \/ (rest = [] /\ raises = true)))) ->
    laid_out (Listing entries raises) n.

Lemma scan_dir_laid_out : forall d dir_path s,
  laid_out d (scan_dir dir_path d s).1.
Proof.
  induction d as [entries raises IH] using dir_tree_ind. intros dir_path s.
  destruct (scan_dir_node
              (fun nm d c => path c = entry_path os dir_path nm /\
                             is_dir c = true /\ laid_out d c)
              dir_path entries raises s)
    as (done & rest & subs & Hent & Hsubs & Hrest & Hn).
  { eapply Forall_impl; [exact IH|]. intros e He nm d Hc s0.
    destruct (scan_dir_path_is_dir (entry_path os dir_path nm) d s0).
    repeat split; try done. apply He. by eapply classify_subdir. }
  destruct Hn as [[-> Hstop]| ->].
  - eapply (laid_out_listing _ _ _ done rest subs); simpl;
      [exact Hent|exact Hrest|exact Hsubs|reflexivity|apply py.sort_desc_sorted
      |reflexivity|apply overflow_of_cases|].
    right. by split.
  - rewrite finish_dir_eq. simpl.
    eapply (laid_out_listing _ _ _ done rest subs); simpl;
      [exact Hent|exact Hrest|exact Hsubs|reflexivity|apply py.sort_desc_sorted
      |reflexivity|apply overflow_of_cases|].
    left. reflexivity.
Qed.

Lemma scan_roots_children : forall paths root s,
  exists done rest cs,
    paths = done ++ rest /\
    (cancel_flag = None -> rest = []) /\
    children (scan_roots paths root s).1 = children root ++ cs /\
    size (scan_roots paths root s).1 = size root + sum_sizes cs /\
    name (scan_roots paths root s).1 = name root /\
    path (scan_roots paths root s).1 = path root /\
    is_dir (scan_roots paths root s).1 = is_dir root /\
    Forall2 (fun p c => path c = p /\ is_dir c = true /\
                        laid_out (scandir os p) c /\
                        exists s0, c = (scan_dir p (scandir os p) s0).1) done cs.
Proof.
  induction paths as [|p paths IH]; intros root s.
  { exists [], [], []. simpl. rewrite app_nil_r.
    repeat split; first [constructor | unfold sum_sizes; simpl; lia]. }
  simpl. destruct (poll s) as [[] s1] eqn:Ep.
  { exists [], (p :: paths), []. simpl. rewrite app_nil_r.
    repeat split; first [constructor | unfold sum_sizes; simpl; lia | idtac].
    intros Hc. unfold poll in Ep. by rewrite Hc in Ep. }
  pose proof (scan_dir_laid_out (scandir os p) p s1) as Hl.
  destruct (scan_dir_path_is_dir p (scandir os p) s1) as [Hp Hd].
  assert (exists s0, (scan_dir p (scandir os p) s1).1 =
                     (scan_dir p (scandir os p) s0).1) as Hs by eauto.
  destruct (scan_dir p (scandir os p) s1) as [child s2]. simpl in *.
  destruct (IH (add_size (append_child root child) (size child)) s2)
    as (done & rest & cs & -> & Hr & Hch & Hsz & Hnm & Hpt & Hdr & Hcs).
  exists (p :: done), rest, (child :: cs). split; [done|]. split; [done|].
  split; [rewrite Hch; simpl; by rewrite <- app_assoc|].
  split; [rewrite Hsz, sum_sizes_cons; simpl; lia|].
  do 3 (split; [done|]). by constructor.
Qed.

(** C10. In the tree [scan_paths] returns, the children of the root are the
    directory nodes of the root paths scanned, in the order of the paths:
    of all the paths when there is no cancellation flag.  Every directory
    node is laid out: its children are exactly the nodes of the
    subdirectories met, in listing order, then the files that the heap of
    the directory retained, by size, largest first, then the overflow node
    if the counters give one; all the entries of the listing are met when
    there is no cancellation flag. *)
Theorem children_order paths r :
  scan_paths paths = Some r ->
  exists done rest,
    normalize_paths paths = done ++ rest /\
    (cancel_flag = None -> rest = []) /\
    Forall2 (fun p c => path c = p /\ is_dir c = true /\
                        laid_out (scandir os p) c)
            done (children (root r)).
Proof.
  intros H. apply scan_paths_Some in H as (name' & Hn & ->). simpl.
  unfold scan_run.
  destruct (scan_roots_children (normalize_paths paths)
              (mkNode name' (py.join ";" (normalize_paths paths)) true 0 [])
              initial_state)
    as (done & rest & cs & Hp & Hrest & Hch & _ & _ & _ & _ & Hcs).
  exists done, rest. split; [done|]. split; [done|]. rewrite Hch. simpl.
  eapply Forall2_impl; [exact Hcs|]. intros p c (? & ? & ? & _). auto.
Qed.

(* --------------------------------------------------------------------- *)
(** ** Roots that cannot be listed, and cancellation *)

Lemma scan_dir_unlistable dir_path s :
  (scan_dir dir_path (Listing [] true) s).1 = new_dir_node dir_path.
Proof. simpl. by destruct (poll s) as [[] s1]. Qed.

Lemma root_name_Some paths :
  paths <> [] -> exists name', root_name paths = Some name'.
Proof.
  intros H. unfold root_name. destruct (decide _); [eauto|].
  destruct paths; [done|eauto].
Qed.

Lemma root_name_None paths : root_name paths = None <-> paths = [].
Proof.
  split.
  - intros H. destruct paths; [done|].
    by destruct (root_name_Some (s :: paths)) as [? ?]; [|congruence].
  - by intros ->.
Qed.

(** C3, amended. [scan_paths] raises ([IndexError], at [paths[0]]) exactly
    when no path is left once the empty strings are dropped, before any
    traversal.  Otherwise it returns a [ScanResult]; a root path that cannot
    be listed, as one that does not exist, is not reported: where it was
    reached, its child of the root is a directory node of size 0 without
    children. *)
Theorem unlistable_root_not_reported paths :
  (scan_paths paths = None <-> normalize_paths paths = []) /\
  (forall r, scan_paths paths = Some r ->
     scanned_paths r = normalize_paths paths /\
     Forall (fun c => scandir os (path c) = Listing [] true ->
                      c = new_dir_node (path c))
            (children (root r))).
Proof.
  split.
  - unfold scan_paths. rewrite <- root_name_None.
    destruct (root_name (normalize_paths paths)); simpl; [|done].
    destruct (scan_run _ _). split; done.
  - intros r H. apply scan_paths_Some in H as (name' & Hn & ->). simpl.
    split; [done|]. unfold scan_run.
    destruct (scan_roots_children (normalize_paths paths)
                (mkNode name' (py.join ";" (normalize_paths paths)) true 0 [])
                initial_state)
      as (done & rest & cs & Hp & _ & Hch & _ & _ & _ & _ & Hcs).
    rewrite Hch. simpl. eapply Forall2_Forall_r; [exact Hcs|].
    apply Forall_forall. intros p _ c (Hpc & _ & _ & s0 & Hc) Hun.
    rewrite Hpc in *. rewrite Hc at 1. rewrite Hun. apply scan_dir_unlistable.
Qed.

(* --------------------------------------------------------------------- *)
(** ** The tree and the counters *)

(** The nodes of a tree: the node itself, then the nodes of the trees of
    its children. *)
Fixpoint all_nodes (n : Node) : list Node :=
  match n with mkNode _ _ _ _ cs => n :: flat_map all_nodes cs end.

(** The number of directory nodes among them. *)
Definition dir_nodes (ns : list Node) : Z :=
  Z.of_nat (length (filter (fun n => is_dir n = true) (flat_map all_nodes ns))).

Lemma all_nodes_eq n : all_nodes n = n :: flat_map all_nodes (children n).
Proof. by destruct n. Qed.

Lemma dir_nodes_app a b : dir_nodes (a ++ b) = dir_nodes a + dir_nodes b.
Proof.
  unfold dir_nodes. rewrite flat_map_app, filter_app, length_app. lia.
Qed.

Lemma dir_nodes_one n :
  dir_nodes [n] = (if is_dir n then 1 else 0) + dir_nodes (children n).
Proof.
  unfold dir_nodes. simpl. rewrite app_nil_r, all_nodes_eq, filter_cons.
  destruct (is_dir n); simpl; [|done]. lia.
Qed.

Lemma dir_nodes_leaves (ns : list Node) :
  Forall (fun n => is_dir n = false /\ children n = []) ns -> dir_nodes ns = 0.
Proof.
  induction 1 as [|n ns [Hd Hc] _ IH]; [done|].
  change (n :: ns) with ([n] ++ ns).
  rewrite dir_nodes_app, dir_nodes_one, Hd, Hc, IH. done.
Qed.

Lemma poll_counters s :
  s_bytes_scanned (poll s).2 = s_bytes_scanned s /\ s_dirs (poll s).2 = s_dirs s /\
  s_visited (poll s).2 = s_visited s.
Proof. unfold poll. by destruct cancel_flag. Qed.

Lemma count_file_counters s sz nm pth :
  s_bytes_scanned (count_file s sz nm pth) = s_bytes_scanned s + sz /\
  s_dirs (count_file s sz nm pth) = s_dirs s /\
  s_visited (count_file s sz nm pth) = s_visited s ++ [(sz, pth, nm)].
Proof. unfold count_file. by destruct (default _ _). Qed.

(** [accounted n s s']: the node [n] built while the state went from [s]
    to [s'] has the size of the bytes counted meanwhile, and its tree has
    one directory node more than the directories counted meanwhile. *)
Definition accounted (n : Node) (s s' : scan_state) : Prop :=
  size n = s_bytes_scanned s' - s_bytes_scanned s /\
  dir_nodes [n] = 1 + (s_dirs s' - s_dirs s).

Lemma scan_entries_accounted scan_sub dir_path : forall entries,
  Forall (fun e => forall d, subdir e = Some d ->
            forall p s, accounted (scan_sub p d s).1 s (scan_sub p d s).2) entries ->
  forall l s l' broke s',
  scan_entries scan_sub dir_path entries l s = (l', broke, s') ->
  size (node l') - size (node l) = s_bytes_scanned s' - s_bytes_scanned s /\
  dir_nodes (children (node l')) - dir_nodes (children (node l)) =
    s_dirs s' - s_dirs s /\
  is_dir (node l') = is_dir (node l).
Proof.
  induction entries as [|e entries IH]; intros Hsub l s l' broke s' Hrun.
  { simpl in Hrun. injection Hrun as <- <- <-. repeat split; first [done | lia]. }
  apply Forall_cons in Hsub as [He Hsub].
  rewrite scan_entries_cons in Hrun.
  destruct (poll_counters s) as (Hpb & Hpd & _).
  destruct (poll s) as [[] s1]; simpl in Hpb, Hpd.
  { injection Hrun as <- <- <-. repeat split; first [done | lia]. }
  destruct (classify e) as [|sz nm|nm d] eqn:Ec.
  - destruct (IH Hsub _ _ _ _ _ Hrun) as (H1 & H2 & H3). repeat split; first [done | congruence | lia].
  - destruct (IH Hsub _ _ _ _ _ Hrun) as (H1 & H2 & H3).
    rewrite keep_file_node in H1, H2, H3.
    destruct (count_file_counters s1 sz nm (entry_path os dir_path nm))
      as (Hb & Hd & _).
    rewrite Hb, Hd in *. simpl in *. repeat split; first [done | congruence | lia].
  - destruct (He d (classify_subdir _ _ _ Ec) (entry_path os dir_path nm)
                (count_dir s1)) as [Hc1 Hc2].
    destruct (scan_sub _ d _) as [child s2]. simpl in Hc1, Hc2.
    destruct (IH Hsub _ _ _ _ _ Hrun) as (H1 & H2 & H3).
    simpl in H1, H2, H3. rewrite dir_nodes_app in H2. repeat split; first [done | congruence | lia].
Qed.

Lemma finish_dir_accounted dir_path l :
  size (finish_dir dir_path l) = size (node l) /\
  is_dir (finish_dir dir_path l) = is_dir (node l) /\
  dir_nodes (children (finish_dir dir_path l)) = dir_nodes (children (node l)).
Proof.
  rewrite finish_dir_eq. simpl. split; [done|]. split; [done|].
  rewrite !dir_nodes_app.
  rewrite (dir_nodes_leaves (file_node <$> _)) by (apply Forall_fmap, Forall_forall; done).
  rewrite (dir_nodes_leaves (overflow_of _ _)); [lia|].
  destruct (overflow_of_cases dir_path l) as [->|(c & b & _ & _ & ->)];
    by repeat constructor.
Qed.

Lemma scan_dir_accounted : forall d dir_path s,
  accounted (scan_dir dir_path d s).1 s (scan_dir dir_path d s).2.
Proof.
  induction d as [entries raises IH] using dir_tree_ind. intros dir_path s.
  simpl. destruct (poll_counters s) as (Hpb & Hpd & _).
  destruct (poll s) as [[] s1]; simpl in Hpb, Hpd.
  { unfold accounted. rewrite dir_nodes_one. simpl. split; [lia|].
    unfold dir_nodes. simpl. lia. }
  destruct (scan_entries scan_dir dir_path entries _ s1) as [[l broke] s2] eqn:Erun.
  destruct (scan_entries_accounted scan_dir dir_path entries IH _ _ _ _ _ Erun)
    as (H1 & H2 & H3).
  simpl in H1, H2, H3. change (dir_nodes []) with 0 in H2.
  destruct (finish_dir_accounted dir_path l) as (F1 & F2 & F3).
  unfold accounted.
  destruct (negb broke && raises); simpl; rewrite dir_nodes_one.
  - rewrite H3. lia.
  - rewrite F1, F2, F3, H3. lia.
Qed.

Lemma scan_roots_accounted : forall paths root s,
  size (scan_roots paths root s).1 - size root =
    s_bytes_scanned (scan_roots paths root s).2 - s_bytes_scanned s /\
  dir_nodes (children (scan_roots paths root s).1) - dir_nodes (children root) =
    Z.of_nat (length (children (scan_roots paths root s).1))
    - Z.of_nat (length (children root))
    + (s_dirs (scan_roots paths root s).2 - s_dirs s) /\
  is_dir (scan_roots paths root s).1 = is_dir root.
Proof.
  induction paths as [|p paths IH]; intros root s; [simpl; repeat split; first [done | lia]|].
  simpl. destruct (poll_counters s) as (Hpb & Hpd & _).
  destruct (poll s) as [[] s1]; simpl in Hpb, Hpd; [simpl; repeat split; first [done | lia]|].
  destruct (scan_dir_accounted (scandir os p) p s1) as [Hc1 Hc2].
  destruct (scan_dir p _ s1) as [child s2]. simpl in Hc1, Hc2.
  destruct (IH (add_size (append_child root child) (size child)) s2)
    as (H1 & H2 & H3).
  simpl in H1, H2, H3. rewrite dir_nodes_app, length_app in H2. simpl in H2.
  repeat split; first [done | congruence | lia].
Qed.

(** Whatever was cancelled and whatever listing failed: the size of the
    root is [bytes_scanned], and the tree has one directory node for the
    root, one for each root path scanned, and one for each directory
    counted in [dirs]. *)
Theorem root_size_and_directories paths r :
  scan_paths paths = Some r ->
  size (root r) = bytes_scanned r /\
  size (root r) = sum_sizes (children (root r)) /\
  dir_nodes [root r] = 1 + Z.of_nat (length (children (root r))) + dirs r.
Proof.
  intros H. apply scan_paths_Some in H as (name' & Hn & ->). simpl.
  unfold scan_run.
  set (root0 := mkNode name' (py.join ";" (normalize_paths paths)) true 0 []).
  destruct (scan_roots_accounted (normalize_paths paths) root0 initial_state)
    as (H1 & H2 & H3).
  destruct (scan_roots_children (normalize_paths paths) root0 initial_state)
    as (done & rest & cs & _ & _ & Hch & Hsz & _).
  simpl in *. split; [lia|]. split; [by rewrite Hsz, Hch|].
  rewrite dir_nodes_one, H3. change (dir_nodes []) with 0 in H2. lia.
Qed.

(* --------------------------------------------------------------------- *)
(** ** No child outweighs its parent *)

(** [weighed n]: in the tree of [n] no size is negative, and the sizes of
    the children of a node sum to its size at most. *)
Definition weighed (n : Node) : Prop :=
  Forall (fun m => 0 <= sum_sizes (children m) <= size m) (all_nodes n).

Lemma sum_sizes_nonneg (ns : list Node) :
  Forall (fun n => 0 <= size n) ns -> 0 <= sum_sizes ns.
Proof.
  induction 1 as [|n ns Hn _ IH]; [done|]. rewrite sum_sizes_cons. lia.
Qed.

Lemma sum_fst_nonneg' {B} (xs : list (Z * B)) :
  Forall (fun x => 0 <= x.1) xs -> 0 <= sum_fst xs.
Proof.
  induction 1 as [|x xs Hx _ IH]; [done|]. rewrite sum_fst_cons. lia.
Qed.

Lemma weighed_intro n :
  0 <= sum_sizes (children n) <= size n ->
  Forall weighed (children n) -> weighed n.
Proof.
  intros Hs Hc. unfold weighed. rewrite all_nodes_eq.
  constructor; [done|]. clear Hs.
  induction Hc as [|c cs Hc _ IH]; simpl; [constructor|].
  apply Forall_app. split; [exact Hc|exact IH].
Qed.

Lemma weighed_size n : weighed n -> 0 <= size n.
Proof.
  unfold weighed. rewrite all_nodes_eq. intros [? _]%Forall_cons. lia.
Qed.

Lemma weighed_leaf n : 0 <= size n -> children n = [] -> weighed n.
Proof.
  intros H0 Hc. apply weighed_intro; rewrite Hc; [done|constructor].
Qed.

(** The heap and the overflow bytes never hold more than the files fed. *)
Lemma keep_file_budget l sz nm pth :
  0 <= sz ->
  Forall (fun x : Z * string * string => 0 <= x.1.1) (local_top l) ->
  0 <= local_other_bytes l ->
  Forall (fun x : Z * string * string => 0 <= x.1.1)
         (local_top (keep_file l sz nm pth)) /\
  0 <= local_other_bytes (keep_file l sz nm pth) /\
  sum_fst (fst <$> local_top (keep_file l sz nm pth))
    + local_other_bytes (keep_file l sz nm pth)
  <= sum_fst (fst <$> local_top l) + local_other_bytes l + sz.
Proof.
  intros Hsz Htop Hoth. unfold keep_file.
  destruct (top_files_per_dir >? 0);
    [|cbn [local_top local_other_bytes]; repeat split; first [done | lia]].
  destruct (_ <? _).
  { cbn [local_top local_other_bytes].
    pose proof (heapq.heappush_perm py.lt3 (local_top l) (sz, nm, pth)) as Hp.
    split; [by rewrite Hp; constructor|]. split; [done|].
    rewrite (sum_fst_perm _ _ (fmap_Permutation fst _ _ Hp)).
    rewrite fmap_cons, sum_fst_cons. simpl. lia. }
  destruct (local_top l) as [|top t] eqn:E.
  { cbn. repeat split; first [done | lia]. }
  change ((top :: t) !! 0%nat) with (Some top). cbv iota beta.
  apply Forall_cons in Htop as [Ht0 Ht].
  destruct (sz >? top.1.1); cbn [local_top local_other_bytes].
  - pose proof (heapq.heapreplace_perm py.lt3 top t (sz, nm, pth)) as Hp.
    split; [by rewrite Hp; constructor|]. split; [done|].
    rewrite (sum_fst_perm _ _ (fmap_Permutation fst _ _ Hp)).
    rewrite !fmap_cons, !sum_fst_cons. simpl. lia.
  - split; [by constructor|]. split; [lia|]. rewrite !fmap_cons, !sum_fst_cons. lia.
Qed.

Lemma keep_files_budget dir_path fs :
  Forall (fun x : Z * string => 0 <= x.1) fs ->
  let l := keep_files dir_path (mkDirState (new_dir_node dir_path) [] 0 0) fs in
  Forall (fun x : Z * string * string => 0 <= x.1.1) (local_top l) /\
  0 <= local_other_bytes l /\
  sum_fst (fst <$> local_top l) + local_other_bytes l <= sum_fst fs.
Proof.
  induction fs as [|x fs IH] using rev_ind; intros Hfs; simpl.
  { repeat split; first [done | constructor]. }
  apply Forall_app in Hfs as [Hfs [Hx _]%Forall_cons].
  destruct (IH Hfs) as (H1 & H2 & H3).
  rewrite keep_files_snoc, sum_fst_app.
  destruct (keep_file_budget _ x.1 x.2 (entry_path os dir_path x.2) Hx H1 H2)
    as (K1 & K2 & K3).
  split; [done|]. split; [done|]. unfold sum_fst at 3. simpl. lia.
Qed.

Lemma scan_dir_weighed : forall d dir_path s, weighed (scan_dir dir_path d s).1.
Proof.
  induction d as [entries raises IH] using dir_tree_ind. intros dir_path s.
  destruct (scan_dir_node (fun _ _ c => weighed c) dir_path entries raises s)
    as (done & rest & subs & Hent & Hsubs & _ & Hn).
  { eapply Forall_impl; [exact IH|]. intros e He nm d Hc s0.
    apply He. by eapply classify_subdir. }
  assert (Forall weighed subs) as Hw.
  { eapply Forall2_Forall_r; [exact Hsubs|]. by apply Forall_forall. }
  assert (0 <= sum_sizes subs) as Hs0.
  { apply sum_sizes_nonneg. eapply Forall_impl; [exact Hw|]. apply weighed_size. }
  pose proof (sum_fst_nonneg' _ (files_of_nonneg done)) as Hf0.
  destruct Hn as [[-> _]| ->].
  - apply weighed_intro; simpl; [lia|done].
  - rewrite finish_dir_eq. simpl.
    destruct (keep_files_budget dir_path (files_of done) (files_of_nonneg done))
      as (K1 & K2 & K3).
    set (l := keep_files dir_path _ (files_of done)) in *.
    set (top := py.sort_desc _ (local_top l)).
    set (ov := overflow_of dir_path _).
    assert (top ≡ₚ local_top l) as Hperm by apply py.sort_desc_perm.
    assert (0 <= sum_sizes ov <= local_other_bytes l /\
            Forall (fun c => 0 <= size c /\ children c = []) ov) as [Hov Hovl].
    { unfold ov, overflow_of. cbn [local_top local_files_count local_other_bytes].
      destruct (_ && _); unfold sum_sizes; simpl; [|split; [lia|constructor]].
      split; [lia|]. repeat constructor. simpl. lia. }
    assert (0 <= sum_fst (fst <$> local_top l)) as Ht0.
    { apply sum_fst_nonneg'. apply Forall_fmap.
      eapply Forall_impl; [exact K1|]. done. }
    apply weighed_intro; cbn [children size].
    + rewrite !sum_sizes_app, sum_sizes_file_nodes.
      rewrite (sum_fst_perm _ _ (fmap_Permutation fst _ _ Hperm)). lia.
    + apply Forall_app. split; [done|]. apply Forall_app. split.
      * apply Forall_fmap, Forall_forall. intros x Hx.
        apply weighed_leaf; [|done]. simpl.
        rewrite Forall_forall in K1. apply K1. by rewrite <- Hperm.
      * eapply Forall_impl; [exact Hovl|]. intros c [? ?].
        by apply weighed_leaf.
Qed.

(** In the tree [scan_paths] returns, whatever was cancelled and whatever
    listing failed, no size is negative and the sizes of the children of a
    node never sum to more than the size of the node. *)
Theorem children_never_outweigh paths r :
  scan_paths paths = Some r ->
  Forall (fun n => 0 <= sum_sizes (children n) <= size n) (all_nodes (root r)).
Proof.
  intros H. apply scan_paths_Some in H as (name' & Hn & ->). simpl.
  unfold scan_run.
  set (root0 := mkNode name' (py.join ";" (normalize_paths paths)) true 0 []).
  destruct (scan_roots_children (normalize_paths paths) root0 initial_state)
    as (done & rest & cs & _ & _ & Hch & Hsz & _ & _ & _ & Hcs).
  simpl in Hch, Hsz.
  assert (Forall weighed cs) as Hw.
  { eapply Forall2_Forall_r; [exact Hcs|]. apply Forall_forall.
    intros p _ c (_ & _ & _ & s0 & ->). apply scan_dir_weighed. }
  assert (weighed (scan_roots (normalize_paths paths) root0 initial_state).1) as Hr.
  { assert (0 <= sum_sizes cs).
    { apply sum_sizes_nonneg. eapply Forall_impl; [exact Hw|]. apply weighed_size. }
    apply weighed_intro; rewrite Hch, ?Hsz; [lia|done]. }
  exact Hr.
Qed.

(* --------------------------------------------------------------------- *)
(** ** The files and directories of a tree *)

(** The files under a directory that a scan is to count, in the order of
    the listings and each subdirectory in the place of its entry, as
    [(size, path, name)]; and the number of directories under it.  An entry
    counts when [is_symlink()] and [stat()] answer and it is not a
    symbolic link that is not followed. *)
Section tree.
Variable sub_files : string -> dir -> list (Z * string * string).
Variable sub_dirs : dir -> Z.

Fixpoint entries_files (dir_path : string) (entries : list entry)
    : list (Z * string * string) :=
  match entries with
  | [] => []
  | Entry nm symlink st :: entries' =>
      match symlink with
      | None => entries_files dir_path entries'
      | Some sl =>
          if sl && negb follow_symlinks then entries_files dir_path entries'
          else
            match st with
            | StatError => entries_files dir_path entries'
            | StatDir d' =>
                sub_files (entry_path os dir_path nm) d'
                  ++ entries_files dir_path entries'
            | StatFile st_size =>
                (Z.of_N st_size, entry_path os dir_path nm, nm)
                  :: entries_files dir_path entries'
            end
      end
  end.

Fixpoint entries_dirs (entries : list entry) : Z :=
  match entries with
  | [] => 0
  | Entry nm symlink st :: entries' =>
      match symlink with
      | None => entries_dirs entries'
      | Some sl =>
          if sl && negb follow_symlinks then entries_dirs entries'
          else
            match st with
            | StatDir d' => 1 + sub_dirs d' + entries_dirs entries'
            | _ => entries_dirs entries'
            end
      end
  end.
End tree.

Fixpoint tree_files (dir_path : string) (d : dir) {struct d}
    : list (Z * string * string) :=
  match d with
  | Listing entries _ => entries_files tree_files dir_path entries
  end.

Fixpoint tree_dirs (d : dir) : Z :=
  match d with
  | Listing entries _ => entries_dirs tree_dirs entries
  end.

Lemma entries_files_cons sub_files dir_path e entries :
  entries_files sub_files dir_path (e :: entries) =
  match classify e with
  | Skip => entries_files sub_files dir_path entries
  | IsFile sz nm =>
      (sz, entry_path os dir_path nm, nm) :: entries_files sub_files dir_path entries
  | IsDir nm d =>
      sub_files (entry_path os dir_path nm) d
        ++ entries_files sub_files dir_path entries
  end.
Proof.
  destruct e as [nm [sl|] st]; simpl; [|done].
  destruct (sl && negb follow_symlinks); [done|]. by destruct st.
Qed.

Lemma entries_dirs_cons sub_dirs e entries :
  entries_dirs sub_dirs (e :: entries) =
  match classify e with
  | IsDir nm d => 1 + sub_dirs d + entries_dirs sub_dirs entries
  | _ => entries_dirs sub_dirs entries
  end.
Proof.
  destruct e as [nm [sl|] st]; simpl; [|done].
  destruct (sl && negb follow_symlinks); [done|]. by destruct st.
Qed.

(** Whether a cancellation was already answered: [cancel_flag] returned
    true at one of the calls made so far. *)
Definition tripped (s : scan_state) : bool :=
  match cancel_flag with
  | None => false
  | Some f => existsb f (seq 0 (s_polls s))
  end.

(** A flag that stays set once it is set, as [CancelFlag] of [app.py]. *)
Definition stays_set : Prop :=
  forall f, cancel_flag = Some f ->
  forall i j, (i <= j)%nat -> f i = true -> f j = true.

Lemma poll_tripped s :
  stays_set ->
  tripped (poll s).2 = (poll s).1 /\
  (tripped s = true -> (poll s).1 = true).
Proof.
  intros Hm. unfold tripped, poll. destruct cancel_flag as [f|] eqn:Ef; [|done].
  cbn [fst snd s_polls]. rewrite seq_S, existsb_app. simpl. rewrite orb_false_r.
  destruct (existsb f (seq 0 (s_polls s))) eqn:E.
  - apply existsb_exists in E as (i & Hi & Hfi). apply in_seq in Hi.
    rewrite (Hm f Ef i (s_polls s)) by (done || lia). done.
  - done.
Qed.

Lemma count_tripped s sz nm pth :
  tripped (count_file s sz nm pth) = tripped s /\ tripped (count_dir s) = tripped s.
Proof. unfold tripped, count_file, count_dir. by destruct (default _ _). Qed.

(** [ran fs dirs s s']: from [s] to [s'] the scan counted a prefix of the
    files [fs], all of them if it was not cancelled meanwhile, none if it
    was cancelled before; and then it counted [dirs] directories. *)
Definition ran (fs : list (Z * string * string)) (ds : Z)
    (s s' : scan_state) : Prop :=
  exists vs,
    s_visited s' = s_visited s ++ vs /\ vs `prefix_of` fs /\
    (tripped s = true -> tripped s' = true /\ vs = []) /\
    (tripped s' = false -> vs = fs /\ s_dirs s' = s_dirs s + ds).

Lemma ran_nil s : ran [] 0 s s.
Proof.
  exists []. rewrite app_nil_r. repeat split; try done. lia.
Qed.

Lemma ran_poll_stop fs ds s :
  stays_set -> (poll s).1 = true -> ran fs ds s (poll s).2.
Proof.
  intros Hm Hp. destruct (poll_tripped s Hm) as [Ht _]. rewrite Hp in Ht.
  destruct (poll_counters s) as (_ & _ & Hv).
  exists []. rewrite app_nil_r. split; [done|]. split; [apply prefix_nil|].
  split; [done|]. congruence.
Qed.

Lemma ran_app fs1 ds1 fs2 ds2 s0 s1 s2 :
  ran fs1 ds1 s0 s1 -> ran fs2 ds2 s1 s2 -> ran (fs1 ++ fs2) (ds1 + ds2) s0 s2.
Proof.
  intros (v1 & Hv1 & Hp1 & Ht1 & Hf1) (v2 & Hv2 & Hp2 & Ht2 & Hf2).
  exists (v1 ++ v2). split; [by rewrite Hv2, Hv1, app_assoc|].
  destruct (tripped s1) eqn:E1.
  - destruct (Ht2 eq_refl) as [E2 ->]. rewrite app_nil_r.
    split; [by apply prefix_app_r|]. split.
    + intros H0. destruct (Ht1 H0) as [_ ->]. done.
    + congruence.
  - destruct (Hf1 eq_refl) as [-> Hd1]. split; [by apply prefix_app|]. split.
    + intros H0. destruct (Ht1 H0) as [? _]. congruence.
    + intros H2. destruct (Hf2 H2) as [-> Hd2]. split; [done|lia].
Qed.

Lemma ran_step x ds fs ds' s0 s1 s2 :
  tripped s1 = false ->
  s_visited s1 = s_visited s0 ++ x -> s_dirs s1 = s_dirs s0 + ds ->
  (tripped s0 = true -> tripped s1 = true) ->
  ran fs ds' s1 s2 -> ran (x ++ fs) (ds + ds') s0 s2.
Proof.
  intros H1 Hv Hd H01 Hr.
  apply (ran_app x ds fs ds' s0 s1 s2); [|done].
  exists x. split; [done|]. split; [done|]. split; [|done].
  intros H0. specialize (H01 H0). congruence.
Qed.

Lemma scan_entries_ran scan_sub sub_files sub_dirs dir_path :
  stays_set ->
  forall entries,
  Forall (fun e => forall d, subdir e = Some d ->
            forall p s, ran (sub_files p d) (sub_dirs d) s (scan_sub p d s).2)
         entries ->
  forall l s,
    ran (entries_files sub_files dir_path entries) (entries_dirs sub_dirs entries)
        s (scan_entries scan_sub dir_path entries l s).2.
Proof.
  intros Hm. induction entries as [|e entries IH]; intros Hsub l s.
  { apply ran_nil. }
  apply Forall_cons in Hsub as [He Hsub].
  rewrite scan_entries_cons, entries_files_cons, entries_dirs_cons.
  destruct (poll_tripped s Hm) as [Ht Hts].
  destruct (poll_counters s) as (_ & Hpd & Hpv).
  pose proof (ran_poll_stop (match classify e with
                             | Skip => entries_files sub_files dir_path entries
                             | IsFile sz nm =>
                                 (sz, entry_path os dir_path nm, nm)
                                   :: entries_files sub_files dir_path entries
                             | IsDir nm d =>
                                 sub_files (entry_path os dir_path nm) d
                                   ++ entries_files sub_files dir_path entries
                             end)
                (match classify e with
                 | IsDir nm d => 1 + sub_dirs d + entries_dirs sub_dirs entries
                 | _ => entries_dirs sub_dirs entries
                 end) s Hm) as Hstop.
  destruct (poll s) as [[] s1]; simpl in Ht, Hts, Hpd, Hpv, Hstop; [by apply Hstop|].
  clear Hstop.
  assert (tripped s = true -> tripped s1 = true) as H01 by (intros H; by apply Hts in H).
  destruct (classify e) as [|sz nm|nm d] eqn:Ec.
  - apply (ran_step [] 0 _ _ s s1);
      [congruence|by rewrite app_nil_r|lia|done|by apply IH].
  - destruct (count_file_counters s1 sz nm (entry_path os dir_path nm))
      as (_ & Hd & Hv).
    destruct (count_tripped s1 sz nm (entry_path os dir_path nm)) as [Hc _].
    apply (ran_step [(sz, entry_path os dir_path nm, nm)] 0 _ _ s
             (count_file s1 sz nm (entry_path os dir_path nm))).
    + congruence.
    + by rewrite Hv, Hpv.
    + lia.
    + intros H. rewrite Hc. auto.
    + by apply IH.
  - pose proof (He d (classify_subdir _ _ _ Ec) (entry_path os dir_path nm)
                  (count_dir s1)) as Hc.
    destruct (count_tripped s1 0 "" "") as [_ Hcd].
    destruct (scan_sub _ d _) as [child s2]. simpl in Hc.
    replace (1 + sub_dirs d + entries_dirs sub_dirs entries)
      with (1 + (sub_dirs d + entries_dirs sub_dirs entries)) by lia.
    apply (ran_step [] 1 _ _ s (count_dir s1)).
    + congruence.
    + rewrite app_nil_r. exact Hpv.
    + simpl. lia.
    + intros H. rewrite Hcd. auto.
    + eapply ran_app; [exact Hc|]. by apply IH.
Qed.

Lemma scan_dir_ran :
  stays_set ->
  forall d dir_path s,
    ran (tree_files dir_path d) (tree_dirs d) s (scan_dir dir_path d s).2.
Proof.
  intros Hm. induction d as [entries raises IH] using dir_tree_ind.
  intros dir_path s. simpl.
  destruct (poll_tripped s Hm) as [Ht Hts].
  destruct (poll_counters s) as (_ & Hpd & Hpv).
  pose proof (ran_poll_stop (entries_files tree_files dir_path entries)
                (entries_dirs tree_dirs entries) s Hm) as Hstop.
  destruct (poll s) as [[] s1]; simpl in Ht, Hts, Hpd, Hpv, Hstop; [by apply Hstop|].
  pose proof (scan_entries_ran scan_dir tree_files tree_dirs dir_path Hm entries IH
                (mkDirState (new_dir_node dir_path) [] 0 0) s1) as Hr.
  destruct (scan_entries _ _ _ _ _) as [[l broke] s2]. simpl in Hr.
  assert (ran (entries_files tree_files dir_path entries)
              (entries_dirs tree_dirs entries) s s2) as Hrun.
  { apply (ran_step [] 0 _ _ s s1);
      [congruence|by rewrite app_nil_r|lia| |exact Hr].
    intros H. by apply Hts in H. }
  by destruct (negb broke && raises).
Qed.

(** The files and the directories under the root paths. *)
Definition roots_files (paths : list string) : list (Z * string * string) :=
  flat_map (fun p => tree_files p (scandir os p)) paths.
Definition roots_dirs (paths : list string) : Z :=
  foldr Z.add 0 ((fun p => tree_dirs (scandir os p)) <$> paths).

Lemma scan_roots_ran :
  stays_set ->
  forall paths root s,
    ran (roots_files paths) (roots_dirs paths) s (scan_roots paths root s).2.
Proof.
  intros Hm. induction paths as [|p paths IH]; intros root s.
  { apply ran_nil. }
  simpl.
  destruct (poll_tripped s Hm) as [Ht Hts].
  destruct (poll_counters s) as (_ & Hpd & Hpv).
  pose proof (ran_poll_stop (roots_files (p :: paths)) (roots_dirs (p :: paths))
                s Hm) as Hstop.
  destruct (poll s) as [[] s1]; simpl in Ht, Hts, Hpd, Hpv, Hstop; [by apply Hstop|].
  pose proof (scan_dir_ran Hm (scandir os p) p s1) as Hc.
  destruct (scan_dir p _ s1) as [child s2]. simpl in Hc.
  change (roots_files (p :: paths))
    with ([] ++ (tree_files p (scandir os p) ++ roots_files paths)).
  change (roots_dirs (p :: paths))
    with (tree_dirs (scandir os p) + roots_dirs paths).
  replace (tree_dirs (scandir os p) + roots_dirs paths)
    with (0 + (tree_dirs (scandir os p) + roots_dirs paths)) by lia.
  apply (ran_step [] 0 _ _ s s1);
    [congruence|by rewrite app_nil_r|lia| |].
  - intros H. by apply Hts in H.
  - eapply ran_app; [exact Hc|]. apply IH.
Qed.

Lemma tree_files_nonneg : forall d dir_path,
  Forall (fun x : Z * string * string => 0 <= x.1.1) (tree_files dir_path d).
Proof.
  induction d as [entries raises IH] using dir_tree_ind. intros dir_path. simpl.
  induction entries as [|e entries IHe]; [constructor|].
  apply Forall_cons in IH as [He IH]. rewrite entries_files_cons.
  destruct (classify e) as [|sz nm|nm d] eqn:Ec.
  - by apply IHe.
  - constructor; [|by apply IHe]. simpl.
    destruct e as [nm' [sl|] st]; simpl in Ec; [|done].
    destruct (sl && negb follow_symlinks); [done|].
    destruct st; try done. injection Ec as <- <-. lia.
  - apply Forall_app. split; [|by apply IHe].
    apply He. by eapply classify_subdir.
Qed.

Lemma roots_files_nonneg paths :
  Forall (fun x : Z * string * string => 0 <= x.1.1) (roots_files paths).
Proof.
  induction paths as [|p paths IH]; [constructor|].
  apply Forall_app. split; [apply tree_files_nonneg|done].
Qed.

Lemma tripped_initial : tripped initial_state = false.
Proof. unfold tripped. by destruct cancel_flag. Qed.

Lemma tripped_None s : cancel_flag = None -> tripped s = false.
Proof. unfold tripped. by intros ->. Qed.

(** Without a cancellation flag, a scan counts every file and every
    directory under the root paths, each once, in the order of the listings:
    [files], [bytes_scanned] and [dirs] are their number, their total size
    and the number of directories.  The entries a listing yields before it
    raises are counted as well. *)
Theorem full_scan_counts_tree paths r :
  cancel_flag = None ->
  scan_paths paths = Some r ->
  visited paths = roots_files (normalize_paths paths) /\
  files r = Z.of_nat (length (roots_files (normalize_paths paths))) /\
  bytes_scanned r = sum_fst (fst <$> roots_files (normalize_paths paths)) /\
  dirs r = roots_dirs (normalize_paths paths).
Proof.
  intros Hc H. apply scan_paths_Some in H as (name' & Hn & ->).
  unfold visited. rewrite Hn. simpl. unfold scan_run.
  set (root0 := mkNode name' (py.join ";" (normalize_paths paths)) true 0 []).
  destruct (scan_roots_state_ok (normalize_paths paths) root0)
    as (Hf & Hb & _).
  assert (stays_set) as Hm by (intros f Hf'; congruence).
  destruct (scan_roots_ran Hm (normalize_paths paths) root0 initial_state)
    as (vs & Hv & _ & _ & Hfull).
  destruct (Hfull (tripped_None _ Hc)) as [-> Hd].
  simpl in Hv, Hd. rewrite Hf, Hb, Hv. split; [done|]. split; [done|].
  split; [done|]. rewrite Hd. lia.
Qed.

(** With a cancellation flag that stays set once it is set, the files a
    scan counts are the first of the files under the root paths, in their
    order: [files] and [bytes_scanned] are the number and the total size of
    a prefix of them. *)
Theorem cancelled_scan_counts_prefix paths r :
  stays_set ->
  scan_paths paths = Some r ->
  visited paths `prefix_of` roots_files (normalize_paths paths) /\
  files r = Z.of_nat (length (visited paths)) /\
  bytes_scanned r = sum_fst (fst <$> visited paths) /\
  files r <= Z.of_nat (length (roots_files (normalize_paths paths))) /\
  bytes_scanned r <= sum_fst (fst <$> roots_files (normalize_paths paths)).
Proof.
  intros Hm H. apply scan_paths_Some in H as (name' & Hn & ->).
  unfold visited. rewrite Hn. simpl. unfold scan_run.
  set (root0 := mkNode name' (py.join ";" (normalize_paths paths)) true 0 []).
  destruct (scan_roots_state_ok (normalize_paths paths) root0)
    as (Hf & Hb & _).
  destruct (scan_roots_ran Hm (normalize_paths paths) root0 initial_state)
    as (vs & Hv & [rest Hp] & _ & _).
  simpl in Hv. rewrite Hf, Hb, Hv. split; [by exists rest|].
  split; [done|]. split; [done|].
  pose proof (roots_files_nonneg (normalize_paths paths)) as Hnn.
  rewrite Hp in Hnn |- *. apply Forall_app in Hnn as [_ Hnn].
  rewrite fmap_app, length_app, sum_fst_app.
  assert (0 <= sum_fst (fst <$> rest)).
  { apply sum_fst_nonneg'. by apply Forall_fmap. }
  lia.
Qed.

(* --------------------------------------------------------------------- *)
(** ** Entries that leave no trace *)

(** A tree without the entries a scan skips: those for which
    [is_symlink()] or [stat()] raises, and the symbolic links that are not
    followed. *)
Section prune.
Variable prune_sub : dir -> dir.

Fixpoint prune_entries (entries : list entry) : list entry :=
  match entries with
  | [] => []
  | Entry nm symlink st :: entries' =>
      match symlink with
      | None => prune_entries entries'
      | Some sl =>
          if sl && negb follow_symlinks then prune_entries entries'
          else
            match st with
            | StatError => prune_entries entries'
            | StatDir d' =>
                Entry nm symlink (StatDir (prune_sub d')) :: prune_entries entries'
            | StatFile _ => Entry nm symlink st :: prune_entries entries'
            end
      end
  end.
End prune.

Fixpoint prune (d : dir) : dir :=
  match d with
  | Listing entries raises => Listing (prune_entries prune entries) raises
  end.

Lemma scan_entries_prune scan_sub prune_sub dir_path :
  cancel_flag = None ->
  forall entries,
  Forall (fun e => forall d, subdir e = Some d ->
            forall p s, scan_sub p (prune_sub d) s = scan_sub p d s) entries ->
  forall l s,
    scan_entries scan_sub dir_path (prune_entries prune_sub entries) l s =
    scan_entries scan_sub dir_path entries l s.
Proof.
  intros Hc. induction entries as [|e entries IH]; intros Hsub l s; [done|].
  apply Forall_cons in Hsub as [He Hsub].
  assert (poll s = (false, s)) as Hp by (unfold poll; by rewrite Hc).
  destruct e as [nm [sl|] st]; simpl; rewrite ?Hp.
  - destruct (sl && negb follow_symlinks) eqn:Esl; [by apply IH|].
    destruct st as [|sz|d]; simpl; rewrite ?Hp, ?Esl.
    + by apply IH.
    + by apply IH.
    + rewrite (He d eq_refl). destruct (scan_sub _ d _) as [child s2].
      by apply IH.
  - by apply IH.
Qed.

Lemma scan_dir_prune :
  cancel_flag = None ->
  forall d dir_path s, scan_dir dir_path (prune d) s = scan_dir dir_path d s.
Proof.
  intros Hc. induction d as [entries raises IH] using dir_tree_ind.
  intros dir_path s. simpl.
  destruct (poll s) as [[] s1]; [done|].
  by rewrite (scan_entries_prune scan_dir prune dir_path Hc entries IH).
Qed.

End scanner.

(* ===================================================================== *)
(** * Part VIII. Cancellation *)

(** The platform [os] with another file system. *)
Definition with_scandir (os : Platform) (fs : string -> dir) : Platform :=
  mkPlatform (abspath os) (basename os) (splitext os) (os_sep os)
             (entry_path os) (lower os) fs.

(** C4, amended. With at least one root path: when the cancellation
    predicate answers true at its first call, [scan_paths] returns an
    ordinary [ScanResult] whose root has no children and size 0, with zero
    counters, an empty histogram and no top files; and a result carries no
    sign of cancellation: a scan of one root cancelled on entering the root
    directory returns the very [ScanResult] that an uncancelled scan returns
    when the root is an empty directory. *)
Theorem cancelled_scan_returns_result os follow_symlinks top_files_per_dir
    global_top_files paths (f : nat -> bool) :
  normalize_paths os paths <> [] ->
  (f 0%nat = true ->
   exists name',
     scan_paths os (Some f) follow_symlinks top_files_per_dir global_top_files paths =
     Some (mkScanResult
             (mkNode name' (py.join ";" (normalize_paths os paths)) true 0 [])
             ∅ [] (normalize_paths os paths) 0 0 0)) /\
  (f 0%nat = false -> f 1%nat = true -> length (normalize_paths os paths) = 1%nat ->
   scan_paths os (Some f) follow_symlinks top_files_per_dir global_top_files paths =
   scan_paths (with_scandir os (fun _ => Listing [] false)) None
              follow_symlinks top_files_per_dir global_top_files paths).
Proof.
  intros Hne. destruct (root_name_Some os _ Hne) as [name' Hn]. split.
  - intros Hf. exists name'. unfold scan_paths. rewrite Hn. simpl.
    unfold scan_run. destruct (normalize_paths os paths) as [|p ps]; [done|].
    simpl. by rewrite Hf.
  - intros Hf0 Hf1 Hlen. unfold scan_paths.
    change (normalize_paths (with_scandir os _) paths)
      with (normalize_paths os paths).
    change (root_name (with_scandir os (fun _ => Listing [] false)))
      with (root_name os).
    rewrite Hn. simpl. unfold scan_run.
    destruct (normalize_paths os paths) as [|p [|q ps]]; try done.
    unfold scan_roots, poll, initial_state. cbn [s_polls]. rewrite Hf0.
    destruct (scandir os p) as [entries raises].
    unfold scan_dir, poll. cbn [s_polls]. rewrite Hf1. reflexivity.
Qed.

Lemma scan_roots_prune os follow_symlinks top_files_per_dir global_top_files :
  forall paths root s,
  scan_roots (with_scandir os (fun p => prune follow_symlinks (scandir os p)))
             None follow_symlinks top_files_per_dir global_top_files paths root s =
  scan_roots os None follow_symlinks top_files_per_dir global_top_files paths root s.
Proof.
  induction paths as [|p paths IH]; intros root s; [done|].
  simpl.
  change (scan_dir (with_scandir os _) None follow_symlinks top_files_per_dir
            global_top_files p (prune follow_symlinks (scandir os p)) s)
    with (scan_dir os None follow_symlinks top_files_per_dir
            global_top_files p (prune follow_symlinks (scandir os p)) s).
  rewrite scan_dir_prune by done.
  destruct (scan_dir os None _ _ _ p _ s) as [child s2]. apply IH.
Qed.

(** Without a cancellation flag, the entries that a scan skips leave no
    trace: [scan_paths] returns the same [ScanResult] on a file system and
    on the file system from which the entries whose [is_symlink()] or
    [stat()] raises were removed and, unless links are followed, the
    symbolic links as well. *)
Theorem skipped_entries_leave_no_trace os follow_symlinks top_files_per_dir
    global_top_files paths :
  scan_paths (with_scandir os (fun p => prune follow_symlinks (scandir os p)))
             None follow_symlinks top_files_per_dir global_top_files paths =
  scan_paths os None follow_symlinks top_files_per_dir global_top_files paths.
Proof.
  unfold scan_paths.
  change (normalize_paths (with_scandir os _) paths)
    with (normalize_paths os paths).
  change (root_name (with_scandir os (fun p => prune follow_symlinks (scandir os p))))
    with (root_name os).
  destruct (root_name os (normalize_paths os paths)) as [name'|]; [|done].
  simpl. unfold scan_run. by rewrite scan_roots_prune.
Qed.

(* ===================================================================== *)
(** * Part IX. The scan engine on concrete trees *)

Fixpoint size_conserved (n : Node) : bool :=
  match n with
  | mkNode _ _ d sz ch =>
      negb d || ((sz =? foldr Z.add 0 (size <$> ch)) && forallb size_conserved ch)
  end.

(** A child made by [overflow_node]: a file node with the path of its
    parent directory. *)
Definition is_overflow (parent c : Node) : bool :=
  negb (is_dir c) && String.eqb (path c) (path parent).

(** C1, on the code. A directory [/data] that lists 81 regular files of
    sizes 1, 2, ..., 81 in this order, scanned with the default limits: the
    node of [/data] has size 3321 and 80 children of total size 3320, none
    of them an overflow node; sizes are not conserved.  The file of size 1
    was displaced from the full heap by [heapreplace] and its size was not
    added to [local_other_bytes]. *)
Theorem size_lost_on_displacement :
  (fun r => (size_conserved (root r),
             (fun d => (size d, sum_sizes (children d), length (children d),
                        length (filter (fun c => is_overflow d c) (children d))))
               <$> children (root r)))
    <$> scan_paths (posix.platform (fun _ => files_dir (ascending 1 81)))
          None false DEFAULT_TOP_FILES_PER_DIR DEFAULT_GLOBAL_TOP_FILES ["/data"]
  = Some (false, [(3321, 3320, 80%nat, 0%nat)]).
Proof. vm_compute. reflexivity. Qed.

(** A second way in which sizes are lost: when iterating the listing
    raises after a file was counted, line 113 returns the node with the
    size of the file and without a child for it. *)
Lemma size_lost_on_listing_error :
  (fun r => (size_conserved (root r),
             (fun d => (size d, length (children d))) <$> children (root r)))
    <$> scan_paths (posix.platform (fun _ => Listing [plain_file 5] true))
          None false DEFAULT_TOP_FILES_PER_DIR DEFAULT_GLOBAL_TOP_FILES ["/data"]
  = Some (false, [(5, 0%nat)]).
Proof. vm_compute. reflexivity. Qed.



(** C3, as stated, fails: a root path that does not exist, so that
    [os.scandir] raises, is scanned like an empty directory and a
    [ScanResult] is returned. *)
Lemma nonexistent_root_gives_result :
  let os := posix.platform (fun _ => Listing [] true) in
  scandir os "/nonexistent" = Listing [] true /\
  scan_paths os None false DEFAULT_TOP_FILES_PER_DIR DEFAULT_GLOBAL_TOP_FILES
             ["/nonexistent"] =
  Some (mkScanResult
          (mkNode "nonexistent" "/nonexistent" true 0
                  [mkNode "nonexistent" "/nonexistent" true 0 []])
          ∅ [] ["/nonexistent"] 0 0 0).
Proof. split; vm_compute; reflexivity. Qed.

(** The amended C3 on a root that does not exist, given with an empty
    string that is dropped. *)
Lemma unlistable_root_witness :
  let os := posix.platform (fun _ => Listing [] true) in
  exists r,
    scan_paths os None false 80 400 ["/nonexistent"; ""] = Some r /\
    scanned_paths r = ["/nonexistent"] /\
    Forall (fun c => scandir os (path c) = Listing [] true ->
                     c = new_dir_node os (path c)) (children (root r)).
Proof.
  intros os.
  destruct (scan_paths os None false 80 400 ["/nonexistent"; ""]) as [r|] eqn:E;
    [|vm_compute in E; discriminate].
  exists r. split; [reflexivity|].
  exact (proj2 (unlistable_root_not_reported os None false 80 400
                  ["/nonexistent"; ""]) r E).
Defined.

(** C4, as stated, fails: with a cancellation predicate that is true from
    the start, [scan_paths] returns a [ScanResult] with an empty tree. *)
Lemma cancelled_scan_gives_result :
  scan_paths (posix.platform (fun _ => files_dir [1; 2; 3]%N))
             (Some (fun _ => true)) false
             DEFAULT_TOP_FILES_PER_DIR DEFAULT_GLOBAL_TOP_FILES ["/data"] =
  Some (mkScanResult (mkNode "data" "/data" true 0 []) ∅ [] ["/data"] 0 0 0).
Proof. vm_compute. reflexivity. Qed.

(** The amended C4 on one root: cancelled from the start, and cancelled on
    entering the root. *)
Lemma cancelled_scan_witness :
  let os := posix.platform (fun _ => files_dir [1; 2; 3]%N) in
  (exists name',
     scan_paths os (Some (fun _ => true)) false 80 400 ["/data"] =
     Some (mkScanResult (mkNode name' "/data" true 0 []) ∅ [] ["/data"] 0 0 0)) /\
  scan_paths os (Some (fun k => Nat.leb 1 k)) false 80 400 ["/data"] =
  scan_paths (with_scandir os (fun _ => Listing [] false)) None false 80 400 ["/data"].
Proof.
  intros os. split.
  - apply (cancelled_scan_returns_result os false 80 400 ["/data"] (fun _ => true));
      [vm_compute; discriminate|reflexivity].
  - apply (cancelled_scan_returns_result os false 80 400 ["/data"]
             (fun k => Nat.leb 1 k));
      [vm_compute; discriminate|reflexivity|reflexivity|reflexivity].
Defined.

(** A small tree: two files, a subdirectory with two files and a symbolic
    link, and an entry whose [stat] fails. *)
Definition sample_tree : dir :=
  Listing
    [Entry "a.txt" (Some false) (StatFile 5);
     Entry "sub" (Some false)
       (StatDir (Listing [Entry "b.TXT" (Some false) (StatFile 7);
                          Entry "c" (Some false) (StatFile 1);
                          Entry "link" (Some true) (StatFile 9)] false));
     Entry "gone" (Some false) StatError;
     Entry "d.txt" (Some false) (StatFile 3)]
    false.

Definition sample_os : Platform := posix.platform (fun _ => sample_tree).

(** C8 on the small tree: four files, sixteen bytes, three of them with
    the key [.txt]. *)
Lemma ext_stats_totals_witness :
  exists r,
    scan_paths sample_os None false 2 2 ["/data"] = Some r /\
    ext_bytes (ext_stats r) = bytes_scanned r /\
    ext_count (ext_stats r) = files r /\
    files r = 4 /\ bytes_scanned r = 16 /\
    ext_stats r !! ".txt" = Some (15, 3) /\
    ext_stats r !! "<без расширения>" = Some (1, 1).
Proof.
  destruct (scan_paths sample_os None false 2 2 ["/data"]) as [r|] eqn:E;
    [|vm_compute in E; discriminate].
  exists r. split; [reflexivity|].
  destruct (ext_stats_totals sample_os None false 2 2 ["/data"] r E)
    as (H1 & H2 & H3 & H4 & H5 & _).
  split; [exact H1|]. split; [exact H2|]. split; [exact H3|]. split; [exact H4|].
  split; rewrite H5; vm_compute; reflexivity.
Defined.

(** C9 on the small tree with a global cap of two. *)
Lemma top_files_largest_witness :
  exists r,
    scan_paths sample_os None false 2 2 ["/data"] = Some r /\
    top_files r = [(7, "/data/sub/b.TXT"); (5, "/data/a.txt")] /\
    length (top_files r) = Z.to_nat (Z.min 2 (files r)) /\
    Sorted (py.desc fst) (top_files r).
Proof.
  destruct (scan_paths sample_os None false 2 2 ["/data"]) as [r|] eqn:E;
    [|vm_compute in E; discriminate].
  exists r. split; [reflexivity|].
  destruct (top_files_largest sample_os None false 2 2 ["/data"] r E)
    as (H1 & H2 & H3 & _).
  split; [rewrite H1; vm_compute; reflexivity|]. split; [exact H2|exact H3].
Defined.

(** C10 on the small tree, one file kept in each directory: under the
    root path come the subdirectory, the larger of the two files and the
    overflow node for the other. *)
Lemma children_order_witness :
  exists r,
    scan_paths sample_os None false 1 2 ["/data"] = Some r /\
    (exists done rest,
       normalize_paths sample_os ["/data"] = done ++ rest /\
       (@None (nat -> bool) = None -> rest = []) /\
       Forall2 (fun p c => path c = p /\ is_dir c = true /\
                           laid_out sample_os None false 1 (scandir sample_os p) c)
               done (children (root r))) /\
    (fun c => (name c, size c)) <$> concat (children <$> children (root r)) =
      [("sub", 8); ("a.txt", 5); ("… другие файлы (1)", 3)].
Proof.
  destruct (scan_paths sample_os None false 1 2 ["/data"]) as [r|] eqn:E;
    [|vm_compute in E; discriminate].
  exists r. split; [reflexivity|]. split.
  - exact (children_order sample_os None false 1 2 ["/data"] r E).
  - vm_compute in E. injection E as <-. reflexivity.
Defined.

(** A cancellation flag set between its fourth and its fifth call. *)
Definition set_after_four : nat -> bool := fun k => (4 <=? k)%nat.

(** On the small tree, cancelled at the fifth call of the flag: the root
    has the size of the bytes counted, and the tree one directory node for
    the root, one for the root path and one for [sub]. *)
Lemma root_size_and_directories_witness :
  exists r,
    scan_paths sample_os (Some set_after_four) false 2 2 ["/data"] = Some r /\
    size (root r) = bytes_scanned r /\
    size (root r) = sum_sizes (children (root r)) /\
    dir_nodes [root r] = 1 + Z.of_nat (length (children (root r))) + dirs r.
Proof.
  destruct (scan_paths sample_os (Some set_after_four) false 2 2 ["/data"])
    as [r|] eqn:E; [|vm_compute in E; discriminate].
  exists r. split; [reflexivity|].
  exact (root_size_and_directories sample_os (Some set_after_four) false 2 2
           ["/data"] r E).
Defined.

(** On the small tree with one file kept for each directory. *)
Lemma children_never_outweigh_witness :
  exists r,
    scan_paths sample_os None false 1 2 ["/data"] = Some r /\
    Forall (fun n => 0 <= sum_sizes (children n) <= size n) (all_nodes (root r)).
Proof.
  destruct (scan_paths sample_os None false 1 2 ["/data"])
    as [r|] eqn:E; [|vm_compute in E; discriminate].
  exists r. split; [reflexivity|].
  exact (children_never_outweigh sample_os None false 1 2 ["/data"] r E).
Defined.

(** On the small tree: four files of sixteen bytes, one directory; the
    link and the entry whose [stat] fails are not counted. *)
Lemma full_scan_counts_tree_witness :
  exists r,
    scan_paths sample_os None false 2 2 ["/data"] = Some r /\
    visited sample_os None false 2 2 ["/data"] =
      [(5, "/data/a.txt", "a.txt"); (7, "/data/sub/b.TXT", "b.TXT");
       (1, "/data/sub/c", "c"); (3, "/data/d.txt", "d.txt")] /\
    files r = 4 /\ bytes_scanned r = 16 /\ dirs r = 1.
Proof.
  destruct (scan_paths sample_os None false 2 2 ["/data"])
    as [r|] eqn:E; [|vm_compute in E; discriminate].
  exists r. split; [reflexivity|].
  destruct (full_scan_counts_tree sample_os None false 2 2 ["/data"] r
              eq_refl E) as (H1 & H2 & H3 & H4).
  split; [rewrite H1; vm_compute; reflexivity|].
  split; [rewrite H2; vm_compute; reflexivity|].
  split; [rewrite H3; vm_compute; reflexivity|].
  rewrite H4; vm_compute; reflexivity.
Defined.

(** On the small tree, cancelled at the fifth call of the flag, on
    entering [sub]: the first file is counted. *)
Lemma cancelled_scan_counts_prefix_witness :
  stays_set (Some set_after_four) /\
  exists r,
    scan_paths sample_os (Some set_after_four) false 2 2 ["/data"] = Some r /\
    visited sample_os (Some set_after_four) false 2 2 ["/data"]
      `prefix_of` roots_files sample_os false ["/data"] /\
    files r = 1 /\ bytes_scanned r = 5.
Proof.
  assert (stays_set (Some set_after_four)) as Hm.
  { intros f [= <-] i j Hij Hi. unfold set_after_four in *.
    apply Nat.leb_le. apply Nat.leb_le in Hi. lia. }
  split; [exact Hm|].
  destruct (scan_paths sample_os (Some set_after_four) false 2 2 ["/data"])
    as [r|] eqn:E; [|vm_compute in E; discriminate].
  exists r. split; [reflexivity|].
  destruct (cancelled_scan_counts_prefix sample_os (Some set_after_four) false
              2 2 ["/data"] r Hm E) as (H1 & H2 & H3 & _).
  split; [exact H1|].
  split; [rewrite H2; vm_compute; reflexivity|].
  rewrite H3; vm_compute; reflexivity.
Defined.

(* ===================================================================== *)
(** * Part X. [treemap.py]

    Python floats are modelled by exact rationals: sums, products and
    quotients are not rounded, nothing overflows or underflows.  Division
    by zero raises [ZeroDivisionError], as it does on Python floats. *)

Module treemap.
Local Open Scope Q_scope.

(** What a call does: return a value, raise [ZeroDivisionError], or, for the
    [while] loop run on fuel, run out of it. *)
Inductive result (A : Type) : Type :=
| Ok (a : A)
| ZeroDivisionError
| OutOfFuel.
Arguments Ok {A} a.
Arguments ZeroDivisionError {A}.
Arguments OutOfFuel {A}.

Definition bind {A B} (r : result A) (k : A -> result B) : result B :=
  match r with
  | Ok a => k a
  | ZeroDivisionError => ZeroDivisionError
  | OutOfFuel => OutOfFuel
  end.

(** [a / b] *)
Definition div (a b : Q) : result Q :=
  if Qeq_bool b 0 then ZeroDivisionError else Ok (a / b).

(** [a > b], [a >= b] *)
Definition gtb (a b : Q) : bool := negb (Qle_bool a b).
Definition geb (a b : Q) : bool := Qle_bool b a.

(** A float or [float("inf")]. *)
Inductive ext : Type :=
| Fin (q : Q)
| Inf.

Definition ext_gtb (a b : ext) : bool :=
  match a, b with
  | Fin p, Fin q => gtb p q
  | Inf, Fin _ => true
  | _, Inf => false
  end.

Record Rect : Type := mkRect { x : Q; y : Q; w : Q; h : Q }.

(** [sum(l)], [max(l)] and [min(l)] of a list of floats ([max] and [min] of
    an empty list are not called). *)
Definition sum (l : list Q) : Q := foldl Qplus 0 l.
Definition maximum (l : list Q) : Q :=
  match l with [] => 0 | a :: l' => foldl Qmax a l' end.
Definition minimum (l : list Q) : Q :=
  match l with [] => 0 | a :: l' => foldl Qmin a l' end.

Definition _normalize_sizes (nodes : list Node) (area : Q) : list Q :=
  let total := foldl Z.add 0%Z ((fun n => Z.max 0 (size n)) <$> nodes) in
  let total := if (total =? 0)%Z then 1%Z else total in
  (fun n => inject_Z (Z.max 0 (size n)) * area / inject_Z total) <$> nodes.

Definition _worst (row : list Q) (w : Q) : result ext :=
  match row with
  | [] => Ok Inf
  | _ =>
      let s := sum row in
      let rmax := maximum row in
      let rmin := minimum row in
      let w2 := w * w in
      bind (div (w2 * rmax) (s * s)) (fun r1 =>
      bind (div (s * s) (w2 * rmin)) (fun r2 =>
      Ok (Fin (Qmax r1 r2))))
  end.

Definition _layout_row (row : list Q) (rect : Rect) (horizontal : bool)
    : list Rect * Rect :=
  let s := sum row in
  if horizontal then
    let h' := if gtb (w rect) 0 then s / w rect else 0 in
    let '(out, _) :=
      foldl (fun '(out, x') a =>
               let w' := if gtb h' 0 then a / h' else 0 in
               (out ++ [mkRect x' (y rect) w' h'], x' + w'))
            ([], x rect) row in
    (out, mkRect (x rect) (y rect + h') (w rect) (Qmax 0 (h rect - h')))
  else
    let w' := if gtb (h rect) 0 then s / h rect else 0 in
    let '(out, _) :=
      foldl (fun '(out, y') a =>
               let h' := if gtb w' 0 then a / w' else 0 in
               (out ++ [mkRect (x rect) y' w' h'], y' + h'))
            ([], y rect) row in
    (out, mkRect (x rect + w') (y rect) (Qmax 0 (w rect - w')) (h rect)).

(** The local variables of the [while] loop of [squarify]; [items] are the
    pairs [(areas[j], nodes[j])] for [j >= i]. *)
Record loop_state : Type := mkLoop {
  items : list (Q * Node);
  row : list Q;
  row_nodes : list Node;
  remaining : Rect;
  out : list (Rect * Node)
}.

(** Lines 255-259 and 266-269: lay the row out and append its pairs. *)
Definition flush (st : loop_state) : loop_state :=
  let horizontal := geb (w (remaining st)) (h (remaining st)) in
  let '(laid, remaining') := _layout_row (row st) (remaining st) horizontal in
  mkLoop (items st) [] [] remaining' (out st ++ zip laid (row_nodes st)).

(** [min(remaining.w, remaining.h) or 1.0] *)
Definition short_side (r : Rect) : Q :=
  let m := Qmin (w r) (h r) in if Qeq_bool m 0 then 1 else m.

(** One iteration of the loop body. *)
Definition iteration (st : loop_state) (a : Q) (n : Node)
    (rest : list (Q * Node)) : result loop_state :=
  let short := short_side (remaining st) in
  let new_row := row st ++ [a] in
  bind (match row st with
        | [] => Ok false
        | _ => bind (_worst new_row short) (fun wn =>
               bind (_worst (row st) short) (fun wo => Ok (ext_gtb wn wo)))
        end)
       (fun finalize =>
          if finalize : bool then Ok (flush st)
          else Ok (mkLoop rest new_row (row_nodes st ++ [n]) (remaining st) (out st))).

Fixpoint loop (fuel : nat) (st : loop_state) : result loop_state :=
  match items st with
  | [] => Ok st
  | (a, n) :: rest =>
      match fuel with
      | O => OutOfFuel
      | S fuel' => bind (iteration st a n rest) (loop fuel')
      end
  end.

Definition squarify (nodes : list Node) (x y w h : Q) : result (list (Rect * Node)) :=
  let nodes := filter (fun n => (size n > 0)%Z) nodes in
  let nodes := py.sort_desc size nodes in
  let rect := mkRect x y w h in
  let areas := _normalize_sizes nodes (w * h) in
  bind (loop (2 * length nodes) (mkLoop (zip areas nodes) [] [] rect []))
       (fun st =>
          match row st with
          | [] => Ok (out st)
          | _ => Ok (out (flush st))
          end).

(** [top_children_for_view]; [limit] is 450 by default. *)
Definition top_children_for_view (node : Node) (limit : Z) : list Node :=
  py.slice_to limit
    (py.sort_desc size (filter (fun n => (size n > 0)%Z) (children node))).

(* --------------------------------------------------------------------- *)
(** ** Arithmetic of the layout *)

Lemma gtb_true a b : gtb a b = true <-> b < a.
Proof.
  unfold gtb. rewrite negb_true_iff, <- not_true_iff_false, Qle_bool_iff.
  split; [apply Qnot_le_lt|apply Qlt_not_le].
Qed.

Lemma gtb_pos a : 0 < a -> gtb a 0 = true.
Proof. apply gtb_true. Qed.

Lemma geb_true a b : geb a b = true <-> b <= a.
Proof. apply Qle_bool_iff. Qed.

Lemma geb_false a b : geb a b = false -> a < b.
Proof.
  unfold geb. rewrite <- not_true_iff_false, Qle_bool_iff. apply Qnot_le_lt.
Qed.

Lemma div_nonzero a b : ~ b == 0 -> div a b = Ok (a / b).
Proof.
  intros Hb. unfold div. destruct (Qeq_bool b 0) eqn:E; [|done].
  by apply Qeq_bool_iff in E.
Qed.

Lemma sum_from (l : list Q) : forall a, foldl Qplus a l == a + sum l.
Proof.
  unfold sum. induction l as [|b l IH]; intros a; simpl; [lra|].
  rewrite (IH (a + b)), (IH (0 + b)). lra.
Qed.

Lemma sum_cons a l : sum (a :: l) == a + sum l.
Proof. unfold sum at 1. simpl. rewrite sum_from. lra. Qed.

Lemma sum_app l1 l2 : sum (l1 ++ l2) == sum l1 + sum l2.
Proof.
  induction l1 as [|a l1 IH]; simpl.
  - unfold sum at 2. simpl. lra.
  - rewrite !sum_cons, IH. lra.
Qed.

Lemma sum_pos l : l <> [] -> Forall (fun a => 0 < a) l -> 0 < sum l.
Proof.
  intros Hne Hl. induction Hl as [|a l Ha Hl IH]; [done|].
  rewrite sum_cons. destruct l as [|b l].
  - unfold sum. simpl. lra.
  - assert (0 < sum (b :: l)) by (by apply IH). lra.
Qed.

Lemma sum_nonneg l : Forall (fun a => 0 < a) l -> 0 <= sum l.
Proof.
  intros Hl. destruct l as [|a l]; [unfold sum; simpl; lra|].
  apply Qlt_le_weak, sum_pos; done.
Qed.

Lemma foldl_Qmin_pos l : forall a, 0 < a -> Forall (fun b => 0 < b) l ->
  0 < foldl Qmin a l.
Proof.
  induction l as [|b l IH]; intros a Ha Hl; simpl; [done|].
  apply Forall_cons in Hl as [Hb Hl]. apply IH; [|done].
  apply Q.min_glb_lt; done.
Qed.

Lemma minimum_pos l : l <> [] -> Forall (fun a => 0 < a) l -> 0 < minimum l.
Proof.
  intros Hne Hl. destruct l as [|a l]; [done|].
  apply Forall_cons in Hl as [Ha Hl]. by apply foldl_Qmin_pos.
Qed.

Lemma short_side_pos r : 0 <= w r -> 0 <= h r -> 0 < short_side r.
Proof.
  intros Hw Hh. unfold short_side.
  destruct (Qeq_bool (Qmin (w r) (h r)) 0) eqn:E; [lra|].
  assert (~ Qmin (w r) (h r) == 0) as Hne.
  { intros H. apply Qeq_bool_iff in H. congruence. }
  assert (0 <= Qmin (w r) (h r)) by (by apply Q.min_glb).
  apply Qle_lteq in H as [H|H]; [done|]. by symmetry in H.
Qed.

(** [_worst] does not raise on a row of positive areas against a positive
    side. *)
Lemma _worst_ok row' side :
  row' <> [] -> Forall (fun a => 0 < a) row' -> 0 < side ->
  exists q, _worst row' side = Ok (Fin q).
Proof.
  intros Hne Hpos Hside. unfold _worst. destruct row' as [|a l] eqn:E; [done|].
  rewrite <- E in *. clear E.
  pose proof (sum_pos _ Hne Hpos) as Hs.
  pose proof (minimum_pos _ Hne Hpos) as Hm.
  assert (0 < sum row' * sum row') by (by apply Qmult_lt_0_compat).
  assert (0 < side * side * minimum row')
    by (by repeat apply Qmult_lt_0_compat).
  rewrite div_nonzero by lra. simpl.
  rewrite div_nonzero by lra. simpl. eauto.
Qed.

Definition area (r : Rect) : Q := w r * h r.

Lemma layout_fold (mk : Q -> Q -> Rect) (len : Q -> Q) row' :
  forall out0 pos0,
  exists rects pos1,
    foldl (fun '(out, pos) a => (out ++ [mk pos (len a)], pos + len a))
          (out0, pos0) row' = (out0 ++ rects, pos1) /\
    Forall2 (fun a r => exists pos, r = mk pos (len a)) row' rects.
Proof.
  induction row' as [|a row' IH]; intros out0 pos0; simpl.
  - exists [], pos0. rewrite app_nil_r. split; [done|constructor].
  - destruct (IH (out0 ++ [mk pos0 (len a)]) (pos0 + len a))
      as (rects & pos1 & E & HF).
    exists (mk pos0 (len a) :: rects), pos1. rewrite E, <- app_assoc.
    split; [done|]. constructor; eauto.
Qed.

(** Whatever the direction, a row of total area at most that of the
    rectangle is laid out in rectangles of the areas of the row, and the
    rectangle that remains has the rest of the area. *)
Lemma _layout_row_spec row' rect horizontal :
  0 < w rect -> 0 < h rect -> 0 < sum row' -> sum row' <= area rect ->
  Forall2 (fun a r => area r == a) row' (_layout_row row' rect horizontal).1 /\
  0 <= w (_layout_row row' rect horizontal).2 /\
  0 <= h (_layout_row row' rect horizontal).2 /\
  area (_layout_row row' rect horizontal).2 == area rect - sum row'.
Proof.
  intros Hw Hh Hs Hle. unfold area in *. unfold _layout_row.
  destruct horizontal.
  - rewrite (gtb_pos _ Hw).
    assert (0 < sum row' / w rect) as Hh'.
    { apply Qlt_shift_div_l; [done|lra]. }
    rewrite (gtb_pos _ Hh').
    destruct (layout_fold (fun pos len => mkRect pos (y rect) len (sum row' / w rect))
                (fun a => a / (sum row' / w rect)) row' [] (x rect))
      as (rects & pos1 & E & HF).
    rewrite E. simpl.
    assert (sum row' / w rect <= h rect) as Hfit.
    { apply Qle_shift_div_r; [done|]. lra. }
    rewrite Q.max_r by lra.
    split; [|split; [lra|split; [lra|field; lra]]].
    eapply Forall2_impl; [exact HF|]. intros a r [pos ->]. simpl.
    field. split; lra.
  - rewrite (gtb_pos _ Hh).
    assert (0 < sum row' / h rect) as Hw'.
    { apply Qlt_shift_div_l; [done|lra]. }
    rewrite (gtb_pos _ Hw').
    destruct (layout_fold (fun pos len => mkRect (x rect) pos (sum row' / h rect) len)
                (fun a => a / (sum row' / h rect)) row' [] (y rect))
      as (rects & pos1 & E & HF).
    rewrite E. simpl.
    assert (sum row' / h rect <= w rect) as Hfit.
    { apply Qle_shift_div_r; [done|]. lra. }
    rewrite Q.max_r by lra.
    split; [|split; [lra|split; [lra|field; lra]]].
    eapply Forall2_impl; [exact HF|]. intros a r [pos ->]. simpl.
    field. split; lra.
Qed.

(* --------------------------------------------------------------------- *)
(** ** The loop of [squarify] *)

Section loop_invariant.
(** [target n] is the area due to the node [n]; [ns] are the nodes to lay
    out, in order. *)
Variable target : Node -> Q.
Variable ns : list Node.

Definition loop_inv (st : loop_state) : Prop :=
  Forall (fun p => 0 < p.1 /\ p.1 == target p.2) (items st) /\
  Forall2 (fun a n => 0 < a /\ a == target n) (row st) (row_nodes st) /\
  0 <= w (remaining st) /\ 0 <= h (remaining st) /\
  area (remaining st) == sum (row st) + sum (fst <$> items st) /\
  Forall (fun p => area p.1 == target p.2) (out st) /\
  (snd <$> out st) ++ row_nodes st ++ (snd <$> items st) = ns.

(** What is left to do: two steps for an item not yet in a row, one to lay
    out a row that is open. *)
Definition measure (st : loop_state) : nat :=
  (2 * length (items st) + match row st with [] => 0 | _ => 1 end)%nat.

Lemma zip_areas (row' : list Q) : forall (laid : list Rect) (nodes : list Node),
  Forall2 (fun a r => area r == a) row' laid ->
  Forall2 (fun a n => 0 < a /\ a == target n) row' nodes ->
  Forall (fun p => area p.1 == target p.2) (zip laid nodes) /\
  snd <$> zip laid nodes = nodes.
Proof.
  induction row' as [|a row' IH]; intros laid nodes Hl Hn.
  - apply Forall2_nil_inv_l in Hl as ->. apply Forall2_nil_inv_l in Hn as ->.
    split; [constructor|done].
  - apply Forall2_cons_inv_l in Hl as (r & laid' & Hr & Hl & ->).
    apply Forall2_cons_inv_l in Hn as (n & nodes' & [_ Hn] & Hns & ->).
    destruct (IH laid' nodes' Hl Hns) as [H1 H2]. split.
    + constructor; [simpl; by rewrite Hr|done].
    + simpl zip. rewrite fmap_cons, H2. done.
Qed.

Lemma positive_sides r : 0 <= w r -> 0 <= h r -> 0 < area r -> 0 < w r /\ 0 < h r.
Proof. unfold area. intros Hw Hh Ha. split; nra. Qed.

Lemma row_positive (row' : list Q) (nodes : list Node) :
  Forall2 (fun a n => 0 < a /\ a == target n) row' nodes ->
  Forall (fun a => 0 < a) row'.
Proof.
  intros H. eapply Forall2_Forall_l; [exact H|].
  apply Forall_forall. by intros n _ a [? _].
Qed.

Lemma items_sum_nonneg (its : list (Q * Node)) :
  Forall (fun p => 0 < p.1 /\ p.1 == target p.2) its -> 0 <= sum (fst <$> its).
Proof.
  intros H. apply sum_nonneg. apply Forall_fmap.
  eapply Forall_impl; [exact H|]. by intros p [? _].
Qed.

Lemma flush_inv st :
  row st <> [] -> loop_inv st ->
  loop_inv (flush st) /\ items (flush st) = items st /\ row (flush st) = [].
Proof.
  intros Hne (Hit & Hrow & Hw & Hh & Harea & Hout & Hns).
  pose proof (row_positive _ _ Hrow) as Hpos.
  pose proof (sum_pos _ Hne Hpos) as Hs.
  pose proof (items_sum_nonneg _ Hit) as Hi.
  destruct (positive_sides (remaining st) Hw Hh) as [Hw' Hh']; [lra|].
  unfold flush.
  pose proof (_layout_row_spec (row st) (remaining st)
                (geb (w (remaining st)) (h (remaining st))) Hw' Hh' Hs
                ltac:(lra)) as (Hlaid & Hrw & Hrh & Hra).
  destruct (_layout_row _ _ _) as [laid rem']. simpl in *.
  destruct (zip_areas _ _ _ Hlaid Hrow) as [Hz1 Hz2].
  split; [|done]. unfold loop_inv. simpl.
  split; [done|]. split; [constructor|]. split; [done|]. split; [done|].
  split; [unfold sum at 1; simpl; lra|]. split.
  - apply Forall_app. done.
  - rewrite fmap_app, Hz2, <- app_assoc. done.
Qed.

Lemma iteration_first st a n rest :
  row st = [] ->
  iteration st a n rest =
  Ok (mkLoop rest (row st ++ [a]) (row_nodes st ++ [n]) (remaining st) (out st)).
Proof. unfold iteration. by intros ->. Qed.

Lemma iteration_next st a n rest :
  row st <> [] ->
  iteration st a n rest =
  bind (_worst (row st ++ [a]) (short_side (remaining st))) (fun wn =>
  bind (_worst (row st) (short_side (remaining st))) (fun wo =>
  if ext_gtb wn wo then Ok (flush st)
  else Ok (mkLoop rest (row st ++ [a]) (row_nodes st ++ [n])
                  (remaining st) (out st)))).
Proof.
  unfold iteration. destruct (row st) as [|b l] eqn:E; [done|]. intros _.
  generalize (_worst ((b :: l) ++ [a]) (short_side (remaining st))).
  generalize (_worst (b :: l) (short_side (remaining st))).
  by intros [wo| |] [wn| |].
Qed.

Lemma iteration_inv st a n rest :
  items st = (a, n) :: rest -> loop_inv st ->
  exists st', iteration st a n rest = Ok st' /\ loop_inv st' /\
              (measure st' < measure st)%nat.
Proof.
  intros Hitems Hinv.
  pose proof Hinv as (Hit & Hrow & Hw & Hh & Harea & Hout & Hns).
  rewrite Hitems in Hit, Harea, Hns.
  apply Forall_cons in Hit as [[Ha Hta] Hit]. simpl in Ha, Hta.
  assert (Happend : loop_inv (mkLoop rest (row st ++ [a]) (row_nodes st ++ [n])
                               (remaining st) (out st))).
  { unfold loop_inv. simpl. split; [done|]. split.
    { apply Forall2_app; [done|]. by repeat constructor. }
    split; [done|]. split; [done|]. split.
    { rewrite Harea, sum_app. rewrite fmap_cons, sum_cons.
      unfold sum at 4. simpl. lra. }
    split; [done|]. rewrite <- Hns. simpl. by rewrite <- !app_assoc. }
  assert (Hm : (measure (mkLoop rest (row st ++ [a]) (row_nodes st ++ [n])
                           (remaining st) (out st)) < measure st)%nat).
  { unfold measure. rewrite Hitems. simpl.
    destruct (row st ++ [a]) eqn:E; [by destruct (row st)|].
    destruct (row st); lia. }
  destruct (decide (row st = [])) as [Erow|Hne].
  { rewrite iteration_first by done. eauto. }
  rewrite iteration_next by done.
  pose proof (row_positive _ _ Hrow) as Hpos.
  pose proof (short_side_pos _ Hw Hh) as Hshort.
  destruct (_worst_ok (row st ++ [a]) (short_side (remaining st))) as [q1 E1];
    [by destruct (row st)|apply Forall_app; split; [done|by constructor]|done|].
  destruct (_worst_ok (row st) (short_side (remaining st))) as [q2 E2];
    [done..|].
  rewrite E1. simpl. rewrite E2. simpl.
  destruct (gtb q1 q2).
  - exists (flush st). split; [done|].
    destruct (flush_inv st Hne Hinv) as (Hfi & Hfit & Hfrow).
    split; [done|]. unfold measure. rewrite Hfit, Hfrow.
    destruct (row st); [done|lia].
  - eexists. split; [reflexivity|]. done.
Qed.

Lemma loop_terminates fuel : forall st,
  loop_inv st -> (measure st <= fuel)%nat ->
  exists st', loop fuel st = Ok st' /\ loop_inv st' /\ items st' = [].
Proof.
  induction fuel as [|fuel IH]; intros st Hinv Hm.
  - unfold measure in Hm. destruct (items st) as [|p its] eqn:E; [|simpl in Hm; lia].
    exists st. simpl. rewrite E. done.
  - simpl. destruct (items st) as [|[a n] rest] eqn:E.
    { exists st. done. }
    destruct (iteration_inv st a n rest E Hinv) as (st1 & E1 & Hinv1 & Hm1).
    rewrite E1. simpl. apply IH; [done|lia].
Qed.

End loop_invariant.

(** The loop never runs out of the fuel [squarify] gives it, whatever the
    input. *)
Lemma iteration_measure st a n rest :
  items st = (a, n) :: rest ->
  match iteration st a n rest with
  | Ok st' => (measure st' < measure st)%nat
  | ZeroDivisionError => True
  | OutOfFuel => False
  end.
Proof.
  intros Hitems.
  assert (Hm : (measure (mkLoop rest (row st ++ [a]) (row_nodes st ++ [n])
                           (remaining st) (out st)) < measure st)%nat).
  { unfold measure. rewrite Hitems. simpl.
    destruct (row st ++ [a]) eqn:E; [by destruct (row st)|].
    destruct (row st); lia. }
  destruct (decide (row st = [])) as [Erow|Hne].
  { by rewrite iteration_first. }
  rewrite iteration_next by done.
  assert (Hw : forall l s, _worst l s <> OutOfFuel).
  { intros l s. unfold _worst, div. destruct l; [done|].
    repeat (destruct (Qeq_bool _ _); simpl; try done). }
  pose proof (Hw (row st ++ [a]) (short_side (remaining st))) as H1.
  pose proof (Hw (row st) (short_side (remaining st))) as H2.
  destruct (_worst (row st ++ [a]) _) as [wn| |]; simpl; try done.
  destruct (_worst (row st) _) as [wo| |]; simpl; try done.
  destruct (ext_gtb wn wo); [|done].
  unfold flush. destruct (_layout_row _ _ _) as [laid rem'].
  unfold measure. simpl. destruct (row st); [done|lia].
Qed.

Lemma loop_fuel fuel : forall st,
  (measure st <= fuel)%nat -> loop fuel st <> OutOfFuel.
Proof.
  induction fuel as [|fuel IH]; intros st Hm.
  - unfold measure in Hm. simpl.
    destruct (items st) as [|[a n] its]; [done|simpl in Hm; lia].
  - simpl. destruct (items st) as [|[a n] rest] eqn:E; [done|].
    pose proof (iteration_measure st a n rest E) as H.
    destruct (iteration st a n rest) as [st'| |]; simpl; [|done|done].
    apply IH. lia.
Qed.

Lemma squarify_fuel nodes x0 y0 w0 h0 : squarify nodes x0 y0 w0 h0 <> OutOfFuel.
Proof.
  unfold squarify.
  set (ns := py.sort_desc size _).
  pose proof (loop_fuel (2 * length ns)
                (mkLoop (zip (_normalize_sizes ns (w0 * h0)) ns) [] []
                        (mkRect x0 y0 w0 h0) [])) as H.
  destruct (loop _ _) as [st| |]; simpl.
  - by destruct (row st).
  - done.
  - intros _. apply H; [|done]. unfold measure, _normalize_sizes. simpl.
    rewrite length_zip_with, length_fmap. lia.
Qed.

(* --------------------------------------------------------------------- *)
(** ** Areas *)

Definition positive (nodes : list Node) : list Node :=
  filter (fun n => (size n > 0)%Z) nodes.

Lemma foldl_Zadd (l : list Z) : forall a, foldl Z.add a l = (a + foldr Z.add 0 l)%Z.
Proof.
  induction l as [|b l IH]; intros a; simpl; [lia|]. rewrite IH. lia.
Qed.

Lemma normalize_total (nodes : list Node) :
  Forall (fun n => (size n > 0)%Z) nodes ->
  foldl Z.add 0%Z ((fun n => Z.max 0 (size n)) <$> nodes) = sum_sizes nodes.
Proof.
  intros H. rewrite foldl_Zadd. unfold sum_sizes.
  rewrite Z.add_0_l. f_equal.
  induction H as [|n nodes Hn _ IH]; [done|].
  rewrite !fmap_cons, IH. f_equal. lia.
Qed.

Lemma normalize_sizes_eq (nodes : list Node) A :
  Forall (fun n => (size n > 0)%Z) nodes -> (0 < sum_sizes nodes)%Z ->
  _normalize_sizes nodes A =
  (fun n => inject_Z (Z.max 0 (size n)) * A / inject_Z (sum_sizes nodes)) <$> nodes.
Proof.
  intros H HS. unfold _normalize_sizes. rewrite normalize_total by done.
  destruct (Z.eqb_spec (sum_sizes nodes) 0); [lia|done].
Qed.

Lemma sum_scaled (f : Node -> Q) (nodes : list Node) (c : Q) :
  (forall n, n ∈ nodes -> f n == inject_Z (size n) * c) ->
  sum (f <$> nodes) == inject_Z (sum_sizes nodes) * c.
Proof.
  induction nodes as [|n nodes IH]; intros Hf.
  - change (inject_Z (sum_sizes [])) with 0. unfold sum. simpl. lra.
  - rewrite fmap_cons, sum_cons, sum_sizes_cons, inject_Z_plus.
    rewrite (Hf n) by (by left). rewrite IH; [lra|].
    intros m Hm. apply Hf. by right.
Qed.

Lemma zip_fmap_self {B} (f : Node -> B) (P : B * Node -> Prop) (nodes : list Node) :
  (forall n, n ∈ nodes -> P (f n, n)) -> Forall P (zip (f <$> nodes) nodes).
Proof.
  induction nodes as [|n nodes IH]; intros H; [constructor|].
  simpl. constructor; [apply H; by left|]. apply IH. intros m Hm. apply H. by right.
Qed.

Lemma inject_Z_pos z : (0 < z)%Z -> 0 < inject_Z z.
Proof. intros H. change 0 with (inject_Z 0). by rewrite <- Zlt_Qlt. Qed.

Lemma sort_desc_positive nodes :
  Forall (fun n => (size n > 0)%Z) (py.sort_desc size (positive nodes)).
Proof.
  rewrite py.sort_desc_perm. unfold positive. apply Forall_forall.
  intros n Hn. by apply list_elem_of_filter in Hn as [? _].
Qed.

(** The state in which [squarify] leaves its loop, for nodes of positive
    total size in a rectangle of positive sides. *)
Lemma squarify_loop nodes x0 y0 w0 h0 :
  0 < w0 -> 0 < h0 -> (0 < sum_sizes (positive nodes))%Z ->
  let ns := py.sort_desc size (positive nodes) in
  let target n := inject_Z (size n) * (w0 * h0) / inject_Z (sum_sizes (positive nodes)) in
  exists st,
    loop (2 * length ns)
         (mkLoop (zip (_normalize_sizes ns (w0 * h0)) ns) [] []
                 (mkRect x0 y0 w0 h0) []) = Ok st /\
    loop_inv target ns st /\ items st = [].
Proof.
  intros Hw Hh HS ns target.
  pose proof (sort_desc_positive nodes) as Hpos. fold ns in Hpos.
  assert (sum_sizes ns = sum_sizes (positive nodes)) as HSn
    by apply sum_sizes_perm, py.sort_desc_perm.
  rewrite normalize_sizes_eq by (done || lia). rewrite HSn.
  pose proof (inject_Z_pos _ HS) as HSq.
  assert (0 < w0 * h0) as HA by (by apply Qmult_lt_0_compat).
  apply loop_terminates.
  - unfold loop_inv. simpl. split.
    { apply zip_fmap_self. intros n Hn. simpl.
      assert (size n > 0)%Z as Hn' by (by eapply Forall_forall in Hpos).
      rewrite Z.max_r by lia. pose proof (inject_Z_pos (size n) ltac:(lia)).
      split; [|done]. apply Qlt_shift_div_l; [done|].
      rewrite Qmult_0_l. by apply Qmult_lt_0_compat. }
    split; [constructor|]. split; [lra|]. split; [lra|]. split.
    { unfold area. simpl. rewrite fst_zip by (by rewrite length_fmap).
      rewrite (sum_scaled _ ns (w0 * h0 / inject_Z (sum_sizes (positive nodes)))).
      - rewrite HSn. unfold sum at 1. simpl. field. lra.
      - intros n Hn.
        assert (size n > 0)%Z as Hn' by (by eapply Forall_forall in Hpos).
        rewrite Z.max_r by lia. field. lra. }
    split; [constructor|].
    by rewrite snd_zip by (by rewrite length_fmap).
  - unfold measure. simpl. rewrite length_zip_with, length_fmap. lia.
Qed.

(** C6. For children whose positive sizes sum to [S > 0] and a rectangle
    of width [w > 0] and height [h > 0], in exact arithmetic: [squarify]
    returns; the nodes of the pairs returned are the children of positive
    size, each once, in decreasing order of size, and the others have no
    pair; the area of each rectangle is [size / S * (w * h)]; and the areas
    sum to [w * h]. *)
Theorem squarify_areas nodes x0 y0 w0 h0 :
  0 < w0 -> 0 < h0 -> (0 < sum_sizes (positive nodes))%Z ->
  exists pairs,
    squarify nodes x0 y0 w0 h0 = Ok pairs /\
    snd <$> pairs = py.sort_desc size (positive nodes) /\
    snd <$> pairs ≡ₚ positive nodes /\
    Forall (fun p => area p.1 ==
                     inject_Z (size p.2) / inject_Z (sum_sizes (positive nodes))
                     * (w0 * h0)) pairs /\
    sum ((fun p => area p.1) <$> pairs) == w0 * h0.
Proof.
  intros Hw Hh HS.
  destruct (squarify_loop nodes x0 y0 w0 h0 Hw Hh HS) as (st & Hloop & Hinv & Hit).
  set (ns := py.sort_desc size (positive nodes)) in *.
  set (target := fun n => inject_Z (size n) * (w0 * h0)
                          / inject_Z (sum_sizes (positive nodes))) in *.
  pose proof (inject_Z_pos _ HS) as HSq.
  assert (Hfin : exists pairs,
            squarify nodes x0 y0 w0 h0 = Ok pairs /\
            snd <$> pairs = ns /\
            Forall (fun p => area p.1 == target p.2) pairs).
  { unfold squarify. fold (positive nodes). fold ns. rewrite Hloop. simpl.
    destruct (decide (row st = [])) as [E|Hne].
    - rewrite E. exists (out st). split; [done|].
      destruct Hinv as (_ & Hrow & _ & _ & _ & Hout & Hns).
      rewrite E in Hrow. apply Forall2_nil_inv_l in Hrow.
      rewrite Hrow, Hit in Hns. simpl in Hns. rewrite app_nil_r in Hns. done.
    - destruct (flush_inv target ns st Hne Hinv)
        as ((_ & Hrow & _ & _ & _ & Hout & Hns) & Hfit & Hfrow).
      exists (out (flush st)). split; [by destruct (row st)|].
      rewrite Hfrow in Hrow. apply Forall2_nil_inv_l in Hrow.
      rewrite Hrow, Hfit, Hit in Hns. simpl in Hns. rewrite app_nil_r in Hns.
      done. }
  destruct Hfin as (pairs & Hsq & Hnodes & Hareas).
  exists pairs. split; [done|]. split; [done|].
  split; [rewrite Hnodes; apply py.sort_desc_perm|]. split.
  - eapply Forall_impl; [exact Hareas|]. intros p Hp. rewrite Hp.
    unfold target. field. lra.
  - assert (sum ((fun p => area p.1) <$> pairs) == sum (target <$> (snd <$> pairs)))
      as ->.
    { clear Hsq Hnodes. induction Hareas as [|p pairs Hp _ IH]; [done|].
      rewrite !fmap_cons, !sum_cons, IH, Hp. done. }
    rewrite Hnodes.
    rewrite (sum_scaled _ ns (w0 * h0 / inject_Z (sum_sizes (positive nodes)))).
    + assert (sum_sizes ns = sum_sizes (positive nodes)) as ->
        by apply sum_sizes_perm, py.sort_desc_perm.
      field. lra.
    + intros n _. unfold target. field. lra.
Qed.

(* --------------------------------------------------------------------- *)
(** ** Degenerate input *)

Lemma positive_nil nodes :
  Forall (fun n => (size n <= 0)%Z) nodes -> positive nodes = [].
Proof.
  intros H. unfold positive. induction H as [|n nodes Hn _ IH]; [done|].
  rewrite filter_cons. destruct (decide (size n > 0)%Z); [lia|done].
Qed.

Lemma single_row_area a rect horizontal :
  exists r, (_layout_row [a] rect horizontal).1 = [r] /\
            (area r == a \/ area r == 0).
Proof.
  unfold _layout_row, area. destruct horizontal; simpl.
  - eexists. split; [reflexivity|]. simpl.
    set (h' := if gtb (w rect) 0 then sum [a] / w rect else 0).
    destruct (gtb h' 0) eqn:E; [|right; ring].
    left. apply gtb_true in E. field. lra.
  - eexists. split; [reflexivity|]. simpl.
    set (w' := if gtb (h rect) 0 then sum [a] / h rect else 0).
    destruct (gtb w' 0) eqn:E; [|right; ring].
    left. apply gtb_true in E. field. lra.
Qed.

(** C5, amended. For an empty list of children, or children whose sizes
    are all non-positive, [squarify] returns an empty list, whatever the
    rectangle; for a rectangle of area zero and exactly one child of
    positive size it returns one pair, whose rectangle has area zero. *)
Theorem squarify_degenerate nodes x0 y0 w0 h0 :
  (Forall (fun n => (size n <= 0)%Z) nodes ->
   squarify nodes x0 y0 w0 h0 = Ok []) /\
  (forall n, positive nodes = [n] -> w0 * h0 == 0 ->
   exists r, squarify nodes x0 y0 w0 h0 = Ok [(r, n)] /\ area r == 0).
Proof.
  split.
  - intros H. unfold squarify. fold (positive nodes).
    by rewrite (positive_nil _ H).
  - intros n Hn HA. unfold squarify. fold (positive nodes). rewrite Hn.
    simpl.
    set (a := inject_Z (Z.max 0 (size n)) * (w0 * h0) / _).
    unfold flush. simpl.
    destruct (single_row_area a (mkRect x0 y0 w0 h0) (geb w0 h0))
      as (r & Hr & Har).
    destruct (_layout_row [a] _ _) as [laid rem']. simpl in Hr. subst laid.
    exists r. split; [done|].
    destruct Har as [Har|Har]; [|done]. rewrite Har. unfold a.
    rewrite HA. unfold Qdiv. ring.
Qed.

(* --------------------------------------------------------------------- *)
(** ** Where the rectangles lie *)

(** [inside r R]: the rectangle [r] lies within [R]. [apart r1 r2]: the
    interiors of [r1] and [r2] do not meet. *)
Definition inside (r R : Rect) : Prop :=
  x R <= x r /\ y R <= y r /\
  x r + w r <= x R + w R /\ y r + h r <= y R + h R /\
  0 <= w r /\ 0 <= h r.

Definition apart (r1 r2 : Rect) : Prop :=
  x r1 + w r1 <= x r2 \/ x r2 + w r2 <= x r1 \/
  y r1 + h r1 <= y r2 \/ y r2 + h r2 <= y r1.

(** The rectangles of a row, laid one after the other from [pos]. *)
Fixpoint place (mk : Q -> Q -> Rect) (len : Q -> Q) (pos : Q) (row' : list Q)
    : list Rect :=
  match row' with
  | [] => []
  | a :: row'' => mk pos (len a) :: place mk len (pos + len a) row''
  end.

Lemma layout_fold_place (mk : Q -> Q -> Rect) (len : Q -> Q) row' :
  forall out0 pos0,
    (foldl (fun '(out, pos) a => (out ++ [mk pos (len a)], pos + len a))
           (out0, pos0) row').1 = out0 ++ place mk len pos0 row'.
Proof.
  induction row' as [|a row' IH]; intros out0 pos0; simpl.
  - by rewrite app_nil_r.
  - rewrite IH, <- app_assoc. done.
Qed.

Lemma inside_trans r1 r2 r3 : inside r1 r2 -> inside r2 r3 -> inside r1 r3.
Proof. unfold inside. intros (?&?&?&?&?&?) (?&?&?&?&?&?). repeat split; lra. Qed.

Lemma apart_inside r1 r2 r : apart r1 r2 -> inside r r2 -> apart r1 r.
Proof.
  unfold apart, inside. intros [?|[?|[?|?]]] (?&?&?&?&?&?);
    [left|right; left|right; right; left|right; right; right]; lra.
Qed.

Lemma ForallOrdPairs_app {A} (R : A -> A -> Prop) l1 l2 :
  ForallOrdPairs R l1 -> ForallOrdPairs R l2 ->
  (forall a b, a ∈ l1 -> b ∈ l2 -> R a b) ->
  ForallOrdPairs R (l1 ++ l2).
Proof.
  intros H1 H2 H12. induction H1 as [|a l1 Ha H1 IH]; simpl; [done|].
  constructor.
  - apply Forall_app. split; [done|].
    apply Forall_forall. intros b Hb. apply H12; [left|done].
  - apply IH. intros a' b Ha' Hb. apply H12; [by right|done].
Qed.

Lemma ForallOrdPairs_lookup {A} (R : A -> A -> Prop) l :
  ForallOrdPairs R l ->
  forall i j a b, (i < j)%nat -> l !! i = Some a -> l !! j = Some b -> R a b.
Proof.
  induction 1 as [|c l Hc _ IH]; intros i j a b Hij Hi Hj; [done|].
  destruct j as [|j]; [lia|]. simpl in Hj. destruct i as [|i].
  - simpl in Hi. injection Hi as <-.
    rewrite Forall_forall in Hc. apply Hc. by eapply list_elem_of_lookup_2.
  - simpl in Hi. apply (IH i j); [lia|done..].
Qed.

(** A row laid along the x axis, in a strip of height [hh] at [yy]. *)
Lemma place_row yy hh (len : Q -> Q) row' : forall pos,
  Forall (fun a => 0 < len a) row' ->
  let rects := place (fun pos l => mkRect pos yy l hh) len pos row' in
  Forall (fun r => pos <= x r /\ x r + w r <= pos + sum (len <$> row') /\
                   0 <= w r /\ y r = yy /\ h r = hh) rects /\
  ForallOrdPairs apart rects.
Proof.
  induction row' as [|a row' IH]; intros pos Hpos; csimpl.
  { split; constructor. }
  apply Forall_cons in Hpos as [Ha Hpos].
  destruct (IH (pos + len a) Hpos) as [IH1 IH2].
  assert (0 <= sum (len <$> row')) as Hs.
  { apply sum_nonneg. by apply Forall_fmap. }
  split.
  - constructor.
    + simpl. rewrite sum_cons. repeat split; lra.
    + eapply Forall_impl; [exact IH1|]. simpl. intros r (?&?&?&?&?).
      rewrite sum_cons. repeat split; try done; lra.
  - constructor; [|done].
    eapply Forall_impl; [exact IH1|]. simpl. intros r (?&?&?&?&?).
    left. simpl. lra.
Qed.

(** A row laid along the y axis, in a strip of width [ww] at [xx]. *)
Lemma place_column xx ww (len : Q -> Q) row' : forall pos,
  Forall (fun a => 0 < len a) row' ->
  let rects := place (fun pos l => mkRect xx pos ww l) len pos row' in
  Forall (fun r => pos <= y r /\ y r + h r <= pos + sum (len <$> row') /\
                   0 <= h r /\ x r = xx /\ w r = ww) rects /\
  ForallOrdPairs apart rects.
Proof.
  induction row' as [|a row' IH]; intros pos Hpos; csimpl.
  { split; constructor. }
  apply Forall_cons in Hpos as [Ha Hpos].
  destruct (IH (pos + len a) Hpos) as [IH1 IH2].
  assert (0 <= sum (len <$> row')) as Hs.
  { apply sum_nonneg. by apply Forall_fmap. }
  split.
  - constructor.
    + simpl. rewrite sum_cons. repeat split; lra.
    + eapply Forall_impl; [exact IH1|]. simpl. intros r (?&?&?&?&?).
      rewrite sum_cons. repeat split; try done; lra.
  - constructor; [|done].
    eapply Forall_impl; [exact IH1|]. simpl. intros r (?&?&?&?&?).
    right. right. left. simpl. lra.
Qed.

Lemma sum_div (row' : list Q) c : ~ c == 0 ->
  sum ((fun a => a / c) <$> row') == sum row' / c.
Proof.
  intros Hc. induction row' as [|a row' IH].
  - unfold sum. simpl. field. done.
  - rewrite fmap_cons, !sum_cons, IH. field. done.
Qed.

(** A row of positive areas that fits in the rectangle: its rectangles lie
    inside it, no two of them overlap, none overlaps what remains of the
    rectangle, and what remains lies inside it. *)
Lemma _layout_row_geometry row' rect horizontal :
  0 < w rect -> 0 < h rect -> row' <> [] -> Forall (fun a => 0 < a) row' ->
  sum row' <= area rect ->
  Forall (fun r => inside r rect) (_layout_row row' rect horizontal).1 /\
  ForallOrdPairs apart (_layout_row row' rect horizontal).1 /\
  Forall (fun r => apart r (_layout_row row' rect horizontal).2)
         (_layout_row row' rect horizontal).1 /\
  inside (_layout_row row' rect horizontal).2 rect.
Proof.
  intros Hw Hh Hne Hpos Hle. pose proof (sum_pos _ Hne Hpos) as Hs.
  unfold area in Hle. unfold _layout_row. destruct horizontal.
  - rewrite (gtb_pos _ Hw).
    assert (0 < sum row' / w rect) as Hh'.
    { apply Qlt_shift_div_l; [done|lra]. }
    rewrite (gtb_pos _ Hh').
    assert (sum row' / w rect <= h rect) as Hfit.
    { apply Qle_shift_div_r; [done|]. lra. }
    pose proof (layout_fold_place
                  (fun pos len => mkRect pos (y rect) len (sum row' / w rect))
                  (fun a => a / (sum row' / w rect)) row' [] (x rect)) as E.
    destruct (foldl _ _ row') as [laid pos1]. simpl in E. subst laid. simpl.
    destruct (place_row (y rect) (sum row' / w rect)
                (fun a => a / (sum row' / w rect)) row' (x rect)) as [H1 H2].
    { eapply Forall_impl; [exact Hpos|]. intros a Ha. simpl.
      apply Qlt_shift_div_l; [done|by rewrite Qmult_0_l]. }
    pose proof (sum_div row' (sum row' / w rect) ltac:(lra)) as Es.
    assert (sum row' / (sum row' / w rect) == w rect) as Ew by (field; lra).
    rewrite Ew in Es.
    split; [|split; [done|split]].
    + eapply Forall_impl; [exact H1|]. intros r (?&Hr&?&Hy&Hhr).
      rewrite Es in Hr. unfold inside. rewrite Hy, Hhr. repeat split; lra.
    + eapply Forall_impl; [exact H1|]. intros r (?&?&?&Hy&Hhr).
      unfold apart. simpl. rewrite Hy, Hhr. right. right. left. lra.
    + unfold inside. simpl. rewrite Q.max_r by lra. repeat split; lra.
  - rewrite (gtb_pos _ Hh).
    assert (0 < sum row' / h rect) as Hw'.
    { apply Qlt_shift_div_l; [done|lra]. }
    rewrite (gtb_pos _ Hw').
    assert (sum row' / h rect <= w rect) as Hfit.
    { apply Qle_shift_div_r; [done|]. lra. }
    pose proof (layout_fold_place
                  (fun pos len => mkRect (x rect) pos (sum row' / h rect) len)
                  (fun a => a / (sum row' / h rect)) row' [] (y rect)) as E.
    destruct (foldl _ _ row') as [laid pos1]. simpl in E. subst laid. simpl.
    destruct (place_column (x rect) (sum row' / h rect)
                (fun a => a / (sum row' / h rect)) row' (y rect)) as [H1 H2].
    { eapply Forall_impl; [exact Hpos|]. intros a Ha. simpl.
      apply Qlt_shift_div_l; [done|by rewrite Qmult_0_l]. }
    pose proof (sum_div row' (sum row' / h rect) ltac:(lra)) as Es.
    assert (sum row' / (sum row' / h rect) == h rect) as Ew by (field; lra).
    rewrite Ew in Es.
    split; [|split; [done|split]].
    + eapply Forall_impl; [exact H1|]. intros r (?&Hr&?&Hx&Hwr).
      rewrite Es in Hr. unfold inside. rewrite Hx, Hwr. repeat split; lra.
    + eapply Forall_impl; [exact H1|]. intros r (?&?&?&Hx&Hwr).
      unfold apart. simpl. rewrite Hx, Hwr. left. lra.
    + unfold inside. simpl. rewrite Q.max_r by lra. repeat split; lra.
Qed.

(** The rectangles laid out so far lie inside the target, do not overlap
    one another and do not overlap what remains to be filled. *)
Definition tiled (target : Rect) (st : loop_state) : Prop :=
  inside (remaining st) target /\
  Forall (fun p => inside p.1 target /\ apart p.1 (remaining st)) (out st) /\
  ForallOrdPairs (fun p q : Rect * Node => apart p.1 q.1) (out st).

Lemma Forall_zip_fst {A B} (P : A -> Prop) (l : list A) (k : list B) :
  Forall P l -> Forall (fun p => P p.1) (zip l k).
Proof.
  intros H. apply Forall_forall. intros [a b] Hab.
  apply elem_of_zip_l in Hab. rewrite Forall_forall in H. by apply H.
Qed.

Lemma ForallOrdPairs_zip_fst {A B} (R : A -> A -> Prop) (l : list A) :
  ForallOrdPairs R l ->
  forall k : list B, ForallOrdPairs (fun p q => R p.1 q.1) (zip l k).
Proof.
  induction 1 as [|a l Ha _ IH]; intros k; [constructor|].
  destruct k as [|b k]; [constructor|]. simpl. constructor; [|apply IH].
  by apply (Forall_zip_fst (R a)).
Qed.

Lemma iteration_cases st a n rest st' :
  iteration st a n rest = Ok st' ->
  (row st <> [] /\ st' = flush st) \/
  st' = mkLoop rest (row st ++ [a]) (row_nodes st ++ [n]) (remaining st) (out st).
Proof.
  destruct (decide (row st = [])) as [E|Hne].
  - rewrite iteration_first by done. intros [= <-]. by right.
  - rewrite iteration_next by done.
    destruct (_worst (row st ++ [a]) _) as [wn| |]; simpl; try done.
    destruct (_worst (row st) _) as [wo| |]; simpl; try done.
    destruct (ext_gtb wn wo); intros [= <-]; auto.
Qed.

Lemma flush_tiled tg ns target st :
  row st <> [] -> loop_inv tg ns st -> tiled target st -> tiled target (flush st).
Proof.
  intros Hne (Hit & Hrow & Hw & Hh & Harea & Hout & Hns) (Hrem & Hin & Hap).
  pose proof (row_positive _ _ _ Hrow) as Hpos.
  pose proof (sum_pos _ Hne Hpos) as Hs.
  pose proof (items_sum_nonneg _ _ Hit) as Hi.
  destruct (positive_sides (remaining st) Hw Hh) as [Hw' Hh']; [lra|].
  unfold flush.
  pose proof (_layout_row_geometry (row st) (remaining st)
                (geb (w (remaining st)) (h (remaining st))) Hw' Hh' Hne Hpos
                ltac:(lra)) as (Hlin & Hlap & Hlrem & Hrin).
  destruct (_layout_row _ _ _) as [laid rem']. simpl in *.
  unfold tiled. simpl. split; [by eapply inside_trans|]. split.
  - apply Forall_app. split.
    + eapply Forall_impl; [exact Hin|]. intros p [Hp1 Hp2].
      split; [done|]. by eapply apart_inside.
    + apply (Forall_zip_fst (fun r => inside r target /\ apart r rem')).
      rewrite Forall_forall in Hlin, Hlrem. apply Forall_forall.
      intros r Hr. split; [|by apply Hlrem].
      eapply inside_trans; [by apply Hlin|done].
  - apply ForallOrdPairs_app; [done|by apply ForallOrdPairs_zip_fst|].
    intros [r1 n1] [r2 n2] H1 H2. simpl.
    rewrite Forall_forall in Hin. destruct (Hin _ H1) as [_ Hp2].
    apply elem_of_zip_l in H2. rewrite Forall_forall in Hlin.
    eapply apart_inside; [exact Hp2|]. by apply Hlin.
Qed.

Lemma loop_tiled tg ns target fuel : forall st st',
  loop_inv tg ns st -> tiled target st -> loop fuel st = Ok st' ->
  tiled target st'.
Proof.
  induction fuel as [|fuel IH]; intros st st' Hinv Ht Hrun; simpl in Hrun.
  - destruct (items st) as [|[a n] rest]; [|done]. by injection Hrun as <-.
  - destruct (items st) as [|[a n] rest] eqn:E; [by injection Hrun as <-|].
    destruct (iteration_inv tg ns st a n rest E Hinv) as (st1 & E1 & Hinv1 & _).
    rewrite E1 in Hrun. simpl in Hrun.
    apply (IH st1 st' Hinv1); [|done].
    apply iteration_cases in E1 as [[Hne ->]| ->].
    + by eapply flush_tiled.
    + exact Ht.
Qed.

(** The state in which [squarify] enters its loop. *)
Lemma squarify_start nodes x0 y0 w0 h0 :
  0 < w0 -> 0 < h0 -> (0 < sum_sizes (positive nodes))%Z ->
  let ns := py.sort_desc size (positive nodes) in
  let target n := inject_Z (size n) * (w0 * h0) / inject_Z (sum_sizes (positive nodes)) in
  loop_inv target ns
    (mkLoop (zip (_normalize_sizes ns (w0 * h0)) ns) [] [] (mkRect x0 y0 w0 h0) []).
Proof.
  intros Hw Hh HS ns target.
  pose proof (sort_desc_positive nodes) as Hpos. fold ns in Hpos.
  assert (sum_sizes ns = sum_sizes (positive nodes)) as HSn
    by apply sum_sizes_perm, py.sort_desc_perm.
  rewrite normalize_sizes_eq by (done || lia). rewrite HSn.
  pose proof (inject_Z_pos _ HS) as HSq.
  assert (0 < w0 * h0) as HA by (by apply Qmult_lt_0_compat).
  unfold loop_inv. simpl. split.
  { apply zip_fmap_self. intros n Hn. simpl.
    assert (size n > 0)%Z as Hn' by (by eapply Forall_forall in Hpos).
    rewrite Z.max_r by lia. pose proof (inject_Z_pos (size n) ltac:(lia)).
    split; [|done]. apply Qlt_shift_div_l; [done|].
    rewrite Qmult_0_l. by apply Qmult_lt_0_compat. }
  split; [constructor|]. split; [lra|]. split; [lra|]. split.
  { unfold area. simpl. rewrite fst_zip by (by rewrite length_fmap).
    rewrite (sum_scaled _ ns (w0 * h0 / inject_Z (sum_sizes (positive nodes)))).
    - rewrite HSn. unfold sum at 1. simpl. field. lra.
    - intros n Hn.
      assert (size n > 0)%Z as Hn' by (by eapply Forall_forall in Hpos).
      rewrite Z.max_r by lia. field. lra. }
  split; [constructor|].
  by rewrite snd_zip by (by rewrite length_fmap).
Qed.

(** What [squarify] returns for a rectangle of positive sides and children
    of positive total size: the output of a state in which every item is
    laid out. *)
Lemma squarify_pairs nodes x0 y0 w0 h0 :
  0 < w0 -> 0 < h0 -> (0 < sum_sizes (positive nodes))%Z ->
  let ns := py.sort_desc size (positive nodes) in
  let target n := inject_Z (size n) * (w0 * h0) / inject_Z (sum_sizes (positive nodes)) in
  exists st,
    squarify nodes x0 y0 w0 h0 = Ok (out st) /\
    loop_inv target ns st /\ items st = [] /\ row st = [] /\
    tiled (mkRect x0 y0 w0 h0) st.
Proof.
  intros Hw Hh HS ns target.
  destruct (squarify_loop nodes x0 y0 w0 h0 Hw Hh HS) as (st & Hloop & Hinv & Hit).
  fold ns target in Hloop, Hinv.
  assert (tiled (mkRect x0 y0 w0 h0) st) as Ht.
  { eapply loop_tiled; [| |exact Hloop].
    - by apply squarify_start.
    - unfold tiled, inside. simpl. repeat split; try lra; constructor. }
  unfold squarify. fold (positive nodes). fold ns. rewrite Hloop. simpl.
  destruct (decide (row st = [])) as [E|Hne].
  - rewrite E. exists st. done.
  - destruct (flush_inv target ns st Hne Hinv) as (Hfi & Hfit & Hfrow).
    exists (flush st). split; [by destruct (row st)|].
    split; [done|]. split; [congruence|]. split; [done|].
    by eapply flush_tiled.
Qed.

Lemma sum_sizes_positive nodes :
  Forall (fun n => (0 < size n)%Z) nodes -> nodes <> [] -> (0 < sum_sizes nodes)%Z.
Proof.
  intros H Hne. induction H as [|n nodes Hn H IH]; [done|].
  rewrite sum_sizes_cons. destruct nodes as [|m nodes].
  - unfold sum_sizes. simpl. lia.
  - specialize (IH ltac:(done)). lia.
Qed.

(** The rectangles [squarify] returns for a target of positive sides lie
    inside the target, have positive sides, and no two of them overlap. *)
Theorem squarify_tiles nodes x0 y0 w0 h0 :
  0 < w0 -> 0 < h0 -> (0 < sum_sizes (positive nodes))%Z ->
  exists pairs,
    squarify nodes x0 y0 w0 h0 = Ok pairs /\
    Forall (fun p => inside p.1 (mkRect x0 y0 w0 h0) /\
                     0 < w p.1 /\ 0 < h p.1) pairs /\
    (forall i j p q, (i < j)%nat -> pairs !! i = Some p -> pairs !! j = Some q ->
                     apart p.1 q.1).
Proof.
  intros Hw Hh HS.
  destruct (squarify_pairs nodes x0 y0 w0 h0 Hw Hh HS)
    as (st & Hsq & Hinv & Hit & Hrow & Hrem & Hin & Hap).
  exists (out st). split; [done|]. split.
  - destruct Hinv as (_ & Hr & _ & _ & _ & Hout & Hns).
    rewrite Hrow in Hr. apply Forall2_nil_inv_l in Hr.
    rewrite Hr, Hit in Hns. simpl in Hns. rewrite app_nil_r in Hns.
    pose proof (sort_desc_positive nodes) as Hpos. rewrite <- Hns in Hpos.
    rewrite Forall_fmap in Hpos.
    pose proof (inject_Z_pos _ HS) as HSq.
    apply Forall_forall. intros p Hp.
    rewrite Forall_forall in Hin, Hout, Hpos.
    destruct (Hin p Hp) as [Hi _]. split; [done|].
    specialize (Hout p Hp). specialize (Hpos p Hp). simpl in Hpos.
    destruct Hi as (_ & _ & _ & _ & Hpw & Hph).
    apply positive_sides; [done..|]. rewrite Hout.
    pose proof (inject_Z_pos (size p.2) ltac:(lia)).
    apply Qlt_shift_div_l; [done|]. rewrite Qmult_0_l.
    repeat apply Qmult_lt_0_compat; done.
  - intros i j p q Hij Hp Hq.
    by apply (ForallOrdPairs_lookup _ _ Hap i j).
Qed.

(* --------------------------------------------------------------------- *)
(** ** The children shown in a view *)

Lemma top_children_sorted node limit :
  Sorted (py.desc size) (top_children_for_view node limit) /\
  Forall (fun n => (0 < size n)%Z) (top_children_for_view node limit).
Proof.
  unfold top_children_for_view. rewrite py.slice_to_take. split.
  - apply py.sorted_desc_take, py.sort_desc_sorted.
  - apply Forall_take.
    pose proof (sort_desc_positive (children node)) as H.
    eapply Forall_impl; [exact H|]. simpl. lia.
Qed.

(** [top_children_for_view] returns the first children of positive size
    when these are sorted by size, largest first, children of one size
    staying in the order they have in the node: [min(limit, n)] of the [n]
    children of positive size for a limit that is not negative, all but the
    last [-limit] for a negative one.  The children of positive size it
    leaves out are not larger than the ones it returns. *)
Theorem top_children_largest node limit :
  let kids := top_children_for_view node limit in
  let pos := positive (children node) in
  Z.of_nat (length kids) =
    (if (0 <=? limit)%Z then Z.min limit (Z.of_nat (length pos))
     else Z.max 0 (Z.of_nat (length pos) + limit)) /\
  kids = take (length kids) (py.sort_desc size pos) /\
  (forall k, filter (fun n => size n = k) (py.sort_desc size pos) =
             filter (fun n => size n = k) pos) /\
  Sorted (py.desc size) kids /\
  Forall (fun n => (0 < size n)%Z) kids /\
  exists rest, pos ≡ₚ kids ++ rest /\
    forall a b, a ∈ kids -> b ∈ rest -> (size b <= size a)%Z.
Proof.
  intros kids pos. unfold top_children_for_view in kids. fold (positive (children node)) in kids.
  fold pos in kids. set (sorted := py.sort_desc size pos) in *.
  assert (Sorted (py.desc size) sorted) as Hs by apply py.sort_desc_sorted.
  split.
  { unfold kids. rewrite py.length_slice_to. unfold sorted.
    by rewrite py.length_sort_desc. }
  pose proof (py.slice_to_take limit sorted) as Hk. fold kids in Hk.
  split; [done|]. split; [intros k; apply py.sort_desc_stable|].
  split; [rewrite Hk; by apply py.sorted_desc_take|]. split.
  { rewrite Hk. apply Forall_take. pose proof (sort_desc_positive (children node)) as H.
    eapply Forall_impl; [exact H|]. simpl. lia. }
  exists (drop (length kids) sorted). split.
  { rewrite Hk at 1. rewrite take_drop. unfold sorted. by rewrite py.sort_desc_perm. }
  intros a b Ha Hb. rewrite Hk in Ha.
  apply list_elem_of_lookup in Ha as [i Hi]. apply list_elem_of_lookup in Hb as [j Hj].
  pose proof (lookup_lt_Some _ _ _ Hi) as Hlt. rewrite length_take in Hlt.
  rewrite lookup_take_lt in Hi by lia. rewrite lookup_drop in Hj.
  apply (py.sorted_desc_lookup size sorted Hs i (length kids + j)); [lia|done..].
Qed.

Lemma positive_all nodes :
  Forall (fun n => (0 < size n)%Z) nodes -> positive nodes = nodes.
Proof.
  intros H. unfold positive. induction H as [|n nodes Hn _ IH]; [done|].
  rewrite filter_cons, IH. destruct (decide (size n > 0)%Z); [done|lia].
Qed.

(** [render_treemap] of [app.py] lays out
    [top_children_for_view(node, limit)] in a rectangle not smaller than
    600 by 360, when there is one child to show at least. [squarify] then
    returns, and does not raise: one rectangle for each child shown, in the
    order of the children shown, inside the rectangle, of positive width
    and height, of an area in proportion to the size of the child, and no
    two rectangles overlap. *)
Theorem view_layout node limit x0 y0 w0 h0 :
  0 < w0 -> 0 < h0 ->
  let kids := top_children_for_view node limit in
  kids <> [] ->
  exists pairs,
    squarify kids x0 y0 w0 h0 = Ok pairs /\
    snd <$> pairs = kids /\
    Forall (fun p => inside p.1 (mkRect x0 y0 w0 h0) /\ 0 < w p.1 /\ 0 < h p.1 /\
                     area p.1 == inject_Z (size p.2) / inject_Z (sum_sizes kids)
                                 * (w0 * h0)) pairs /\
    (forall i j p q, (i < j)%nat -> pairs !! i = Some p -> pairs !! j = Some q ->
                     apart p.1 q.1).
Proof.
  intros Hw Hh kids Hne.
  destruct (top_children_sorted node limit) as [Hsorted Hpos].
  fold kids in Hsorted, Hpos.
  pose proof (positive_all kids Hpos) as Hp.
  pose proof (sum_sizes_positive kids Hpos Hne) as HS.
  destruct (squarify_pairs kids x0 y0 w0 h0 Hw Hh ltac:(by rewrite Hp))
    as (st & Hsq & Hinv & Hit & Hrow & Hrem & Hin & Hap).
  rewrite Hp in Hinv. rewrite py.sort_desc_of_sorted in Hinv by done.
  destruct Hinv as (_ & Hr & _ & _ & _ & Hout & Hns).
  rewrite Hrow in Hr. apply Forall2_nil_inv_l in Hr.
  rewrite Hr, Hit in Hns. simpl in Hns. rewrite app_nil_r in Hns.
  exists (out st). split; [done|]. split; [done|]. split.
  - pose proof (inject_Z_pos _ HS) as HSq.
    rewrite <- Hns in Hpos. rewrite Forall_fmap in Hpos.
    apply Forall_forall. intros p Hpin.
    rewrite Forall_forall in Hin, Hout, Hpos.
    destruct (Hin p Hpin) as [Hi _]. specialize (Hout p Hpin).
    specialize (Hpos p Hpin). simpl in Hpos.
    pose proof (inject_Z_pos (size p.2) Hpos).
    assert (area p.1 == inject_Z (size p.2) / inject_Z (sum_sizes kids) * (w0 * h0))
      as Ha by (rewrite Hout; field; lra).
    split; [done|].
    destruct Hi as (_ & _ & _ & _ & Hpw & Hph).
    destruct (positive_sides p.1 Hpw Hph) as [? ?]; [|done].
    rewrite Hout. apply Qlt_shift_div_l; [done|]. rewrite Qmult_0_l.
    repeat apply Qmult_lt_0_compat; done.
  - intros i j p q Hij Hpi Hqj.
    by apply (ForallOrdPairs_lookup _ _ Hap i j).
Qed.

(* --------------------------------------------------------------------- *)
(** ** What [_worst] measures *)

Lemma foldl_Qmax_ge l : forall acc,
  acc <= foldl Qmax acc l /\ Forall (fun a => a <= foldl Qmax acc l) l.
Proof.
  induction l as [|b l IH]; intros acc; simpl.
  { split; [lra|constructor]. }
  destruct (IH (Qmax acc b)) as [H1 H2].
  pose proof (Q.le_max_l acc b). pose proof (Q.le_max_r acc b).
  split; [lra|]. constructor; [lra|done].
Qed.

Lemma foldl_Qmin_le l : forall acc,
  foldl Qmin acc l <= acc /\ Forall (fun a => foldl Qmin acc l <= a) l.
Proof.
  induction l as [|b l IH]; intros acc; simpl.
  { split; [lra|constructor]. }
  destruct (IH (Qmin acc b)) as [H1 H2].
  pose proof (Q.le_min_l acc b). pose proof (Q.le_min_r acc b).
  split; [lra|]. constructor; [lra|done].
Qed.

Lemma maximum_ge l : Forall (fun a => a <= maximum l) l.
Proof.
  destruct l as [|b l]; [constructor|]. simpl.
  destruct (foldl_Qmax_ge l b). by constructor.
Qed.

Lemma minimum_le l : Forall (fun a => minimum l <= a) l.
Proof.
  destruct l as [|b l]; [constructor|]. simpl.
  destruct (foldl_Qmin_le l b). by constructor.
Qed.

Lemma Qdiv_le_num a b c : 0 < c -> a <= b -> a / c <= b / c.
Proof.
  intros Hc Hab. apply Qle_shift_div_r; [done|].
  assert (b / c * c == b) as -> by (field; lra). done.
Qed.

Lemma Qdiv_le_den a b c : 0 <= a -> 0 < c -> c <= b -> a / b <= a / c.
Proof.
  intros Ha Hc Hcb. apply Qle_shift_div_r; [lra|].
  assert (a / c * b == a * b / c) as -> by (field; lra).
  apply Qle_shift_div_l; [done|]. nra.
Qed.

(** The rectangles of a row laid across a side of length [side]. *)
Lemma _layout_row_shapes row' rect (horizontal : bool) :
  0 < w rect -> 0 < h rect -> 0 < sum row' ->
  let side := if horizontal then w rect else h rect in
  Forall2 (fun a r =>
             let '(along, across) := if horizontal then (w r, h r) else (h r, w r) in
             across == sum row' / side /\ along == a / (sum row' / side))
          row' (_layout_row row' rect horizontal).1.
Proof.
  intros Hw Hh Hs. unfold _layout_row. destruct horizontal; simpl.
  - rewrite (gtb_pos _ Hw).
    assert (0 < sum row' / w rect) as Hh'.
    { apply Qlt_shift_div_l; [done|lra]. }
    rewrite (gtb_pos _ Hh').
    destruct (layout_fold (fun pos len => mkRect pos (y rect) len (sum row' / w rect))
                (fun a => a / (sum row' / w rect)) row' [] (x rect))
      as (rects & pos1 & E & HF).
    rewrite E. simpl.
    eapply Forall2_impl; [exact HF|]. intros a r [pos ->]. simpl. done.
  - rewrite (gtb_pos _ Hh).
    assert (0 < sum row' / h rect) as Hw'.
    { apply Qlt_shift_div_l; [done|lra]. }
    rewrite (gtb_pos _ Hw').
    destruct (layout_fold (fun pos len => mkRect (x rect) pos (sum row' / h rect) len)
                (fun a => a / (sum row' / h rect)) row' [] (y rect))
      as (rects & pos1 & E & HF).
    rewrite E. simpl.
    eapply Forall2_impl; [exact HF|]. intros a r [pos ->]. simpl. done.
Qed.

(** The ratio that [_worst] returns for a row of positive areas and a
    side of positive length: it is 1 at least, and no rectangle of the row,
    when the row is laid out across a side of that length, has a ratio of
    its sides, one way or the other, above it. *)
Theorem worst_bounds_row row' rect (horizontal : bool) :
  0 < w rect -> 0 < h rect -> row' <> [] -> Forall (fun a => 0 < a) row' ->
  exists q,
    _worst row' (if horizontal then w rect else h rect) = Ok (Fin q) /\
    1 <= q /\
    Forall (fun r => w r / h r <= q /\ h r / w r <= q)
           (_layout_row row' rect horizontal).1.
Proof.
  intros Hw Hh Hne Hpos.
  set (side := if horizontal then w rect else h rect).
  assert (0 < side) as Hside by (unfold side; by destruct horizontal).
  pose proof (sum_pos _ Hne Hpos) as Hs.
  pose proof (minimum_pos _ Hne Hpos) as Hm.
  pose proof (maximum_ge row') as Hmax. pose proof (minimum_le row') as Hmin.
  assert (0 < sum row' * sum row') as Hss by (by apply Qmult_lt_0_compat).
  assert (0 < side * side) as Hww by (by apply Qmult_lt_0_compat).
  assert (0 < side * side * minimum row') as Hwm by (by apply Qmult_lt_0_compat).
  assert (_worst row' side =
          Ok (Fin (Qmax (side * side * maximum row' / (sum row' * sum row'))
                        (sum row' * sum row' / (side * side * minimum row')))))
    as Hworst.
  { unfold _worst. destruct row' as [|a l] eqn:E; [done|]. rewrite <- E in *.
    rewrite div_nonzero by lra. simpl. rewrite div_nonzero by lra. reflexivity. }
  set (r1 := side * side * maximum row' / (sum row' * sum row')) in *.
  set (r2 := sum row' * sum row' / (side * side * minimum row')) in *.
  assert (Forall (fun a => 0 < a /\
                           side * side * a / (sum row' * sum row') <= Qmax r1 r2 /\
                           sum row' * sum row' / (side * side * a) <= Qmax r1 r2)
                 row') as Hboth.
  { rewrite Forall_forall in Hpos, Hmax, Hmin. apply Forall_forall. intros a Ha.
    specialize (Hpos a Ha). specialize (Hmax a Ha). specialize (Hmin a Ha).
    simpl in *. split; [done|]. split.
    - apply Qle_trans with r1; [|apply Q.le_max_l].
      apply Qdiv_le_num; [done|]. nra.
    - apply Qle_trans with r2; [|apply Q.le_max_r].
      apply Qdiv_le_den; [lra|done|]. nra. }
  exists (Qmax r1 r2). split; [done|]. split.
  - destruct row' as [|a l]; [done|].
    apply Forall_cons in Hboth as [(Ha & H1 & H2) _].
    set (u := side * side * a / (sum (a :: l) * sum (a :: l))) in *.
    assert (0 < u) as Hu.
    { apply Qlt_shift_div_l; [done|]. rewrite Qmult_0_l.
      by apply Qmult_lt_0_compat. }
    assert (sum (a :: l) * sum (a :: l) / (side * side * a) == / u) as Hinv.
    { unfold u. field. repeat split; lra. }
    rewrite Hinv in H2.
    destruct (Qlt_le_dec u 1) as [Hlt|Hge]; [|lra].
    apply Qle_trans with (/ u); [|done].
    apply Qle_shift_inv_l; [done|]. lra.
  - pose proof (_layout_row_shapes row' rect horizontal Hw Hh Hs) as Hsh.
    fold side in Hsh. simpl in Hsh.
    eapply Forall2_Forall_r; [exact Hsh|].
    eapply Forall_impl; [exact Hboth|]. intros a (Ha & H1 & H2) r Hr.
    assert (a / (sum row' / side) / (sum row' / side) ==
            side * side * a / (sum row' * sum row')) as E1 by (field; lra).
    assert (sum row' / side / (a / (sum row' / side)) ==
            sum row' * sum row' / (side * side * a)) as E2
      by (field; repeat split; lra).
    destruct horizontal; destruct Hr as [Hac Hal]; rewrite Hal, Hac, E1, E2; done.
Qed.

End treemap.

(* ===================================================================== *)
(** * Part XI. The layout engine on concrete input *)

Definition leaf (nm : string) (sz : Z) : Node := mkNode nm nm false sz [].

(** The pairs returned, each as [(x, y, w, h, name)] in lowest terms. *)
Definition view (r : treemap.result (list (treemap.Rect * Node)))
    : option (list (Q * Q * Q * Q * string)) :=
  match r with
  | treemap.Ok pairs =>
      Some ((fun p => (Qred (treemap.x p.1), Qred (treemap.y p.1),
                       Qred (treemap.w p.1), Qred (treemap.h p.1), name p.2))
              <$> pairs)
  | _ => None
  end.

(** C5, as stated, fails: a rectangle of area zero with one child of
    positive size gives a list of one pair, not an empty list. *)
Lemma zero_area_gives_a_pair :
  view (treemap.squarify [leaf "a" 1] 0 0 0 0) = Some [(0, 0, 0, 0, "a")]%Q.
Proof. vm_compute. reflexivity. Qed.

(** With two children of positive size in a rectangle of area zero,
    [_worst] divides by [s * s = 0]. *)
Lemma zero_area_two_children_raise :
  treemap.squarify [leaf "a" 1; leaf "b" 1] 0 0 0 0 = treemap.ZeroDivisionError.
Proof. vm_compute. reflexivity. Qed.

(** The amended C5 on children without positive size, and on one child of
    positive size in a rectangle of width zero. *)
Lemma squarify_degenerate_witness :
  treemap.squarify [leaf "z" 0; leaf "m" (-3)] 0 0 10 10 = treemap.Ok [] /\
  exists r, treemap.squarify [leaf "z" 0; leaf "a" 1] 0 0 0 7 = treemap.Ok [(r, leaf "a" 1)] /\
            (treemap.area r == 0)%Q.
Proof.
  split.
  - apply (proj1 (treemap.squarify_degenerate [leaf "z" 0; leaf "m" (-3)] 0 0 10 10)).
    repeat constructor; simpl; lia.
  - apply (proj2 (treemap.squarify_degenerate [leaf "z" 0; leaf "a" 1] 0 0 0 7));
      reflexivity.
Defined.

(** C6 on seven children of sizes 6, 6, 4, 3, 2, 2, 1 and one of size 0 in
    a rectangle 6 by 4. *)
Lemma squarify_areas_witness :
  let nodes := [leaf "a" 6; leaf "b" 6; leaf "c" 4; leaf "d" 3; leaf "zero" 0;
                leaf "e" 2; leaf "f" 2; leaf "g" 1] in
  exists pairs,
    treemap.squarify nodes 0 0 6 4 = treemap.Ok pairs /\
    snd <$> pairs ≡ₚ treemap.positive nodes /\
    Forall (fun p => (treemap.area p.1 == inject_Z (size p.2) / 24 * (6 * 4))%Q) pairs /\
    (treemap.sum ((fun p => treemap.area p.1) <$> pairs) == 6 * 4)%Q.
Proof.
  intros nodes.
  destruct (treemap.squarify_areas nodes 0 0 6 4)
    as (pairs & H1 & _ & H2 & H3 & H4); [reflexivity..|].
  exists pairs. split; [exact H1|]. split; [exact H2|]. split; [exact H3|exact H4].
Defined.

(** C7, on the code. Two children of equal size in a rectangle 100 wide
    and 10 high: the first row, finalized when adding the second child
    would raise the worst ratio computed against the shorter side 10 from 5
    to 20, is laid out across the width 100, the longer side, as a
    rectangle 100 by 5 of ratio 20; so is the second. *)
Theorem rows_span_the_longer_side :
  view (treemap.squarify [leaf "a" 1; leaf "b" 1] 0 0 100 10) =
    Some [(0, 0, 100, 5, "a"); (0, 5, 100, 5, "b")]%Q /\
  match treemap._worst [500; 500]%Q 10, treemap._worst [500]%Q 10 with
  | treemap.Ok (treemap.Fin q2), treemap.Ok (treemap.Fin q1) =>
      Qred q2 = 20%Q /\ Qred q1 = 5%Q
  | _, _ => False
  end.
Proof. vm_compute. repeat split; reflexivity. Qed.

(** The rectangles of the seven children in a rectangle 6 by 4. *)
Lemma squarify_tiles_witness :
  let nodes := [leaf "a" 6; leaf "b" 6; leaf "c" 4; leaf "d" 3; leaf "zero" 0;
                leaf "e" 2; leaf "f" 2; leaf "g" 1] in
  exists pairs,
    treemap.squarify nodes 0 0 6 4 = treemap.Ok pairs /\
    Forall (fun p => treemap.inside p.1 (treemap.mkRect 0 0 6 4) /\
                     (0 < treemap.w p.1)%Q /\ (0 < treemap.h p.1)%Q) pairs /\
    (forall i j p q, (i < j)%nat -> pairs !! i = Some p -> pairs !! j = Some q ->
                     treemap.apart p.1 q.1).
Proof.
  intros nodes. apply (treemap.squarify_tiles nodes 0 0 6 4); reflexivity.
Defined.

(** A directory node with four children, one of them empty, shown with
    the limit 650 of [render_treemap] in the smallest rectangle it uses. *)
Definition sample_node : Node :=
  mkNode "data" "/data" true 12
    [leaf "a" 2; leaf "empty" 0; leaf "b" 6; leaf "c" 4].

Lemma view_layout_witness :
  treemap.top_children_for_view sample_node 650 <> [] /\
  exists pairs,
    treemap.squarify (treemap.top_children_for_view sample_node 650) 0 0 600 360
      = treemap.Ok pairs /\
    snd <$> pairs = [leaf "b" 6; leaf "c" 4; leaf "a" 2].
Proof.
  assert (treemap.top_children_for_view sample_node 650 <> []) as Hne
    by (vm_compute; discriminate).
  split; [exact Hne|].
  destruct (treemap.view_layout sample_node 650 0 0 600 360 eq_refl eq_refl Hne)
    as (pairs & H1 & H2 & _).
  exists pairs. split; [exact H1|]. rewrite H2. vm_compute. reflexivity.
Defined.

(** A row of two areas 6 and 6 across the width of a rectangle 6 by 4:
    two rectangles 3 by 2, of ratio 3/2. *)
Lemma worst_bounds_row_witness :
  exists q,
    treemap._worst [6; 6]%Q 6 = treemap.Ok (treemap.Fin q) /\ (1 <= q)%Q /\
    Forall (fun r => (treemap.w r / treemap.h r <= q)%Q /\
                     (treemap.h r / treemap.w r <= q)%Q)
           (treemap._layout_row [6; 6]%Q (treemap.mkRect 0 0 6 4) true).1.
Proof.
  apply (treemap.worst_bounds_row [6; 6]%Q (treemap.mkRect 0 0 6 4) true);
    [reflexivity|reflexivity|discriminate|repeat constructor].
Defined.

(* ===================================================================== *)
(** * Part XII. [scanner.iter_all_files]

    [os.walk(root, topdown=True, followlinks=False)] is given as the list
    of the triples [(dirpath, dirnames, filenames)] it yields for [root],
    [os.path.join] as a function.  The generator is modelled by the program
    points at which it calls [cancel_flag], in the order it reaches them:
    one on each triple (line 154), and one on each file name of the triple
    (line 157), which the generator yields after it. *)

Module walk.

Record Walker : Type := mkWalker {
  os_walk : string -> list (string * list string * list string);
  path_join : string -> string -> string
}.

Inductive point : Type :=
| Triple              (* a triple is taken from [os.walk] *)
| Name (p : string).  (* a file name is taken; [p] is the joined path *)

Section iter_all_files.
Variable os : Walker.
(** [cancel_flag], when given, answers its [k]-th call with [f k]. *)
Variable cancel_flag : option (nat -> bool).

Definition points_of_triple (t : string * list string * list string) : list point :=
  Triple :: (Name ∘ path_join os t.1.1 <$> t.2).

Definition points (paths : list string) : list point :=
  flat_map (fun root => flat_map points_of_triple (os_walk os root)) paths.

(** [cancel_flag and cancel_flag()] at the call number [k]. *)
Definition poll (k : nat) : bool * nat :=
  match cancel_flag with
  | None => (false, k)
  | Some f => (f k, S k)
  end.

(** [next(gen)]: the path yielded and the points left, or [None] when the
    generator returns, which it also does, for good, once a call of
    [cancel_flag] answers true. *)
Fixpoint next (ps : list point) (k : nat) : option (string * list point) * nat :=
  match ps with
  | [] => (None, k)
  | Triple :: ps' =>
      let '(cancelled, k) := poll k in
      if cancelled then (None, k) else next ps' k
  | Name p :: ps' =>
      let '(cancelled, k) := poll k in
      if cancelled then (None, k) else (Some (p, ps'), k)
  end.

(** [list(gen)]: the paths yielded until the generator returns, by a
    consumer that does not call [cancel_flag] itself. *)
Fixpoint drain (ps : list point) (k : nat) : list string * nat :=
  match ps with
  | [] => ([], k)
  | Triple :: ps' =>
      let '(cancelled, k) := poll k in
      if cancelled then ([], k) else drain ps' k
  | Name p :: ps' =>
      let '(cancelled, k) := poll k in
      if cancelled then ([], k)
      else let '(l, k) := drain ps' k in (p :: l, k)
  end.

(** [list(iter_all_files(paths, cancel_flag))], with [k] calls of
    [cancel_flag] made before. *)
Definition iter_all_files (paths : list string) (k : nat) : list string * nat :=
  drain (points paths) k.

(** The paths of all the files [os.walk] lists under the roots. *)
Definition all_files (paths : list string) : list string :=
  flat_map (fun root =>
              flat_map (fun t => path_join os t.1.1 <$> t.2) (os_walk os root))
           paths.

Definition names (ps : list point) : list string :=
  omap (fun pt => match pt with Name p => Some p | Triple => None end) ps.

Lemma names_app a b : names (a ++ b) = names a ++ names b.
Proof. unfold names. apply omap_app. Qed.

Lemma names_points paths : names (points paths) = all_files paths.
Proof.
  unfold points, all_files.
  induction paths as [|root paths IH]; [done|]. simpl.
  rewrite names_app, IH. f_equal.
  induction (os_walk os root) as [|t ts IHt]; [done|]. simpl.
  rewrite names_app, IHt. f_equal.
  unfold points_of_triple, names. destruct t as [[dp dn] fns]. simpl.
  clear IHt. induction fns as [|fn fns IHf]; [done|]. simpl. f_equal. exact IHf.
Qed.

(** Draining is taking [next] until it answers [None]. *)
Lemma drain_next ps k :
  drain ps k =
  match next ps k with
  | (None, k') => ([], k')
  | (Some (p, ps'), k') => let '(l, k'') := drain ps' k' in (p :: l, k'')
  end.
Proof.
  revert k. induction ps as [|[|p] ps IH]; intros k; simpl; [done| |].
  - destruct (poll k) as [[] k1]; [done|]. apply IH.
  - by destruct (poll k) as [[] k1].
Qed.

Lemma drain_prefix ps : forall k, (drain ps k).1 `prefix_of` names ps.
Proof.
  induction ps as [|[|p] ps IH]; intros k; simpl; [done| |].
  - destruct (poll k) as [[] k1]; [apply prefix_nil|apply IH].
  - destruct (poll k) as [[] k1]; [apply prefix_nil|].
    specialize (IH k1). destruct (drain ps k1) as [l k2]. simpl in *.
    by apply prefix_cons.
Qed.

(** How many of the points the generator passes: all those before the
    first call of [cancel_flag] that answers true. *)
Lemma drain_spec ps : forall k,
  match cancel_flag with
  | None => drain ps k = (names ps, k)
  | Some f =>
      exists n, (n <= length ps)%nat /\
        (drain ps k).1 = names (take n ps) /\
        (forall i, (i < n)%nat -> f (k + i)%nat = false) /\
        ((n < length ps)%nat -> f (k + n)%nat = true /\ (drain ps k).2 = S (k + n)) /\
        (n = length ps -> (drain ps k).2 = (k + n)%nat)
  end.
Proof.
  destruct cancel_flag as [f|] eqn:Ec.
  - assert (Hp : forall k, poll k = (f k, S k)) by (intros; unfold poll; by rewrite Ec).
    induction ps as [|pt ps IH]; intros k.
    { exists 0%nat. simpl. repeat split; try done; try lia. }
    assert (Hstop : f k = true ->
              exists n, (n <= length (pt :: ps))%nat /\
                [] = names (take n (pt :: ps)) /\
                (forall i, (i < n)%nat -> f (k + i)%nat = false) /\
                ((n < length (pt :: ps))%nat ->
                 f (k + n)%nat = true /\ S k = S (k + n)) /\
                (n = length (pt :: ps) -> S k = (k + n)%nat)).
    { intros Hf. exists 0%nat. simpl. rewrite Nat.add_0_r.
      repeat split; try done; try lia. }
    destruct (IH (S k)) as (n & Hn & Hd & Hfalse & Hlt & Heq).
    assert (Hgo : f k = false ->
              forall i, (i < S n)%nat -> f (k + i)%nat = false).
    { intros Hf [|i] Hi; [by rewrite Nat.add_0_r|].
      replace (k + S i)%nat with (S k + i)%nat by lia. apply Hfalse. lia. }
    destruct pt as [|p]; simpl; rewrite Hp; destruct (f k) eqn:Ef;
      try by apply Hstop.
    + exists (S n). simpl. split; [lia|]. split; [done|]. split; [by apply Hgo|].
      replace (k + S n)%nat with (S k + n)%nat by lia.
      split; [intros; apply Hlt; lia|intros; apply Heq; lia].
    + exists (S n). simpl. destruct (drain ps (S k)) as [l k2]. simpl in *.
      split; [lia|]. split; [by rewrite Hd|]. split; [by apply Hgo|].
      replace (k + S n)%nat with (S k + n)%nat by lia.
      split; [intros; apply Hlt; lia|intros; apply Heq; lia].
  - assert (Hp : forall k, poll k = (false, k)) by (intros; unfold poll; by rewrite Ec).
    induction ps as [|[|p] ps IH]; intros k; simpl; rewrite ?Hp; [done|apply IH|].
    by rewrite IH.
Qed.

(** [iter_all_files] yields the paths of the files that [os.walk] lists
    under the roots, in the order of the roots, of the triples and of the
    file names, up to the first call of [cancel_flag] that answers true,
    whatever the flag answers afterwards: always a prefix of all the paths,
    and all of them without a flag or when the flag never answers true. *)
Theorem iter_all_files_prefix paths k :
  (iter_all_files paths k).1 `prefix_of` all_files paths /\
  (cancel_flag = None -> iter_all_files paths k = (all_files paths, k)) /\
  (forall f, cancel_flag = Some f -> (forall i, f i = false) ->
     (iter_all_files paths k).1 = all_files paths) /\
  (forall f, cancel_flag = Some f -> f k = true ->
     (iter_all_files paths k).1 = []).
Proof.
  unfold iter_all_files. rewrite <- names_points. split; [apply drain_prefix|].
  pose proof (drain_spec (points paths) k) as H. split; [|split].
  - intros Hc. by rewrite Hc in H.
  - intros f Hc Hf. rewrite Hc in H.
    destruct H as (n & Hn & Hd & _ & Hlt & _). rewrite Hd.
    destruct (decide (n < length (points paths))%nat) as [Hl|Hl].
    + destruct (Hlt Hl) as [Ht _]. by rewrite Hf in Ht.
    + by rewrite take_ge by lia.
  - intros f Hc Hf. destruct (points paths) as [|pt ps]; [done|].
    destruct pt; simpl; unfold poll; by rewrite Hc, Hf.
Qed.

End iter_all_files.
End walk.

(* ===================================================================== *)
(** * Part XIII. [magic.py]

    [bytes] are lists of bytes.  [str.lower] is the lower-casing of the
    ASCII letters: on the other characters Python's [lower] produces no
    letter of a key of [EXT_MAP], so [EXT_MAP.get(ext.lower())] is the same
    for UTF-8 encoded strings. *)

Module magic.
Import Stdlib.Init.Byte.

#[local] Instance byte_eq_dec : EqDecision byte := Byte.byte_eq_dec.

Definition bytes : Type := list byte.

Definition MAGIC : list (bytes * string) :=
  [([x25; x50; x44; x46; x2d], "pdf");                  (* b"%PDF-" *)
   ([x89; x50; x4e; x47; x0d; x0a; x1a; x0a], "png");   (* b"\x89PNG\r\n\x1a\n" *)
   ([xff; xd8; xff], "jpg");                            (* b"\xff\xd8\xff" *)
   ([x50; x4b; x03; x04], "zip");                       (* b"PK\x03\x04" *)
   ([x52; x61; x72; x21; x1a; x07; x00], "rar");        (* b"Rar!\x1a\x07\x00" *)
   ([x37; x7a; xbc; xaf; x27; x1c], "7z");              (* b"7z\xbc\xaf\x27\x1c" *)
   ([x49; x44; x33], "mp3");                            (* b"ID3" *)
   ([x4f; x67; x67; x53], "ogg");                       (* b"OggS" *)
   ([x66; x4c; x61; x43], "flac");                      (* b"fLaC" *)
   ([x1f; x8b; x08], "gz");                             (* b"\x1f\x8b\x08" *)
   ([x4d; x5a], "exe")].                                (* b"MZ" *)

Definition EXT_MAP : gmap string string :=
  list_to_map
    [(".pdf", "pdf"); (".png", "png"); (".jpg", "jpg"); (".jpeg", "jpg");
     (".zip", "zip"); (".rar", "rar"); (".7z", "7z"); (".mp3", "mp3");
     (".ogg", "ogg"); (".flac", "flac"); (".gz", "gz"); (".exe", "exe");
     (".dll", "exe")].

(** [head.startswith(sig)] *)
Fixpoint startswith (head sig : bytes) {struct sig} : bool :=
  match sig, head with
  | [], _ => true
  | _ :: _, [] => false
  | b :: sig', c :: head' => bool_decide (b = c) && startswith head' sig'
  end.

Fixpoint detect_in (table : list (bytes * string)) (head : bytes) : option string :=
  match table with
  | [] => None
  | (sig, kind) :: table' =>
      if startswith head sig then Some kind else detect_in table' head
  end.

Definition detect_kind (head : bytes) : option string := detect_in MAGIC head.

Definition extension_kind (ext : string) : option string :=
  EXT_MAP !! posix.lower ext.

Definition looks_like_extension_mismatch (ext : string) (head : bytes)
    : bool * string :=
  let ek := extension_kind ext in
  let hk := detect_kind head in
  match hk with
  | None => (false, "")
  | Some hk =>
      match ek with
      | None =>
          (true, "Сигнатура похожа на '" +:+ hk
                 +:+ "', но расширение неизвестно/не типичное")
      | Some ek =>
          if decide (ek <> hk)
          then (true, "Расширение похоже на '" +:+ ek
                      +:+ "', а сигнатура — на '" +:+ hk +:+ "'")
          else (false, "")
      end
  end.

(* --------------------------------------------------------------------- *)
(** ** Properties *)

Lemma startswith_prefix head sig : startswith head sig = true <-> sig `prefix_of` head.
Proof.
  revert head. induction sig as [|b sig IH]; intros head; simpl.
  { split; [intros; apply prefix_nil|done]. }
  destruct head as [|c head].
  { split; [done|]. intros H. by apply prefix_nil_inv in H. }
  rewrite andb_true_iff, bool_decide_eq_true, IH. split.
  - intros [-> H]. by apply prefix_cons.
  - intros H. split; [by apply prefix_cons_inv_1 in H|by apply prefix_cons_inv_2 in H].
Qed.

Lemma detect_in_Some table head k :
  detect_in table head = Some k ->
  exists sig, (sig, k) ∈ table /\ sig `prefix_of` head.
Proof.
  induction table as [|[sig kind] table IH]; simpl; [done|].
  destruct (startswith head sig) eqn:E.
  - intros [= <-]. exists sig. split; [left|by apply startswith_prefix].
  - intros H. destruct (IH H) as (sig' & Hin & Hp). exists sig'. split; [by right|done].
Qed.

Lemma detect_in_None table head :
  detect_in table head = None ->
  forall sig k, (sig, k) ∈ table -> ~ sig `prefix_of` head.
Proof.
  induction table as [|[sig kind] table IH]; simpl; intros H sig' k Hin.
  { by apply elem_of_nil in Hin. }
  destruct (startswith head sig) eqn:E; [done|].
  apply elem_of_cons in Hin as [[= -> ->]|Hin].
  - rewrite <- startswith_prefix. congruence.
  - by eapply IH.
Qed.

(** No signature of the table begins another one. *)
Lemma MAGIC_prefix_free :
  forall s1 k1 s2 k2, (s1, k1) ∈ MAGIC -> (s2, k2) ∈ MAGIC ->
    s1 `prefix_of` s2 -> s1 = s2 /\ k1 = k2.
Proof.
  assert (forallb (fun p1 => forallb (fun p2 =>
            implb (startswith p2.1 p1.1)
                  (bool_decide (p1.1 = p2.1) && String.eqb p1.2 p2.2)) MAGIC)
            MAGIC = true) as H by (vm_compute; reflexivity).
  intros s1 k1 s2 k2 H1 H2 Hp.
  rewrite forallb_forall in H. apply list_elem_of_In, H in H1.
  rewrite forallb_forall in H1. apply list_elem_of_In, H1 in H2.
  simpl in H2. apply startswith_prefix in Hp. rewrite Hp in H2. simpl in H2.
  apply andb_true_iff in H2 as [Hs Hk].
  apply bool_decide_eq_true in Hs. apply String.eqb_eq in Hk. done.
Qed.

Lemma prefix_comparable {A} (a b c : list A) :
  a `prefix_of` c -> b `prefix_of` c -> a `prefix_of` b \/ b `prefix_of` a.
Proof. intros Ha Hb. by apply (prefix_weak_total a b c). Qed.

(** [detect_kind] returns the kind of a signature of [MAGIC] that begins
    [head], and [None] exactly when none does.  At most one signature
    begins a given [head], so the order of the table does not matter. *)
Theorem detect_kind_signature head :
  (forall k, detect_kind head = Some k <->
             exists sig, (sig, k) ∈ MAGIC /\ sig `prefix_of` head) /\
  (detect_kind head = None <->
   forall sig k, (sig, k) ∈ MAGIC -> ~ sig `prefix_of` head) /\
  (forall s1 k1 s2 k2, (s1, k1) ∈ MAGIC -> (s2, k2) ∈ MAGIC ->
     s1 `prefix_of` head -> s2 `prefix_of` head -> s1 = s2 /\ k1 = k2).
Proof.
  assert (Huniq : forall s1 k1 s2 k2, (s1, k1) ∈ MAGIC -> (s2, k2) ∈ MAGIC ->
            s1 `prefix_of` head -> s2 `prefix_of` head -> s1 = s2 /\ k1 = k2).
  { intros s1 k1 s2 k2 H1 H2 P1 P2.
    destruct (prefix_comparable s1 s2 head P1 P2) as [H|H].
    - by apply MAGIC_prefix_free.
    - destruct (MAGIC_prefix_free s2 k2 s1 k1 H2 H1 H) as [-> ->]. done. }
  assert (Hnone : detect_kind head = None <->
            forall sig k, (sig, k) ∈ MAGIC -> ~ sig `prefix_of` head).
  { split; [apply detect_in_None|]. intros H.
    destruct (detect_kind head) as [k|] eqn:E; [|done].
    apply detect_in_Some in E as (sig & Hin & Hp). by destruct (H sig k Hin). }
  split; [|split; [exact Hnone|exact Huniq]].
  intros k. split; [apply detect_in_Some|].
  intros (sig & Hin & Hp). destruct (detect_kind head) as [k'|] eqn:E.
  - apply detect_in_Some in E as (sig' & Hin' & Hp').
    by destruct (Huniq sig k sig' k' Hin Hin' Hp Hp') as [_ ->].
  - destruct Hnone as [Hn _]. by destruct (Hn eq_refl sig k Hin).
Qed.

(** The extensions and the signatures name the same kinds: each kind that
    has a signature has an extension, and each extension names a kind that
    has a signature. *)
Lemma tables_agree :
  (forall sig k, (sig, k) ∈ MAGIC -> exists ext, EXT_MAP !! ext = Some k) /\
  (forall ext k, EXT_MAP !! ext = Some k -> exists sig, (sig, k) ∈ MAGIC).
Proof.
  split.
  - assert (forallb (fun p => existsb (fun q => String.eqb q.2 p.2)
                                (map_to_list EXT_MAP)) MAGIC = true) as H
      by (vm_compute; reflexivity).
    intros sig k Hin. rewrite forallb_forall in H.
    apply list_elem_of_In, H in Hin. apply existsb_exists in Hin as ([ext k'] & Hq & Hk).
    apply String.eqb_eq in Hk. simpl in Hk. subst k'.
    exists ext. by apply elem_of_map_to_list, list_elem_of_In.
  - assert (forallb (fun q => existsb (fun p => String.eqb p.2 q.2) MAGIC)
                    (map_to_list EXT_MAP) = true) as H
      by (vm_compute; reflexivity).
    intros ext k Hin. rewrite forallb_forall in H.
    apply elem_of_map_to_list, list_elem_of_In, H in Hin.
    apply existsb_exists in Hin as ([sig k'] & Hq & Hk).
    apply String.eqb_eq in Hk. simpl in Hk. subst k'.
    exists sig. by apply list_elem_of_In.
Qed.

(** [looks_like_extension_mismatch] reports a mismatch exactly when a
    signature begins [head] and the extension, lower-cased, is not one of
    the kind of that signature; the message is empty exactly when no
    mismatch is reported.  A head that matches no signature, as the empty
    head of a file that cannot be read, is never reported; nor is a head
    with an extension of its kind, and each kind has one. *)
Theorem mismatch_reported ext head :
  ((looks_like_extension_mismatch ext head).1 = true <->
   exists hk, detect_kind head = Some hk /\ extension_kind ext <> Some hk) /\
  ((looks_like_extension_mismatch ext head).1 = false <->
   (looks_like_extension_mismatch ext head).2 = "") /\
  (detect_kind head = None -> looks_like_extension_mismatch ext head = (false, "")) /\
  looks_like_extension_mismatch ext [] = (false, "") /\
  (forall hk, detect_kind head = Some hk ->
     exists ext', extension_kind ext' = Some hk /\
                  looks_like_extension_mismatch ext' head = (false, "")).
Proof.
  unfold looks_like_extension_mismatch.
  split; [|split; [|split; [|split]]].
  - destruct (detect_kind head) as [hk|]; simpl.
    + destruct (extension_kind ext) as [ek|]; simpl.
      * destruct (decide (ek <> hk)) as [Hne|He]; simpl.
        -- split; [|done]. intros _. exists hk. split; [done|]. congruence.
        -- apply dec_stable in He. subst ek. split; [done|].
           intros (hk' & [= <-] & H). done.
      * split; [|done]. intros _. by exists hk.
    + split; [done|]. by intros (hk & H & _).
  - destruct (detect_kind head) as [hk|]; simpl; [|done].
    destruct (extension_kind ext) as [ek|]; simpl; [|done].
    destruct (decide (ek <> hk)); simpl; done.
  - by intros ->.
  - done.
  - intros hk Hd. rewrite Hd.
    apply detect_in_Some in Hd as (sig & Hin & _).
    destruct tables_agree as [H _]. destruct (H sig hk Hin) as [ext' He].
    assert (posix.lower ext' = ext') as Hl.
    { assert (forallb (fun q => String.eqb (posix.lower q.1) q.1)
                      (map_to_list EXT_MAP) = true) as Hall
        by (vm_compute; reflexivity).
      rewrite forallb_forall in Hall.
      apply elem_of_map_to_list, list_elem_of_In, Hall in He.
      by apply String.eqb_eq in He. }
    exists ext'. unfold extension_kind. rewrite Hl, He.
    split; [done|]. by destruct (decide (hk <> hk)).
Qed.

End magic.

(* ===================================================================== *)
(** * Part XIV. [crypto_tools.py]

    A file is the list of its bytes.  [Scrypt], [AESGCM] and [os.urandom]
    are libraries: the key derivation and the cipher are functions given to
    the model, the random bytes come from a stream.  Files can be opened;
    the progress callback is not modelled. *)

Module crypto_tools.
Import Stdlib.Init.Byte.

#[local] Instance byte_eq_dec : EqDecision byte := Byte.byte_eq_dec.

Definition bytes : Type := list byte.

Definition MAGIC : bytes := [x44; x41; x54; x4c; x41; x53; x31].  (* b"DATLAS1" *)
Definition VERSION : Z := 1.
Definition DEFAULT_CHUNK : Z := 1024 * 1024.

Inductive error : Type :=
| StructError                  (* struct.error *)
| ValueError (msg : string)
| RuntimeError (msg : string)
| InvalidTag                   (* raised by [AESGCM.decrypt] *)
| OutOfFuel.                   (* the model of a [while True] ran out of fuel *)

(** ** [struct.pack] and [struct.unpack], little-endian and unsigned:
    ["B"], ["<I"] and ["<Q"] are the widths 1, 4 and 8. *)
Definition byte_of (n : Z) : byte :=
  default x00 (Byte.of_N (Z.to_N (n mod 256))).

Fixpoint le_bytes (width : nat) (n : Z) : bytes :=
  match width with
  | O => []
  | S width' => byte_of n :: le_bytes width' (n / 256)
  end.

Fixpoint le_value (b : bytes) : Z :=
  match b with
  | [] => 0
  | c :: b' => Z.of_N (Byte.to_N c) + 256 * le_value b'
  end.

Definition pack (width : nat) (n : Z) : error + bytes :=
  if (0 <=? n) && (n <? 256 ^ Z.of_nat width) then inr (le_bytes width n)
  else inl StructError.

Definition unpack (width : nat) (b : bytes) : error + Z :=
  if decide (length b = width) then inr (le_value b) else inl StructError.

(** ** The files and the other effects *)

(** The bytes of the input file not read yet, the output file ([None]
    until it is opened), the number of calls made to [cancel_flag], and the
    number of random bytes drawn. *)
Record world : Type := mkWorld {
  fin : bytes;
  fout : option bytes;
  polls : nat;
  drawn : nat
}.

Inductive outcome (A : Type) : Type :=
| Return (a : A)
| Raise (e : error).
Arguments Return {A} a.
Arguments Raise {A} e.

Definition M (A : Type) : Type := world -> outcome A * world.

#[local] Instance M_ret : MRet M := fun A a w => (Return a, w).
#[local] Instance M_bind : MBind M := fun A B k m w =>
  match m w with
  | (Return a, w') => k a w'
  | (Raise e, w') => (Raise e, w')
  end.

Definition raise {A} (e : error) : M A := fun w => (Raise e, w).

Definition lift {A} (r : error + A) : M A :=
  match r with inl e => raise e | inr a => mret a end.

(** [fin.read(n)] for [n >= 0] *)
Definition read (n : Z) : M bytes := fun w =>
  (Return (take (Z.to_nat n) (fin w)),
   mkWorld (drop (Z.to_nat n) (fin w)) (fout w) (polls w) (drawn w)).

(** [open(out_path, "wb")] *)
Definition open_out : M unit := fun w =>
  (Return tt, mkWorld (fin w) (Some []) (polls w) (drawn w)).

(** [fout.write(b)] *)
Definition write (b : bytes) : M unit := fun w =>
  (Return tt, mkWorld (fin w) (Some (default [] (fout w) ++ b)) (polls w) (drawn w)).

(** [fout.truncate(n)]; where the file grows, the new bytes are zero. *)
Definition truncate (n : Z) : M unit := fun w =>
  let old := default [] (fout w) in
  (Return tt,
   mkWorld (fin w)
           (Some (take (Z.to_nat n) old
                    ++ replicate (Z.to_nat n - length old) x00))
           (polls w) (drawn w)).

Section crypto.
(** [Scrypt(salt, length, n, r, p).derive(password)] *)
Variable Scrypt : bytes -> Z -> Z -> Z -> Z -> bytes -> bytes.
(** [AESGCM(key).encrypt(nonce, data, None)]; [.decrypt(nonce, data, None)]
    is [None] when it raises [InvalidTag]. *)
Variable aes_encrypt : bytes -> bytes -> bytes -> bytes.
Variable aes_decrypt : bytes -> bytes -> bytes -> option bytes.
(** The stream of the bytes [os.urandom] returns. *)
Variable random : nat -> byte.
(** [cancel_flag], when given, answers its [k]-th call with [f k]. *)
Variable cancel_flag : option (nat -> bool).

(** [os.urandom(n)] *)
Definition urandom (n : nat) : M bytes := fun w =>
  (Return (random <$> seq (drawn w) n),
   mkWorld (fin w) (fout w) (polls w) (drawn w + n)).

(** [cancel_flag and cancel_flag()] *)
Definition poll : M bool := fun w =>
  match cancel_flag with
  | None => (Return false, w)
  | Some f => (Return (f (polls w)),
               mkWorld (fin w) (fout w) (S (polls w)) (drawn w))
  end.

Definition is_diskatlas_file (content : bytes) : bool :=
  bool_decide (take (length MAGIC) content = MAGIC).

Definition _derive_key (password : string) (salt : bytes) : bytes :=
  Scrypt salt 32 (2 ^ 15) 8 1 (list_byte_of_string password).

(** The [while True] loop of [encrypt_file]. *)
Fixpoint encrypt_loop (fuel : nat) (key : bytes) (chunk_size : Z) : M unit :=
  match fuel with
  | O => raise OutOfFuel
  | S fuel' =>
      cancelled ← poll;
      if cancelled : bool then raise (RuntimeError "Cancelled") else
      chunk ← read chunk_size;
      if decide (chunk = []) then mret tt else
      nonce ← urandom 12;
      let ct := aes_encrypt key nonce chunk in
      _ ← write nonce;
      len ← lift (pack 4 (Z.of_nat (length ct)));
      _ ← write len;
      _ ← write ct;
      encrypt_loop fuel' key chunk_size
  end.

(** [encrypt_file]; [total] is [os.path.getsize(in_path)], the length of
    the input file.  Each turn of the loop but the last reads a byte at
    least. *)
Definition encrypt_file (password : string) (chunk_size : Z) : M unit :=
  salt ← urandom 16;
  let key := _derive_key password salt in
  total ← (fun w => (Return (Z.of_nat (length (fin w))), w));
  _ ← open_out;
  _ ← write MAGIC;
  v ← lift (pack 1 VERSION);
  _ ← write v;
  _ ← write salt;
  c ← lift (pack 4 chunk_size);
  _ ← write c;
  t ← lift (pack 8 total);
  _ ← write t;
  w ← (fun w => (Return w, w));
  encrypt_loop (S (length (fin w))) key chunk_size.

(** The [while True] loop of [decrypt_file]. *)
Fixpoint decrypt_loop (fuel : nat) (key : bytes) : M unit :=
  match fuel with
  | O => raise OutOfFuel
  | S fuel' =>
      cancelled ← poll;
      if cancelled : bool then raise (RuntimeError "Cancelled") else
      nonce ← read 12;
      if decide (nonce = []) then mret tt else
      ct_len_bytes ← read 4;
      if decide (length ct_len_bytes < 4)%nat then mret tt else
      ct_len ← lift (unpack 4 ct_len_bytes);
      ct ← read ct_len;
      if decide (Z.of_nat (length ct) <> ct_len)
      then raise (ValueError "Файл повреждён (недостаточно данных).") else
      match aes_decrypt key nonce ct with
      | None => raise InvalidTag
      | Some pt =>
          _ ← write pt;
          decrypt_loop fuel' key
      end
  end.

Definition decrypt_file (password : string) : M unit :=
  magic ← read (Z.of_nat (length MAGIC));
  if decide (magic <> MAGIC)
  then raise (ValueError "Это не файл DiskAtlasPy (MAGIC не совпадает).") else
  b ← read 1;
  ver ← lift (unpack 1 b);
  if decide (ver <> VERSION)
  then raise (ValueError ("Неподдерживаемая версия формата: " +:+ pretty ver)) else
  salt ← read 16;
  b ← read 4;
  chunk_size ← lift (unpack 4 b);
  b ← read 8;
  orig_size ← lift (unpack 8 b);
  let key := _derive_key password salt in
  _ ← open_out;
  w ← (fun w => (Return w, w));
  _ ← decrypt_loop (S (length (fin w))) key;
  truncate orig_size.

(** A run on an input file, with no output file yet. *)
Definition start (input : bytes) : world := mkWorld input None 0 0.

(* --------------------------------------------------------------------- *)
(** ** [struct]: packing and unpacking *)

Lemma to_N_byte_of n : Z.of_N (Byte.to_N (byte_of n)) = n mod 256.
Proof.
  unfold byte_of. pose proof (Z.mod_pos_bound n 256 ltac:(lia)) as Hb.
  destruct (Byte.of_N (Z.to_N (n mod 256))) as [b|] eqn:E; simpl.
  - apply Byte.to_of_N in E. rewrite E. lia.
  - apply Byte.of_N_None_iff in E. lia.
Qed.

Lemma length_le_bytes width : forall n, length (le_bytes width n) = width.
Proof. induction width as [|width IH]; intros n; simpl; [done|by rewrite IH]. Qed.

Lemma le_value_le_bytes width : forall n,
  0 <= n < 256 ^ Z.of_nat width -> le_value (le_bytes width n) = n.
Proof.
  induction width as [|width IH]; intros n Hn; simpl.
  { simpl in Hn. lia. }
  rewrite to_N_byte_of, IH.
  - pose proof (Z.div_mod n 256 ltac:(lia)). lia.
  - rewrite Nat2Z.inj_succ, Z.pow_succ_r in Hn by lia.
    split; [apply Z.div_pos; lia|]. apply Z.div_lt_upper_bound; lia.
Qed.

Lemma le_value_bound b : 0 <= le_value b < 256 ^ Z.of_nat (length b).
Proof.
  induction b as [|c b IH]; simpl length; [simpl; lia|].
  rewrite Nat2Z.inj_succ, Z.pow_succ_r by lia. simpl le_value.
  pose proof (Byte.to_N_bounded c). lia.
Qed.

(** What is packed is unpacked: [unpack(pack(n)) = n], and [pack] raises
    [struct.error] exactly out of the range of the format. *)
Lemma unpack_pack width n :
  match pack width n with
  | inr b => length b = width /\ unpack width b = inr n /\
             0 <= n < 256 ^ Z.of_nat width
  | inl e => e = StructError /\ ~ 0 <= n < 256 ^ Z.of_nat width
  end.
Proof.
  unfold pack. destruct (Z.leb_spec 0 n), (Z.ltb_spec n (256 ^ Z.of_nat width));
    simpl; try (split; [done|lia]).
  split; [apply length_le_bytes|]. split; [|lia].
  unfold unpack. rewrite length_le_bytes.
  destruct (decide (width = width)); [|done]. by rewrite le_value_le_bytes.
Qed.

Lemma pack_ok width n :
  0 <= n < 256 ^ Z.of_nat width -> pack width n = inr (le_bytes width n).
Proof.
  intros Hn. unfold pack.
  destruct (Z.leb_spec 0 n), (Z.ltb_spec n (256 ^ Z.of_nat width)); simpl;
    try done; lia.
Qed.

Lemma unpack_le_bytes width n :
  0 <= n < 256 ^ Z.of_nat width -> unpack width (le_bytes width n) = inr n.
Proof.
  intros Hn. unfold unpack. rewrite length_le_bytes.
  destruct (decide (width = width)); [|done]. by rewrite le_value_le_bytes.
Qed.

(* --------------------------------------------------------------------- *)
(** ** Reading what was written *)

Lemma read_app a rest n o p d :
  Z.to_nat n = length a ->
  read n (mkWorld (a ++ rest) o p d) = (Return a, mkWorld rest o p d).
Proof.
  intros Hn. unfold read. simpl. rewrite Hn.
  by rewrite take_app_length, drop_app_length.
Qed.

Lemma poll_None w : cancel_flag = None -> poll w = (Return false, w).
Proof. intros Hc. unfold poll. by rewrite Hc. Qed.

(** One chunk in the output file: the nonce, the length of the ciphertext
    and the ciphertext. *)
Definition chunk_record (key nonce chunk : bytes) : bytes :=
  nonce ++ le_bytes 4 (Z.of_nat (length (aes_encrypt key nonce chunk)))
        ++ aes_encrypt key nonce chunk.

(** The cipher decrypts what it encrypted, and a ciphertext is 16 bytes,
    the tag, longer than the plaintext. *)
Definition cipher_ok : Prop :=
  (forall key nonce pt, aes_decrypt key nonce (aes_encrypt key nonce pt) = Some pt) /\
  (forall key nonce pt,
     length (aes_encrypt key nonce pt) = (length pt + 16)%nat).

Lemma loops_round_trip key chunk_size :
  cancel_flag = None -> cipher_ok ->
  0 < chunk_size -> chunk_size + 16 < 2 ^ 32 ->
  forall fuel data out p d,
  (length data < fuel)%nat ->
  exists body d',
    encrypt_loop fuel key chunk_size (mkWorld data (Some out) p d) =
      (Return tt, mkWorld [] (Some (out ++ body)) p d') /\
    Z.of_nat (length body) =
      Z.of_nat (length data)
      + 32 * ((Z.of_nat (length data) + chunk_size - 1) / chunk_size) /\
    forall fuel' out' p' d'',
      (length body < fuel')%nat ->
      decrypt_loop fuel' key (mkWorld body (Some out') p' d'') =
        (Return tt, mkWorld [] (Some (out' ++ data)) p' d'').
Proof.
  intros Hc [Hdec Hlen] Hpos Hmax.
  induction fuel as [|fuel IH]; intros data out p d Hfuel; [lia|].
  cbn [encrypt_loop]. unfold mbind at 1, M_bind at 1. rewrite poll_None by done.
  unfold mbind at 1, M_bind at 1. unfold read at 1. cbn [fin fout polls drawn].
  destruct (decide (take (Z.to_nat chunk_size) data = [])) as [E|Hne].
  { assert (data = []) as ->.
    { destruct data as [|b data]; [done|].
      destruct (Z.to_nat chunk_size) eqn:En; [lia|done]. }
    exists [], d. rewrite app_nil_r. split; [by rewrite drop_nil|].
    split; [simpl; rewrite Z.div_small by lia; lia|].
    intros [|fuel'] out' p' d'' Hf; [simpl in Hf; lia|].
    cbn [decrypt_loop]. unfold mbind at 1, M_bind at 1. rewrite poll_None by done.
    unfold mbind at 1, M_bind at 1. unfold read at 1. cbn.
    by rewrite app_nil_r. }
  set (chunk := take (Z.to_nat chunk_size) data) in *.
  set (rest := drop (Z.to_nat chunk_size) data).
  set (nonce := random <$> seq d 12).
  set (ct := aes_encrypt key nonce chunk).
  assert (length chunk <= Z.to_nat chunk_size)%nat as Hcl
    by (unfold chunk; rewrite length_take; lia).
  assert (0 < length chunk)%nat as Hc0 by (destruct chunk; [done|simpl; lia]).
  assert (0 <= Z.of_nat (length ct) < 256 ^ Z.of_nat 4) as Hct.
  { unfold ct. rewrite Hlen. change (256 ^ Z.of_nat 4) with (2 ^ 32). lia. }
  assert (length rest < fuel)%nat as Hrest.
  { unfold rest. rewrite length_drop.
    assert (length chunk = Nat.min (Z.to_nat chunk_size) (length data)) as Hm
      by (unfold chunk; apply length_take).
    lia. }
  destruct (IH rest (out ++ chunk_record key nonce chunk) p (d + 12)%nat Hrest)
    as (body & d' & Henc & Hbody & Hdecr).
  exists (chunk_record key nonce chunk ++ body), d'. split; [|split].
  - unfold mbind, M_bind, urandom, write, lift. cbn [fin fout polls drawn default].
    rewrite pack_ok by done. unfold mret, M_ret.
    cbn [fin fout polls drawn default].
    fold nonce. fold ct. unfold id.
    replace (((out ++ nonce) ++ le_bytes 4 (Z.of_nat (length ct))) ++ ct)
      with (out ++ chunk_record key nonce chunk)
      by (unfold chunk_record; fold ct; by rewrite <- !app_assoc).
    rewrite (app_assoc out). exact Henc.
  - rewrite length_app, Nat2Z.inj_add, Hbody. unfold chunk_record. fold ct.
    rewrite !length_app, length_le_bytes. unfold ct at 1. rewrite Hlen.
    unfold nonce. rewrite length_fmap, length_seq.
    assert (length data = length chunk + length rest)%nat as Hsplit.
    { unfold chunk, rest. by rewrite <- length_app, take_drop. }
    rewrite Hsplit.
    assert ((Z.of_nat (length chunk + length rest) + chunk_size - 1) / chunk_size =
            (Z.of_nat (length rest) + chunk_size - 1) / chunk_size + 1) as ->; [|lia].
    destruct (decide (length data <= Z.to_nat chunk_size)%nat) as [Hsm|Hbig].
    + assert (length rest = 0)%nat as Hr0.
      { unfold rest. rewrite length_drop. lia. }
      rewrite Hr0. simpl Z.of_nat.
      rewrite (Z.div_small (0 + chunk_size - 1)) by lia.
      symmetry. apply Z.div_unique with (Z.of_nat (length chunk) - 1); lia.
    + assert (length chunk = Z.to_nat chunk_size) as Hcf.
      { unfold chunk. rewrite length_take. lia. }
      replace (Z.of_nat (length chunk + length rest) + chunk_size - 1)
        with (Z.of_nat (length rest) + chunk_size - 1 + 1 * chunk_size) by lia.
      rewrite Z.div_add by lia. done.
  - intros [|fuel'] out' p' d'' Hf; [simpl in Hf; lia|].
    cbn [decrypt_loop]. unfold mbind at 1, M_bind at 1. rewrite poll_None by done.
    unfold chunk_record. fold ct. rewrite <- !app_assoc.
    unfold mbind at 1, M_bind at 1.
    rewrite read_app by (unfold nonce; rewrite length_fmap, length_seq; lia).
    destruct (decide (nonce = [])) as [En|_].
    { unfold nonce in En. simpl in En. discriminate. }
    unfold mbind at 1, M_bind at 1.
    rewrite read_app by (rewrite length_le_bytes; lia).
    rewrite length_le_bytes.
    destruct (decide (4 < 4)%nat) as [?|_]; [lia|].
    unfold mbind at 1, M_bind at 1. rewrite unpack_le_bytes by done.
    unfold lift, mret, M_ret.
    unfold mbind at 1, M_bind at 1.
    rewrite read_app by lia.
    destruct (decide (Z.of_nat (length ct) <> Z.of_nat (length ct))) as [?|_]; [done|].
    unfold ct at 1. rewrite Hdec.
    unfold mbind at 1, M_bind at 1. unfold write at 1.
    cbn [fin fout polls drawn default from_option id].
    rewrite Hdecr.
    + rewrite <- app_assoc. unfold chunk, rest. by rewrite take_drop.
    + unfold chunk_record in Hf.
      rewrite !length_app, length_le_bytes in Hf. unfold nonce in Hf.
      rewrite length_fmap, length_seq in Hf. lia.
Qed.

(* --------------------------------------------------------------------- *)
(** ** The container *)

(** The 36 bytes before the chunks: the magic, the version, the salt, the
    chunk size and the size of the plaintext. *)
Definition header (salt : bytes) (chunk_size total : Z) : bytes :=
  MAGIC ++ le_bytes 1 VERSION ++ salt ++ le_bytes 4 chunk_size ++ le_bytes 8 total.

Lemma encrypt_file_header password chunk_size data :
  0 <= chunk_size < 2 ^ 32 -> Z.of_nat (length data) < 2 ^ 64 ->
  let salt := random <$> seq 0 16 in
  encrypt_file password chunk_size (start data) =
  encrypt_loop (S (length data)) (_derive_key password salt) chunk_size
    (mkWorld data (Some (header salt chunk_size (Z.of_nat (length data)))) 0 16).
Proof.
  intros Hc Ht salt. unfold encrypt_file, start.
  unfold mbind, M_bind, urandom, open_out, write, lift.
  cbn [fin fout polls drawn default from_option id].
  change (pack 1 VERSION) with (inr (B := bytes) (A := error) (le_bytes 1 VERSION)).
  rewrite (pack_ok 4 chunk_size) by (change (256 ^ Z.of_nat 4) with (2 ^ 32); lia).
  rewrite (pack_ok 8) by (change (256 ^ Z.of_nat 8) with (2 ^ 64); lia).
  unfold mret, M_ret. cbn [fin fout polls drawn default from_option id].
  unfold header, id. fold salt. by rewrite <- !app_assoc.
Qed.

Lemma decrypt_file_header password salt chunk_size total body :
  length salt = 16%nat -> 0 <= chunk_size < 2 ^ 32 -> 0 <= total < 2 ^ 64 ->
  decrypt_file password (start (header salt chunk_size total ++ body)) =
  match decrypt_loop (S (length body)) (_derive_key password salt)
          (mkWorld body (Some []) 0 0) with
  | (Return _, w) => truncate total w
  | (Raise e, w) => (Raise e, w)
  end.
Proof.
  intros Hs Hc Ht. unfold decrypt_file, start, header.
  rewrite <- !app_assoc.
  unfold mbind at 1, M_bind at 1. rewrite read_app by done.
  destruct (decide (MAGIC <> MAGIC)) as [?|_]; [done|].
  unfold mbind at 1, M_bind at 1. rewrite read_app by done.
  unfold mbind at 1, M_bind at 1.
  change (unpack 1 (le_bytes 1 VERSION)) with (inr (A := error) VERSION).
  unfold lift at 1, mret at 1, M_ret at 1.
  destruct (decide (VERSION <> VERSION)) as [?|_]; [done|].
  unfold mbind at 1, M_bind at 1. rewrite read_app by (rewrite Hs; done).
  unfold mbind at 1, M_bind at 1. rewrite read_app by (by rewrite length_le_bytes).
  unfold mbind at 1, M_bind at 1.
  rewrite unpack_le_bytes by (change (256 ^ Z.of_nat 4) with (2 ^ 32); lia).
  unfold lift at 1, mret at 1, M_ret at 1.
  unfold mbind at 1, M_bind at 1. rewrite read_app by (by rewrite length_le_bytes).
  unfold mbind at 1, M_bind at 1.
  rewrite unpack_le_bytes by (change (256 ^ Z.of_nat 8) with (2 ^ 64); lia).
  unfold lift at 1, mret at 1, M_ret at 1.
  unfold mbind, M_bind, open_out. cbn [fin fout polls drawn].
  done.
Qed.

(** Encrypting and then decrypting with the same password gives the file
    back.  The chunk size is positive and a ciphertext of a chunk fits the
    32 bits of its length field (the sizes [app.py] passes, 64 KB to 16 MB,
    do); the plaintext is shorter than 2^64 bytes; nothing is cancelled.
    The encrypted file is recognised by [is_diskatlas_file] and is 36 bytes
    and 32 bytes for each chunk longer than the plaintext. *)
Theorem decrypt_encrypt password chunk_size data :
  cancel_flag = None -> cipher_ok ->
  0 < chunk_size -> chunk_size + 16 < 2 ^ 32 ->
  Z.of_nat (length data) < 2 ^ 64 ->
  exists enc w w',
    encrypt_file password chunk_size (start data) = (Return tt, w) /\
    fout w = Some enc /\
    is_diskatlas_file enc = true /\
    Z.of_nat (length enc) =
      36 + Z.of_nat (length data)
      + 32 * ((Z.of_nat (length data) + chunk_size - 1) / chunk_size) /\
    decrypt_file password (start enc) = (Return tt, w') /\
    fout w' = Some data.
Proof.
  intros Hc Hok Hpos Hmax Hlen.
  rewrite encrypt_file_header by lia.
  set (salt := random <$> seq 0 16).
  set (key := _derive_key password salt).
  set (hd := header salt chunk_size (Z.of_nat (length data))).
  destruct (loops_round_trip key chunk_size Hc Hok Hpos Hmax (S (length data))
              data hd 0%nat 16%nat ltac:(lia)) as (body & d' & Henc & Hbody & Hdec).
  exists (hd ++ body). eexists. eexists.
  split; [exact Henc|]. split; [done|]. split; [done|]. split.
  { rewrite length_app, Nat2Z.inj_add, Hbody. unfold hd, header.
    rewrite !length_app, !length_le_bytes. unfold salt.
    rewrite length_fmap, length_seq. simpl length. lia. }
  unfold hd. rewrite decrypt_file_header; [|done|lia|lia].
  fold key. rewrite Hdec by lia. unfold truncate. cbn [fin fout polls drawn default from_option id].
  split; [reflexivity|]. cbn [fout]. f_equal. unfold id.
  rewrite Nat2Z.id, take_ge by (simpl; lia).
  rewrite Nat.sub_diag. simpl. by rewrite app_nil_r.
Qed.

(* --------------------------------------------------------------------- *)
(** ** What the two functions can do *)

Definition msg_magic : string := "Это не файл DiskAtlasPy (MAGIC не совпадает).".
Definition msg_corrupt : string := "Файл повреждён (недостаточно данных).".

Lemma poll_world w :
  fin (poll w).2 = fin w /\ fout (poll w).2 = fout w /\
  exists b, (poll w).1 = Return b.
Proof. unfold poll. destruct cancel_flag; simpl; eauto. Qed.

(** The loop of [encrypt_file] ends: it returns, or raises [struct.error]
    or [RuntimeError("Cancelled")]; it only appends to the output file. *)
Lemma encrypt_loop_ends key chunk_size : forall fuel w out,
  fout w = Some out -> (length (fin w) < fuel)%nat ->
  match encrypt_loop fuel key chunk_size w with
  | (o, w') =>
      (o = Return tt \/ o = Raise StructError \/
       o = Raise (RuntimeError "Cancelled")) /\
      exists out', fout w' = Some out' /\ out `prefix_of` out'
  end.
Proof.
  induction fuel as [|fuel IH]; intros w out Hout Hfuel; [lia|].
  cbn [encrypt_loop]. unfold mbind at 1, M_bind at 1.
  destruct (poll_world w) as (Hpf & Hpo & b & Hb).
  destruct (poll w) as [o1 w1]. simpl in Hpf, Hpo, Hb. subst o1.
  destruct b.
  { unfold raise. split; [auto|]. exists out. by rewrite Hpo. }
  unfold mbind at 1, M_bind at 1. unfold read at 1.
  destruct (decide (take (Z.to_nat chunk_size) (fin w1) = [])) as [E|Hne].
  { unfold mret, M_ret. split; [auto|]. exists out. simpl. by rewrite Hpo. }
  assert (length (drop (Z.to_nat chunk_size) (fin w1)) < fuel)%nat as Hlt.
  { rewrite length_drop. rewrite Hpf in *.
    assert (0 < Z.to_nat chunk_size)%nat.
    { destruct (Z.to_nat chunk_size); [|lia]. by rewrite take_0 in Hne. }
    assert (fin w <> []).
    { intros E. rewrite E in Hne. by rewrite take_nil in Hne. }
    destruct (fin w); [done|simpl in *; lia]. }
  unfold mbind at 1, M_bind at 1. unfold urandom at 1. cbn [fin fout polls drawn].
  unfold mbind at 1, M_bind at 1. unfold write at 1. cbn [fin fout polls drawn].
  rewrite Hpo, Hout. cbn [default from_option id]. unfold id.
  set (nonce := random <$> seq (drawn w1) 12).
  set (chunk := take (Z.to_nat chunk_size) (fin w1)) in *.
  unfold mbind at 1, M_bind at 1.
  destruct (pack 4 (Z.of_nat (length (aes_encrypt key nonce chunk)))) as [e|len] eqn:Ep.
  { pose proof (unpack_pack 4 (Z.of_nat (length (aes_encrypt key nonce chunk)))) as H.
    rewrite Ep in H. destruct H as [-> _]. unfold lift, raise.
    split; [auto|]. eexists. split; [reflexivity|]. by apply prefix_app_r. }
  unfold lift at 1, mret at 1, M_ret at 1.
  unfold mbind at 1, M_bind at 1. unfold write at 1. cbn [fin fout polls drawn].
  cbn [default from_option id]. unfold id.
  unfold mbind at 1, M_bind at 1. unfold write at 1. cbn [fin fout polls drawn].
  cbn [default from_option id]. unfold id.
  match goal with |- context [encrypt_loop fuel key chunk_size ?w2] =>
    pose proof (IH w2 _ eq_refl) as H end.
  cbn [fin] in H. specialize (H Hlt).
  destruct (encrypt_loop fuel key chunk_size _) as [o w'].
  destruct H as [Ho (out' & Hout' & Hp)]. split; [done|].
  exists out'. split; [done|].
  etransitivity; [|exact Hp]. rewrite <- !app_assoc. by apply prefix_app_r.
Qed.

(** [encrypt_file] ends in one of three ways: it returns, it raises
    [struct.error], or it raises [RuntimeError("Cancelled")].  In each the
    output file exists and begins with [MAGIC]: [is_diskatlas_file] accepts
    what a failed or cancelled encryption leaves.  A chunk size out of the
    range of 32 bits raises [struct.error] once the magic, the version and
    the salt are written. *)
Theorem encrypt_file_outcomes password chunk_size data :
  match encrypt_file password chunk_size (start data) with
  | (o, w) =>
      (o = Return tt \/ o = Raise StructError \/
       o = Raise (RuntimeError "Cancelled")) /\
      (exists out, fout w = Some out /\ is_diskatlas_file out = true) /\
      (~ 0 <= chunk_size < 2 ^ 32 ->
       o = Raise StructError /\
       fout w = Some (MAGIC ++ le_bytes 1 VERSION ++ (random <$> seq 0 16)))
  end.
Proof.
  unfold encrypt_file, start.
  unfold mbind at 1, M_bind at 1. unfold urandom at 1. cbn [fin fout polls drawn].
  set (salt := random <$> seq 0 16). set (key := _derive_key password salt).
  unfold mbind at 1, M_bind at 1. cbn [fin].
  unfold mbind at 1, M_bind at 1. unfold open_out at 1. cbn [fin fout polls drawn].
  unfold mbind at 1, M_bind at 1. unfold write at 1.
  cbn [fin fout polls drawn default from_option id]. unfold id.
  unfold mbind at 1, M_bind at 1.
  change (pack 1 VERSION) with (inr (B := bytes) (A := error) (le_bytes 1 VERSION)).
  unfold lift at 1, mret at 1, M_ret at 1.
  unfold mbind at 1, M_bind at 1. unfold write at 1.
  cbn [fin fout polls drawn default from_option id]. unfold id.
  unfold mbind at 1, M_bind at 1. unfold write at 1.
  cbn [fin fout polls drawn default from_option id]. unfold id.
  unfold mbind at 1, M_bind at 1.
  pose proof (unpack_pack 4 chunk_size) as Hc.
  change (256 ^ Z.of_nat 4) with (2 ^ 32) in Hc.
  destruct (pack 4 chunk_size) as [e|c].
  { destruct Hc as [-> Hc]. unfold lift, raise. split; [auto|].
    split; [by eexists|]. intros _. split; [done|]. by rewrite <- !app_assoc. }
  destruct Hc as (_ & _ & Hc).
  unfold lift at 1, mret at 1, M_ret at 1.
  unfold mbind at 1, M_bind at 1. unfold write at 1.
  cbn [fin fout polls drawn default from_option id]. unfold id.
  unfold mbind at 1, M_bind at 1.
  pose proof (unpack_pack 8 (Z.of_nat (length data))) as Ht.
  destruct (pack 8 (Z.of_nat (length data))) as [e|t].
  { destruct Ht as [-> Ht]. unfold lift, raise. split; [auto|].
    split; [by eexists|]. intros H. lia. }
  unfold lift at 1, mret at 1, M_ret at 1.
  unfold mbind at 1, M_bind at 1. unfold write at 1.
  cbn [fin fout polls drawn default from_option id]. unfold id.
  unfold mbind at 1, M_bind at 1. cbn [fin].
  match goal with |- context [encrypt_loop _ key chunk_size ?w2] =>
    pose proof (encrypt_loop_ends key chunk_size (S (length data)) w2 _ eq_refl) as H
  end.
  cbn [fin] in H. specialize (H ltac:(lia)).
  destruct (encrypt_loop _ key chunk_size _) as [o w].
  destruct H as [Ho (out' & Hout' & [rest Hp])]. split; [done|]. split; [|intros; lia].
  exists out'. split; [done|]. rewrite Hp. by rewrite <- !app_assoc.
Qed.

(** The loop of [decrypt_file] ends: it returns, or raises
    [RuntimeError("Cancelled")], [ValueError] for a chunk cut short, or
    [InvalidTag]. *)
Lemma decrypt_loop_ends key : forall fuel w out,
  fout w = Some out -> (length (fin w) < fuel)%nat ->
  match decrypt_loop fuel key w with
  | (o, w') =>
      (o = Return tt \/ o = Raise (RuntimeError "Cancelled") \/
       o = Raise (ValueError msg_corrupt) \/ o = Raise InvalidTag) /\
      exists out', fout w' = Some out'
  end.
Proof.
  induction fuel as [|fuel IH]; intros w out Hout Hfuel; [lia|].
  cbn [decrypt_loop]. unfold mbind at 1, M_bind at 1.
  destruct (poll_world w) as (Hpf & Hpo & b & Hb).
  destruct (poll w) as [o1 w1]. simpl in Hpf, Hpo, Hb. subst o1.
  destruct b.
  { unfold raise. split; [auto|]. exists out. by rewrite Hpo. }
  unfold mbind at 1, M_bind at 1. unfold read at 1.
  destruct (decide (take (Z.to_nat 12) (fin w1) = [])) as [E|Hne].
  { unfold mret, M_ret. split; [auto|]. exists out. simpl. by rewrite Hpo. }
  unfold mbind at 1, M_bind at 1. unfold read at 1. cbn [fin fout polls drawn].
  destruct (decide (length (take (Z.to_nat 4) (drop (Z.to_nat 12) (fin w1))) < 4)%nat)
    as [Hshort|Hfull].
  { unfold mret, M_ret. split; [auto|]. exists out. simpl. by rewrite Hpo. }
  unfold mbind at 1, M_bind at 1. unfold unpack.
  destruct (decide (length (take (Z.to_nat 4) (drop (Z.to_nat 12) (fin w1))) = 4%nat))
    as [_|Hbad].
  2:{ rewrite length_take in Hfull, Hbad. lia. }
  unfold lift at 1, mret at 1, M_ret at 1.
  unfold mbind at 1, M_bind at 1. unfold read at 1. cbn [fin fout polls drawn].
  set (ct_len := le_value _). set (ct := take (Z.to_nat ct_len) _).
  destruct (decide (Z.of_nat (length ct) <> ct_len)) as [?|_].
  { unfold raise. split; [auto|]. exists out. simpl. by rewrite Hpo. }
  destruct (aes_decrypt key _ ct) as [pt|].
  2:{ unfold raise. split; [auto|]. exists out. simpl. by rewrite Hpo. }
  unfold mbind at 1, M_bind at 1. unfold write at 1. cbn [fin fout polls drawn].
  match goal with |- context [decrypt_loop fuel key ?w2] =>
    pose proof (IH w2 _ eq_refl) as H end.
  cbn [fin] in H. apply H.
  rewrite !length_drop. rewrite Hpf.
  assert (fin w <> []).
  { intros E. rewrite Hpf, E in Hne. by rewrite take_nil in Hne. }
  destruct (fin w); [done|simpl in *; lia].
Qed.

(** [decrypt_file] raises [ValueError] for the magic exactly on the files
    that [is_diskatlas_file] rejects, and then before the output file is
    opened.  It ends; and when it returns, the output file has exactly the
    number of bytes that the header announces at the offset 28, whatever the
    chunks hold. *)
Theorem decrypt_file_outcomes password input :
  match decrypt_file password (start input) with
  | (o, w) =>
      (is_diskatlas_file input = false <-> o = Raise (ValueError msg_magic)) /\
      (is_diskatlas_file input = false -> fout w = None) /\
      o <> Raise OutOfFuel /\
      (o = Return tt ->
       (36 <= length input)%nat /\
       exists out, fout w = Some out /\
         Z.of_nat (length out) = le_value (take 8 (drop 28 input)))
  end.
Proof.
  unfold decrypt_file, start, is_diskatlas_file.
  assert (bool_decide (take (length MAGIC) input = MAGIC) = false <->
          take (length MAGIC) input <> MAGIC) as Hflag
    by apply bool_decide_eq_false.
  set (flag := bool_decide _) in *. clearbody flag.
  unfold mbind at 1, M_bind at 1. unfold read at 1. cbn [fin fout polls drawn].
  rewrite Nat2Z.id.
  case_decide as Hm.
  { unfold raise. rewrite Hflag. done. }
  assert (flag = false <-> False) as Hno by (rewrite Hflag; tauto).
  clear Hflag.
  unfold mbind at 1, M_bind at 1. unfold read at 1. cbn [fin fout polls drawn].
  unfold mbind at 1, M_bind at 1. unfold unpack at 1.
  case_decide as Hv.
  2:{ unfold lift, raise. rewrite Hno. repeat split; first [done | tauto]. }
  unfold lift at 1, mret at 1, M_ret at 1.
  case_decide as Hver.
  { unfold raise. rewrite Hno. repeat split; first [done | tauto]. }
  unfold mbind at 1, M_bind at 1. unfold read at 1. cbn [fin fout polls drawn].
  unfold mbind at 1, M_bind at 1. unfold read at 1. cbn [fin fout polls drawn].
  unfold mbind at 1, M_bind at 1. unfold unpack at 1.
  case_decide as Hc.
  2:{ unfold lift, raise. rewrite Hno. repeat split; first [done | tauto]. }
  unfold lift at 1, mret at 1, M_ret at 1.
  unfold mbind at 1, M_bind at 1. unfold read at 1. cbn [fin fout polls drawn].
  unfold mbind at 1, M_bind at 1. unfold unpack at 1.
  case_decide as Ht.
  2:{ unfold lift, raise. rewrite Hno. repeat split; first [done | tauto]. }
  unfold lift at 1, mret at 1, M_ret at 1.
  unfold mbind at 1, M_bind at 1. unfold open_out at 1. cbn [fin fout polls drawn].
  unfold mbind at 1, M_bind at 1. cbn [fin].
  unfold mbind at 1, M_bind at 1.
  match goal with |- context [decrypt_loop (S (length ?f)) ?key ?w2] =>
    pose proof (decrypt_loop_ends key (S (length f)) w2 [] eq_refl) as H
  end.
  cbn [fin] in H. specialize (H ltac:(lia)).
  destruct (decrypt_loop _ _ _) as [o w].
  destruct H as [Ho (out' & Hout')].
  destruct o as [[]|e].
  - unfold truncate. rewrite Hout'. cbn [default from_option id fout]. unfold id.
    rewrite Hno. split; [done|]. split; [tauto|]. split; [done|]. intros _.
    change (length MAGIC) with 7%nat in *. change (Z.to_nat 1) with 1%nat in *.
    change (Z.to_nat 16) with 16%nat in *. change (Z.to_nat 4) with 4%nat in *.
    change (Z.to_nat 8) with 8%nat in *.
    rewrite !drop_drop in Ht. rewrite length_take, length_drop in Ht.
    split; [lia|].
    eexists. split; [reflexivity|].
    rewrite !drop_drop. simpl Nat.add.
    set (n := le_value _). pose proof (le_value_bound (take 8 (drop 28 input))) as Hb.
    fold n in Hb.
    rewrite length_app, length_take, length_replicate. lia.
  - rewrite Hno. split.
    { split; [tauto|]. intros [= ->].
      destruct Ho as [Ho|[Ho|[Ho|Ho]]]; discriminate Ho. }
    split; [tauto|]. split; [|done].
    intros [= ->]. destruct Ho as [Ho|[Ho|[Ho|Ho]]]; discriminate Ho.
Qed.

(* --------------------------------------------------------------------- *)
(** ** A container cut short *)

(** The records of the first [k] chunks of [c] bytes of [data], the
    nonces drawn from the position [d] of the random stream. *)
Fixpoint full_records (key : bytes) (c d k : nat) (data : bytes) : bytes :=
  match k with
  | O => []
  | S k' =>
      chunk_record key (random <$> seq d 12) (take c data)
        ++ full_records key c (d + 12) k' (drop c data)
  end.

Lemma encrypt_loop_step key chunk_size fuel data out p d :
  cancel_flag = None -> cipher_ok ->
  0 < chunk_size -> chunk_size + 16 < 2 ^ 32 -> data <> [] ->
  encrypt_loop (S fuel) key chunk_size (mkWorld data (Some out) p d) =
  encrypt_loop fuel key chunk_size
    (mkWorld (drop (Z.to_nat chunk_size) data)
       (Some (out ++ chunk_record key (random <$> seq d 12)
                       (take (Z.to_nat chunk_size) data)))
       p (d + 12)).
Proof.
  intros Hc [_ Hlen] Hpos Hmax Hne.
  cbn [encrypt_loop]. unfold mbind at 1, M_bind at 1. rewrite poll_None by done.
  unfold mbind at 1, M_bind at 1. unfold read at 1. cbn [fin fout polls drawn].
  destruct (decide (take (Z.to_nat chunk_size) data = [])) as [E|_].
  { destruct data as [|b data]; [done|].
    destruct (Z.to_nat chunk_size) eqn:En; [lia|done]. }
  set (chunk := take (Z.to_nat chunk_size) data).
  set (nonce := random <$> seq d 12).
  assert (0 <= Z.of_nat (length (aes_encrypt key nonce chunk)) < 256 ^ Z.of_nat 4).
  { rewrite Hlen. change (256 ^ Z.of_nat 4) with (2 ^ 32).
    unfold chunk. rewrite length_take. lia. }
  unfold mbind, M_bind, urandom, write, lift. cbn [fin fout polls drawn default].
  rewrite pack_ok by done. unfold mret, M_ret.
  cbn [fin fout polls drawn default from_option id]. fold nonce. unfold id.
  unfold chunk_record. by rewrite <- !app_assoc.
Qed.

Lemma decrypt_loop_step key fuel chunk rest out p d d0 :
  cancel_flag = None -> cipher_ok ->
  Z.of_nat (length chunk) + 16 < 2 ^ 32 ->
  decrypt_loop (S fuel) key
    (mkWorld (chunk_record key (random <$> seq d0 12) chunk ++ rest)
             (Some out) p d) =
  decrypt_loop fuel key (mkWorld rest (Some (out ++ chunk)) p d).
Proof.
  intros Hc [Hdec Hlen] Hmax.
  set (nonce := random <$> seq d0 12). set (ct := aes_encrypt key nonce chunk).
  assert (0 <= Z.of_nat (length ct) < 256 ^ Z.of_nat 4) as Hct.
  { unfold ct. rewrite Hlen. change (256 ^ Z.of_nat 4) with (2 ^ 32). lia. }
  cbn [decrypt_loop]. unfold mbind at 1, M_bind at 1. rewrite poll_None by done.
  unfold chunk_record. fold ct. rewrite <- !app_assoc.
  unfold mbind at 1, M_bind at 1.
  rewrite read_app by (unfold nonce; rewrite length_fmap, length_seq; lia).
  destruct (decide (nonce = [])) as [En|_].
  { unfold nonce in En. simpl in En. discriminate. }
  unfold mbind at 1, M_bind at 1.
  rewrite read_app by (rewrite length_le_bytes; lia).
  rewrite length_le_bytes.
  destruct (decide (4 < 4)%nat) as [?|_]; [lia|].
  unfold mbind at 1, M_bind at 1. rewrite unpack_le_bytes by done.
  unfold lift, mret, M_ret.
  unfold mbind at 1, M_bind at 1.
  rewrite read_app by lia.
  destruct (decide (Z.of_nat (length ct) <> Z.of_nat (length ct))) as [?|_]; [done|].
  unfold ct at 1. rewrite Hdec.
  unfold mbind at 1, M_bind at 1. unfold write at 1.
  by cbn [fin fout polls drawn default from_option id].
Qed.

Lemma encrypt_loop_full key chunk_size data2 :
  cancel_flag = None -> cipher_ok ->
  0 < chunk_size -> chunk_size + 16 < 2 ^ 32 ->
  forall k fuel data1 out p d,
  length data1 = (k * Z.to_nat chunk_size)%nat -> data2 <> [] ->
  encrypt_loop (k + fuel) key chunk_size (mkWorld (data1 ++ data2) (Some out) p d) =
  encrypt_loop fuel key chunk_size
    (mkWorld data2
       (Some (out ++ full_records key (Z.to_nat chunk_size) d k data1))
       p (d + 12 * k)).
Proof.
  intros Hc Hok Hpos Hmax. induction k as [|k IH]; intros fuel data1 out p d Hl Hne.
  { destruct data1; [|done]. simpl. rewrite app_nil_r. do 2 f_equal. lia. }
  cbn [Nat.add]. rewrite encrypt_loop_step; [|done..|].
  2:{ destruct data1; [|done]. simpl. done. }
  assert (Z.to_nat chunk_size <= length data1)%nat as Hge by lia.
  rewrite drop_app_le, take_app_le by lia.
  rewrite IH; [|rewrite length_drop; lia|done].
  cbn [full_records]. rewrite <- app_assoc. do 2 f_equal. lia.
Qed.

Lemma decrypt_loop_full key c rest :
  cancel_flag = None -> cipher_ok -> Z.of_nat c + 16 < 2 ^ 32 ->
  forall k fuel data1 out p d d0,
  length data1 = (k * c)%nat ->
  decrypt_loop (k + fuel) key
    (mkWorld (full_records key c d0 k data1 ++ rest) (Some out) p d) =
  decrypt_loop fuel key (mkWorld rest (Some (out ++ data1)) p d).
Proof.
  intros Hc Hok Hmax. induction k as [|k IH]; intros fuel data1 out p d d0 Hl.
  { destruct data1; [|done]. simpl. by rewrite app_nil_r. }
  cbn [Nat.add full_records]. rewrite <- app_assoc.
  rewrite decrypt_loop_step; [|done..|rewrite length_take; lia].
  rewrite IH by (rewrite length_drop; lia).
  by rewrite <- app_assoc, take_drop.
Qed.

(** A container cut after a whole number of chunks is not told from a
    whole one: when the file that [encrypt_file] wrote for [data1 ++ data2],
    where [data1] is [k] chunks long, is cut after the record of the [k]-th
    chunk, [decrypt_file] returns, and the file it writes is [data1]
    followed by as many zero bytes as [data2] is long. *)
Theorem cut_container_accepted password chunk_size k data1 data2 :
  cancel_flag = None -> cipher_ok ->
  0 < chunk_size -> chunk_size + 16 < 2 ^ 32 ->
  length data1 = (k * Z.to_nat chunk_size)%nat -> data2 <> [] ->
  Z.of_nat (length (data1 ++ data2)) < 2 ^ 64 ->
  exists cut lost w w',
    lost <> [] /\
    encrypt_file password chunk_size (start (data1 ++ data2)) = (Return tt, w) /\
    fout w = Some (cut ++ lost) /\
    decrypt_file password (start cut) = (Return tt, w') /\
    fout w' = Some (data1 ++ replicate (length data2) x00).
Proof.
  intros Hc Hok Hpos Hmax Hl Hne Hlen.
  rewrite encrypt_file_header by lia.
  set (salt := random <$> seq 0 16).
  set (key := _derive_key password salt).
  set (total := Z.of_nat (length (data1 ++ data2))).
  set (hd := header salt chunk_size total).
  assert (S (length (data1 ++ data2)) = k + S (length (data1 ++ data2) - k))%nat
    as Hfuel.
  { rewrite length_app, Hl. destruct data2; [done|]. simpl. nia. }
  rewrite Hfuel, (encrypt_loop_full key chunk_size data2 Hc Hok Hpos Hmax) by done.
  set (body1 := full_records key (Z.to_nat chunk_size) 16 k data1).
  destruct (loops_round_trip key chunk_size Hc Hok Hpos Hmax
              (S (length (data1 ++ data2) - k)) data2 (hd ++ body1)
              0%nat (16 + 12 * k)%nat)
    as (body2 & d' & Henc & Hbody & _).
  { rewrite length_app, Hl. nia. }
  exists (hd ++ body1), body2. eexists. eexists.
  split.
  { intros ->. simpl in Hbody. destruct data2 as [|b data2]; [done|].
    simpl length in Hbody.
    assert (0 <= (Z.of_nat (S (length data2)) + chunk_size - 1) / chunk_size)
      by (apply Z.div_pos; lia).
    lia. }
  split; [exact Henc|]. split; [done|].
  unfold hd. rewrite decrypt_file_header;
    [|by unfold salt; rewrite length_fmap, length_seq|lia|unfold total; lia].
  fold key.
  assert (k <= length body1)%nat as Hkb.
  { unfold body1. clear. generalize 16%nat as d. revert data1.
    induction k as [|k IH]; intros data1 d; [simpl; lia|].
    cbn [full_records]. unfold chunk_record at 1. rewrite !length_app.
    rewrite length_fmap, length_seq. specialize (IH (drop (Z.to_nat chunk_size) data1) (d + 12)%nat).
    lia. }
  assert (S (length body1) = k + S (length body1 - k))%nat as Hf2 by lia.
  rewrite <- (app_nil_r body1) at 2. unfold body1 at 2.
  rewrite Hf2, (decrypt_loop_full key (Z.to_nat chunk_size) [] Hc Hok) by (done || lia).
  cbn [decrypt_loop]. unfold mbind at 1, M_bind at 1. rewrite poll_None by done.
  unfold mbind at 1, M_bind at 1. unfold read at 1. cbn [fin fout polls drawn].
  rewrite take_nil, drop_nil. destruct (decide ([] = [])); [|done].
  unfold mret, M_ret, truncate. cbn [fin fout polls drawn default from_option id].
  unfold id. split; [reflexivity|]. cbn [fout]. f_equal.
  unfold total. rewrite Nat2Z.id, length_app. rewrite app_nil_l.
  rewrite take_ge by lia. f_equal. f_equal. lia.
Qed.

(** The chunk size 0 is accepted: [encrypt_file] returns having written
    the header alone, since the first [read(0)] is empty; and what
    [decrypt_file] makes of that file is as long as the plaintext and holds
    zero bytes only. *)
Theorem zero_chunk_size password data :
  cancel_flag = None -> Z.of_nat (length data) < 2 ^ 64 ->
  let enc := header (random <$> seq 0 16) 0 (Z.of_nat (length data)) in
  encrypt_file password 0 (start data) =
    (Return tt, mkWorld data (Some enc) 0 16) /\
  length enc = 36%nat /\
  decrypt_file password (start enc) =
    (Return tt, mkWorld [] (Some (replicate (length data) x00)) 0 0).
Proof.
  intros Hc Hlen enc. split; [|split].
  - rewrite encrypt_file_header by lia. fold enc.
    cbn [encrypt_loop]. unfold mbind at 1, M_bind at 1. rewrite poll_None by done.
    unfold mbind at 1, M_bind at 1. unfold read at 1. cbn [fin fout polls drawn].
    change (Z.to_nat 0) with 0%nat. rewrite take_0, drop_0.
    by destruct (decide ([] = [])).
  - unfold enc, header. rewrite !length_app, !length_le_bytes, length_fmap, length_seq.
    done.
  - unfold enc. rewrite <- (app_nil_r (header _ _ _)).
    rewrite decrypt_file_header;
      [|by rewrite length_fmap, length_seq|lia|lia].
    cbn [decrypt_loop length]. unfold mbind at 1, M_bind at 1.
    rewrite poll_None by done.
    unfold mbind at 1, M_bind at 1. unfold read at 1. cbn [fin fout polls drawn].
    rewrite take_nil, drop_nil. destruct (decide ([] = [])); [|done].
    unfold mret, M_ret, truncate. cbn [fin fout polls drawn default from_option id].
    unfold id. rewrite take_nil, Nat2Z.id. simpl. by rewrite Nat.sub_0_r.
Qed.

End crypto.
End crypto_tools.

(* ===================================================================== *)
(** * Part XV. The container on concrete input *)

(** A cipher for running the code: the plaintext followed by a tag of
    sixteen zero bytes; a key derivation that returns the salt; random
    bytes that are all [0x2a]. *)
Module toy.
Import Stdlib.Init.Byte.

Definition Scrypt (salt : crypto_tools.bytes) (length n r p : Z)
    (password : crypto_tools.bytes) : crypto_tools.bytes := salt.

Definition aes_encrypt (key nonce pt : crypto_tools.bytes) : crypto_tools.bytes :=
  pt ++ replicate 16 x00.

Definition aes_decrypt (key nonce ct : crypto_tools.bytes)
    : option crypto_tools.bytes :=
  if decide (16 <= length ct)%nat then Some (take (length ct - 16) ct) else None.

Definition random (k : nat) : byte := x2a.

Lemma cipher_is_ok : crypto_tools.cipher_ok aes_encrypt aes_decrypt.
Proof.
  split; intros key nonce pt; unfold aes_encrypt, aes_decrypt.
  - rewrite length_app, length_replicate.
    destruct (decide (16 <= length pt + 16)%nat); [|lia].
    f_equal. replace (length pt + 16 - 16)%nat with (length pt) by lia.
    by rewrite take_app_length.
  - by rewrite length_app, length_replicate.
Qed.

End toy.

(** Five bytes in chunks of two: three chunks, 36 + 5 + 96 bytes. *)
Lemma decrypt_encrypt_witness :
  let data := [Byte.x68; Byte.x65; Byte.x6c; Byte.x6c; Byte.x6f] in
  exists enc w w',
    crypto_tools.encrypt_file toy.Scrypt toy.aes_encrypt toy.random None
      "pw" 2 (crypto_tools.start data) = (crypto_tools.Return tt, w) /\
    crypto_tools.fout w = Some enc /\
    crypto_tools.is_diskatlas_file enc = true /\
    Z.of_nat (length enc) = 137 /\
    crypto_tools.decrypt_file toy.Scrypt toy.aes_decrypt None "pw"
      (crypto_tools.start enc) = (crypto_tools.Return tt, w') /\
    crypto_tools.fout w' = Some data.
Proof.
  intros data.
  destruct (crypto_tools.decrypt_encrypt toy.Scrypt toy.aes_encrypt
              toy.aes_decrypt toy.random None "pw" 2 data eq_refl toy.cipher_is_ok)
    as (enc & w & w' & H1 & H2 & H3 & H4 & H5 & H6); [reflexivity..|].
  exists enc, w, w'. split; [exact H1|]. split; [exact H2|]. split; [exact H3|].
  split; [rewrite H4; reflexivity|]. split; [exact H5|exact H6].
Defined.

(** A file of three bytes with the chunk size 0. *)
Lemma zero_chunk_size_witness :
  let data := [Byte.x61; Byte.x62; Byte.x63] in
  exists enc,
    crypto_tools.encrypt_file toy.Scrypt toy.aes_encrypt toy.random None
      "pw" 0 (crypto_tools.start data) =
      (crypto_tools.Return tt, crypto_tools.mkWorld data (Some enc) 0 16) /\
    length enc = 36%nat /\
    crypto_tools.decrypt_file toy.Scrypt toy.aes_decrypt None "pw"
      (crypto_tools.start enc) =
      (crypto_tools.Return tt,
       crypto_tools.mkWorld [] (Some [Byte.x00; Byte.x00; Byte.x00]) 0 0).
Proof.
  intros data. eexists.
  exact (crypto_tools.zero_chunk_size toy.Scrypt toy.aes_encrypt toy.aes_decrypt
           toy.random None "pw" data eq_refl eq_refl).
Defined.

(** Three bytes in chunks of two, the file cut after the first chunk. *)
Lemma cut_container_accepted_witness :
  exists cut lost w w',
    lost <> [] /\
    crypto_tools.encrypt_file toy.Scrypt toy.aes_encrypt toy.random None
      "pw" 2 (crypto_tools.start ([Byte.x61; Byte.x62] ++ [Byte.x63])) =
      (crypto_tools.Return tt, w) /\
    crypto_tools.fout w = Some (cut ++ lost) /\
    crypto_tools.decrypt_file toy.Scrypt toy.aes_decrypt None "pw"
      (crypto_tools.start cut) = (crypto_tools.Return tt, w') /\
    crypto_tools.fout w' = Some [Byte.x61; Byte.x62; Byte.x00].
Proof.
  apply (crypto_tools.cut_container_accepted toy.Scrypt toy.aes_encrypt
           toy.aes_decrypt toy.random None "pw" 2 1 [Byte.x61; Byte.x62]
           [Byte.x63] eq_refl toy.cipher_is_ok);
    [reflexivity|reflexivity|reflexivity|discriminate|reflexivity].
Defined.

(* ===================================================================== *)
(** * Part XVI. [drives.py]

    [psutil.disk_partitions(all=False)] is given as the list it returns,
    [psutil.disk_usage] as a function that is [None] where the call raises;
    [os.path.abspath] and [str.lower] are functions given to the model.
    [percent], a float, is carried as it is. *)

Module drives.

Record partition : Type := mkPartition {
  mountpoint : string;
  fstype : string
}.

Record usage : Type := mkUsage {
  total : Z;
  used : Z;
  free : Z;
  percent : Q
}.

(** The dictionary of one drive, by its keys. *)
Record drive : Type := mkDrive {
  d_mountpoint : string;
  d_fstype : string;
  d_total : Z;
  d_used : Z;
  d_free : Z;
  d_percent : Q
}.

(** [l.sort(key=key)] on string keys: a stable sort.  Python compares
    strings code point by code point, which is the order of their UTF-8
    bytes. *)
Fixpoint insert_asc {A} (key : A -> string) (x : A) (l : list A) : list A :=
  match l with
  | [] => [x]
  | y :: l' =>
      if String.ltb (key y) (key x) then y :: insert_asc key x l' else x :: l
  end.

Definition sort_asc {A} (key : A -> string) (l : list A) : list A :=
  foldr (insert_asc key) [] l.

Section drives.
Variable disk_partitions : list partition.
Variable disk_usage : string -> option usage.
Variable abspath : string -> string.
Variable lower : string -> string.

(** The [for p in psutil.disk_partitions(all=False)] loop. *)
Fixpoint collect (ps : list partition) (seen : gset string) (drives : list drive)
    : list drive :=
  match ps with
  | [] => drives
  | p :: ps' =>
      let mp := mountpoint p in
      if decide (mp = "") then collect ps' seen drives else
      let mp_norm := abspath mp in
      if decide (mp_norm ∈ seen) then collect ps' seen drives else
      let seen := seen ∪ {[mp_norm]} in
      match disk_usage mp_norm with
      | None => collect ps' seen drives
      | Some u =>
          collect ps' seen
            (drives ++ [mkDrive mp_norm (fstype p) (total u) (used u) (free u)
                                (percent u)])
      end
  end.

Definition list_drives : list drive :=
  sort_asc (fun d => lower (d_mountpoint d)) (collect disk_partitions ∅ []).

Definition estimate_total_bytes (paths : list string) : Z :=
  foldl (fun total p =>
           match disk_usage p with
           | Some u => total + drives.total u
           | None => total
           end) 0 paths.

(* --------------------------------------------------------------------- *)
(** ** The order of strings *)

Definition le (a b : string) : Prop := String.ltb b a = false.

Lemma ltb_lt a b : String.ltb a b = true <-> OrderedTypeEx.String_as_OT.lt a b.
Proof.
  unfold String.ltb. rewrite <- OrderedTypeEx.String_as_OT.cmp_lt.
  unfold OrderedTypeEx.String_as_OT.cmp. destruct (a ?= b)%string; split; congruence.
Qed.

Lemma le_refl a : le a a.
Proof.
  unfold le. destruct (String.ltb a a) eqn:E; [|done].
  apply ltb_lt in E. by apply OrderedTypeEx.String_as_OT.lt_not_eq in E.
Qed.

Lemma ltb_le a b : String.ltb a b = true -> le a b.
Proof.
  intros H. unfold le. destruct (String.ltb b a) eqn:E; [|done].
  apply ltb_lt in H, E.
  pose proof (OrderedTypeEx.String_as_OT.lt_trans _ _ _ H E) as Hx.
  by apply OrderedTypeEx.String_as_OT.lt_not_eq in Hx.
Qed.

Lemma le_trans a b c : le a b -> le b c -> le a c.
Proof.
  unfold le. intros Hab Hbc. destruct (String.ltb c a) eqn:E; [|done].
  destruct (String.compare a b) eqn:Ec.
  - apply String.compare_eq_iff in Ec. subst b. congruence.
  - assert (String.ltb a b = true) as H by (unfold String.ltb; by rewrite Ec).
    apply ltb_lt in H, E.
    pose proof (OrderedTypeEx.String_as_OT.lt_trans _ _ _ E H) as Hx.
    apply ltb_lt in Hx. congruence.
  - assert (String.ltb b a = true) as H.
    { unfold String.ltb. rewrite String.compare_antisym, Ec. done. }
    congruence.
Qed.

Lemma insert_asc_perm {A} (key : A -> string) x l : insert_asc key x l ≡ₚ x :: l.
Proof.
  induction l as [|y l IH]; simpl; [done|].
  destruct (String.ltb (key y) (key x)); [|done]. rewrite IH. apply perm_swap.
Qed.

Lemma sort_asc_perm {A} (key : A -> string) l : sort_asc key l ≡ₚ l.
Proof.
  induction l as [|x l IH]; simpl; [done|]. by rewrite insert_asc_perm, IH.
Qed.

Lemma insert_asc_sorted {A} (key : A -> string) x l :
  StronglySorted (fun a b => le (key a) (key b)) l ->
  StronglySorted (fun a b => le (key a) (key b)) (insert_asc key x l).
Proof.
  induction 1 as [|y l Hs IH Hy]; simpl; [repeat constructor|].
  destruct (String.ltb (key y) (key x)) eqn:E.
  - constructor; [done|]. rewrite insert_asc_perm. constructor; [|done].
    by apply ltb_le.
  - constructor; [by constructor|]. constructor; [done|].
    eapply Forall_impl; [exact Hy|]. intros z Hz. simpl in Hz.
    by apply le_trans with (key y).
Qed.

Lemma sort_asc_sorted {A} (key : A -> string) l :
  StronglySorted (fun a b => le (key a) (key b)) (sort_asc key l).
Proof.
  induction l as [|x l IH]; simpl; [constructor|]. by apply insert_asc_sorted.
Qed.

(* --------------------------------------------------------------------- *)
(** ** The drives listed *)

(** The drive made of a partition, when it has a mount point and its
    usage can be read. *)
Definition drive_of (p : partition) : option drive :=
  if decide (mountpoint p = "") then None
  else match disk_usage (abspath (mountpoint p)) with
       | None => None
       | Some u =>
           Some (mkDrive (abspath (mountpoint p)) (fstype p) (total u) (used u)
                         (free u) (percent u))
       end.

Lemma collect_spec : forall ps seen drives,
  (forall d, d ∈ drives -> d_mountpoint d ∈ seen) ->
  NoDup (d_mountpoint <$> drives) ->
  let out := collect ps seen drives in
  NoDup (d_mountpoint <$> out) /\
  (exists new, out = drives ++ new /\
     (forall d, d ∈ new ->
        (d_mountpoint d ∉ seen) /\ exists p, p ∈ ps /\ drive_of p = Some d) /\
     (forall p d, p ∈ ps -> drive_of p = Some d -> d_mountpoint d ∉ seen ->
        d_mountpoint d ∈ (d_mountpoint <$> new))).
Proof.
  induction ps as [|p ps IH]; intros seen drives Hseen Hnd; simpl.
  { split; [done|]. exists []. rewrite app_nil_r. split; [done|].
    split; [by intros d Hd%elem_of_nil|]. by intros p d Hp%elem_of_nil. }
  unfold drive_of at 1.
  destruct (decide (mountpoint p = "")) as [He|Hne].
  { destruct (IH seen drives Hseen Hnd) as (H1 & new & H2 & H3 & H4).
    split; [done|]. exists new. split; [done|]. split.
    - intros d Hd. destruct (H3 d Hd) as (? & q & ? & ?).
      split; [done|]. exists q. split; [by right|done].
    - intros q d [->|Hq]%elem_of_cons Hd Hs; [|by eapply H4].
      unfold drive_of in Hd. by rewrite decide_True in Hd. }
  destruct (decide (abspath (mountpoint p) ∈ seen)) as [Hin|Hnin].
  { destruct (IH seen drives Hseen Hnd) as (H1 & new & H2 & H3 & H4).
    split; [done|]. exists new. split; [done|]. split.
    - intros d Hd. destruct (H3 d Hd) as (? & q & ? & ?).
      split; [done|]. exists q. split; [by right|done].
    - intros q d [->|Hq]%elem_of_cons Hd Hs; [|by eapply H4].
      unfold drive_of in Hd. rewrite decide_False in Hd by done.
      destruct (disk_usage _); simplify_eq/=. }
  destruct (disk_usage (abspath (mountpoint p))) as [u|] eqn:Eu.
  - set (d0 := mkDrive (abspath (mountpoint p)) (fstype p) (total u) (used u)
                       (free u) (percent u)).
    destruct (IH (seen ∪ {[abspath (mountpoint p)]}) (drives ++ [d0]))
      as (H1 & new & H2 & H3 & H4).
    { intros d [Hd|Hd%list_elem_of_singleton]%elem_of_app.
      - apply elem_of_union_l. by apply Hseen.
      - subst d. apply elem_of_union_r. by apply elem_of_singleton. }
    { rewrite fmap_app. apply NoDup_app. split; [done|]. split.
      - intros x Hx [->|[]%elem_of_nil]%elem_of_cons.
        apply list_elem_of_fmap in Hx as (d & Hd1 & Hd2). simpl in Hd1.
        apply Hnin. rewrite Hd1. by apply Hseen.
      - apply NoDup_singleton. }
    split; [done|]. exists (d0 :: new). split; [by rewrite H2, <- app_assoc|].
    split.
    + intros d [->|Hd]%elem_of_cons.
      * split; [done|]. exists p. split; [left|].
        unfold drive_of. rewrite decide_False by done. by rewrite Eu.
      * destruct (H3 d Hd) as (Hns & q & Hq & Hdq). split.
        -- intros Hs. apply Hns. by apply elem_of_union_l.
        -- exists q. split; [by right|done].
    + intros q d Hq Hd Hs. rewrite fmap_cons.
      destruct (decide (d_mountpoint d = abspath (mountpoint p))) as [E|E].
      { rewrite E. left. }
      right. apply elem_of_cons in Hq as [->|Hq].
      * unfold drive_of in Hd. rewrite decide_False in Hd by done.
        rewrite Eu in Hd. simplify_eq/=.
      * eapply H4; [exact Hq|exact Hd|].
        intros [?|?%elem_of_singleton]%elem_of_union; done.
  - destruct (IH (seen ∪ {[abspath (mountpoint p)]}) drives) as (H1 & new & H2 & H3 & H4).
    { intros d Hd. apply elem_of_union_l. by apply Hseen. }
    { done. }
    split; [done|]. exists new. split; [done|]. split.
    + intros d Hd. destruct (H3 d Hd) as (Hns & q & Hq & Hdq). split.
      * intros Hs. apply Hns. by apply elem_of_union_l.
      * exists q. split; [by right|done].
    + intros q d [->|Hq]%elem_of_cons Hd Hs.
      * unfold drive_of in Hd. rewrite decide_False in Hd by done.
        by rewrite Eu in Hd.
      * eapply H4; [exact Hq|exact Hd|].
        intros [?|Hx%elem_of_singleton]%elem_of_union; [done|].
        (* the usage of this mount point cannot be read *)
        unfold drive_of in Hd. destruct (decide (mountpoint q = "")); [done|].
        destruct (disk_usage (abspath (mountpoint q))) as [u|] eqn:Eq; [|done].
        simplify_eq/=. congruence.
Qed.

(** [list_drives] returns one drive for each normalised mount point that
    a partition with a non-empty mount point has and whose usage can be
    read, with the file system type of such a partition and that usage,
    and no other; no mount point comes twice; the drives are in the order
    of their lower-cased mount points. *)
Theorem list_drives_unique_sorted :
  NoDup (d_mountpoint <$> list_drives) /\
  StronglySorted
    (fun a b => le (lower (d_mountpoint a)) (lower (d_mountpoint b)))
    list_drives /\
  (forall d, d ∈ list_drives ->
     exists p, p ∈ disk_partitions /\ drive_of p = Some d) /\
  (forall p d, p ∈ disk_partitions -> drive_of p = Some d ->
     exists d', d' ∈ list_drives /\ d_mountpoint d' = d_mountpoint d /\
       d_total d' = d_total d /\ d_used d' = d_used d /\ d_free d' = d_free d).
Proof.
  unfold list_drives.
  destruct (collect_spec disk_partitions ∅ [])
    as (Hnd & new & Hout & Hfrom & Hall).
  { by intros d Hd%elem_of_nil. }
  { constructor. }
  simpl in Hout. split; [by rewrite sort_asc_perm|].
  split; [apply sort_asc_sorted|]. split.
  - intros d Hd. rewrite sort_asc_perm, Hout in Hd.
    by destruct (Hfrom d Hd) as [_ ?].
  - intros p d Hp Hd.
    pose proof (Hall p d Hp Hd ltac:(set_solver)) as Hin.
    apply list_elem_of_fmap in Hin as (d' & Hm & Hd').
    exists d'. split; [by rewrite sort_asc_perm, Hout|]. split; [done|].
    destruct (Hfrom d' Hd') as (_ & q & _ & Hq).
    unfold drive_of in Hd, Hq.
    destruct (decide (mountpoint p = "")); [done|].
    destruct (decide (mountpoint q = "")); [done|].
    destruct (disk_usage (abspath (mountpoint p))) as [u|] eqn:Eu; [|done].
    destruct (disk_usage (abspath (mountpoint q))) as [v|] eqn:Ev; [|done].
    simplify_eq/=. rewrite Hm in Eu. by simplify_eq.
Qed.

End drives.
End drives.

(* ===================================================================== *)
(** * Part XVII. [suspicious.py] and [utils.shannon_entropy]

    Floats are values of a type [F] with the operations the code applies to
    them, given to the model: no property below depends on what they
    compute.  The file system is what [os.stat] and [open(path, "rb")]
    answer for a path ([None]: the call raises [OSError]); [time.time()]
    answers its [k]-th call with [time k].  The progress callback is not
    modelled. *)

Module suspicious.

Record FloatOps (F : Type) : Type := mkFloatOps {
  lit : Q -> F;              (* a literal: 0.0, 7.6, 7.2, 3600.0, 1e9, 24.0 *)
  of_int : Z -> F;           (* the float an int is compared as *)
  sub : F -> F -> F;         (* x - y *)
  mul : F -> F -> F;         (* x * y *)
  div : F -> F -> F;         (* x / y *)
  div_int : Z -> Z -> F;     (* c / n on ints *)
  log2 : F -> F;             (* math.log2 *)
  ltb : F -> F -> bool;      (* x < y *)
  leb : F -> F -> bool;      (* x <= y *)
  geb : F -> F -> bool;      (* x >= y *)
  truthy : F -> bool;        (* bool(x) *)
  fmt2 : F -> string         (* f"{x:.2f}" *)
}.
Arguments lit {F} _ _.
Arguments of_int {F} _ _.
Arguments sub {F} _ _ _.
Arguments mul {F} _ _ _.
Arguments div {F} _ _ _.
Arguments div_int {F} _ _ _.
Arguments log2 {F} _ _.
Arguments ltb {F} _ _ _.
Arguments leb {F} _ _ _.
Arguments geb {F} _ _ _.
Arguments truthy {F} _ _.
Arguments fmt2 {F} _ _.

Record Os (F : Type) : Type := mkOs {
  splitext : string -> string * string;     (* os.path.splitext *)
  basename : string -> string;              (* os.path.basename *)
  dirname : string -> string;               (* os.path.dirname *)
  lower : string -> string;                 (* str.lower *)
  stat : string -> option (F * Z);          (* os.stat: st_mtime, st_size *)
  read : string -> Z -> option magic.bytes; (* open(path, "rb").read(n) *)
  time : nat -> F                           (* time.time() *)
}.
Arguments splitext {F} _ _.
Arguments basename {F} _ _.
Arguments dirname {F} _ _.
Arguments lower {F} _ _.
Arguments stat {F} _ _.
Arguments read {F} _ _ _.
Arguments time {F} _ _.

Definition RANSOM_EXT : gset string :=
  list_to_set
    [".locked"; ".lock"; ".crypt"; ".encrypted"; ".enc"; ".crypto"; ".crypz";
     ".cryp1"; ".cryp2"; ".locky"; ".zepto"; ".cerber"; ".ryuk"; ".conti";
     ".revil"; ".sodinokibi"; ".djvu"; ".stop"; ".phobos"; ".gandcrab";
     ".medusa"; ".mallox"; ".pysa"; ".vault"; ".wasted"; ".nuke"].

Definition RANSOM_NOTES : gset string :=
  list_to_set
    ["readme.txt"; "readme.html"; "readme.bmp"; "how_to_decrypt.txt";
     "how_to_decrypt.html"; "recover_files.txt"; "restore_files.txt";
     "decrypt_instructions.txt"; "!!!readme!!!.txt"; "!!!readme!!!.html"].

(** [models.SuspiciousFinding] *)
Record SuspiciousFinding (F : Type) : Type := mkFinding {
  f_path : string;
  f_score : Z;
  f_reasons : list string;
  f_size : Z;
  f_mtime : F
}.
Arguments mkFinding {F} _ _ _ _ _.
Arguments f_path {F} _.
Arguments f_score {F} _.
Arguments f_reasons {F} _.
Arguments f_size {F} _.
Arguments f_mtime {F} _.

Section suspicious.
Context {F : Type}.
Variable fl : FloatOps F.
Variable os : Os F.
(** [cancel_flag], when given, answers its [k]-th call with [f k]. *)
Variable cancel_flag : option (nat -> bool).

(** [utils.shannon_entropy] *)
Definition shannon_entropy (data : magic.bytes) : F :=
  match data with
  | [] => lit fl 0
  | _ =>
      let counts :=
        foldl (fun counts b =>
                 let i := N.to_nat (Byte.to_N b) in
                 <[i := default 0 (counts !! i) + 1]> counts)
              (replicate 256 0) data in
      let n := Z.of_nat (length data) in
      foldl (fun ent c =>
               if decide (c <> 0) then
                 let p := div_int fl c n in
                 sub fl ent (mul fl p (log2 fl p))
               else ent)
            (lit fl 0) counts
  end.

Definition _read_head (path : string) : magic.bytes :=
  default [] (read os path 4096).

Definition _read_sample_for_entropy (path : string) : magic.bytes :=
  default [] (read os path 65536).

(** The signals of [score_file], each with the points it adds and its
    reason; [now] is what [time.time()] returned. *)
Definition score_file_at (now : F) (path : string) (size : Z) (mtime : F)
    (dir_stats : option (gmap string Z)) : Z * list string :=
  let ext := lower os (splitext os path).2 in
  let base := lower os (basename os path) in
  let '(score, reasons) := (0, @nil string) in
  let '(score, reasons) :=
    if decide (ext ∈ RANSOM_EXT)
    then (score + 45, reasons ++ ["Подозрительное расширение: " +:+ ext])
    else (score, reasons) in
  let '(score, reasons) :=
    if decide (base ∈ RANSOM_NOTES)
    then (score + 60, reasons ++ ["Похоже на ransom note (инструкция выкупа)"])
    else (score, reasons) in
  let '(score, reasons) :=
    if decide (size > 0) then
      let sample := _read_sample_for_entropy path in
      let ent := match sample with [] => lit fl 0 | _ => shannon_entropy sample end in
      if geb fl ent (lit fl 7.6) && bool_decide (size >= 4096)
      then (score + 25,
            reasons ++ ["Высокая энтропия: " +:+ fmt2 fl ent
                        +:+ " (шифрование/упаковка)"])
      else if geb fl ent (lit fl 7.2) && bool_decide (size >= 4096)
      then (score + 15, reasons ++ ["Повышенная энтропия: " +:+ fmt2 fl ent])
      else (score, reasons)
    else (score, reasons) in
  let head := _read_head path in
  let '(mismatch, msg) := magic.looks_like_extension_mismatch ext head in
  let '(score, reasons) :=
    if mismatch : bool then (score + 15, reasons ++ [msg]) else (score, reasons) in
  let age_hours :=
    if truthy fl mtime then div fl (sub fl now mtime) (lit fl 3600)
    else lit fl 1e9 in
  let '(score, reasons) :=
    if ltb fl age_hours (of_int fl 24)
    then (score + 8, reasons ++ ["Изменён < 24 часов назад"])
    else (score, reasons) in
  let '(score, reasons) :=
    if ltb fl age_hours (of_int fl 3)
    then (score + 8, reasons ++ ["Изменён < 3 часов назад"])
    else (score, reasons) in
  let '(score, reasons) :=
    match dir_stats with
    | None => (score, reasons)
    | Some stats =>
        let d := dirname os path in
        let cnt := default 0 (stats !! d) in
        if decide (cnt >= 50)
        then (score + 10,
              reasons ++ ["Много изменённых файлов в каталоге за сутки: "
                          +:+ pretty cnt])
        else (score, reasons)
    end in
  (Z.min 100 score, reasons).

(** [score_file], the [k]-th call of [time.time()] being the next. *)
Definition score_file (path : string) (size : Z) (mtime : F)
    (dir_stats : option (gmap string Z)) (k : nat) : (Z * list string) * nat :=
  (score_file_at (time os k) path size mtime dir_stats, S k).

(** [build_recent_dir_stats] *)
Definition build_recent_dir_stats (files : list (string * F)) (hours : F)
    (k : nat) : gmap string Z * nat :=
  let now := time os k in
  (foldl (fun out '(path, mtime) =>
            if negb (truthy fl mtime) then out
            else if leb fl (sub fl now mtime) (mul fl hours (lit fl 3600))
            then let d := dirname os path in
                 <[d := default 0 (out !! d) + 1]> out
            else out)
         (∅ : gmap string Z) files,
   S k).

(** [cancel_flag and cancel_flag()], the call number [polls] being next. *)
Definition poll (polls : nat) : bool * nat :=
  match cancel_flag with
  | None => (false, polls)
  | Some f => (f polls, S polls)
  end.

(** The first loop of [scan_suspicious]: the times and the sizes. *)
Fixpoint collect (files : list string) (mtimes : list (string * F))
    (sizes : gmap string Z) (polls : nat)
    : list (string * F) * gmap string Z * nat :=
  match files with
  | [] => (mtimes, sizes, polls)
  | p :: files' =>
      let '(cancelled, polls) := poll polls in
      if cancelled then (mtimes, sizes, polls) else
      match stat os p with
      | Some (st_mtime, st_size) =>
          collect files' (mtimes ++ [(p, st_mtime)]) (<[p := st_size]> sizes) polls
      | None =>
          collect files' (mtimes ++ [(p, lit fl 0)]) (<[p := 0]> sizes) polls
      end
  end.

(** The second loop: the findings, in the order of the files. *)
Fixpoint score_all (mtimes : list (string * F)) (sizes : gmap string Z)
    (dir_stats : gmap string Z) (findings : list (SuspiciousFinding F))
    (polls ticks : nat) : list (SuspiciousFinding F) * nat * nat :=
  match mtimes with
  | [] => (findings, polls, ticks)
  | (p, mt) :: mtimes' =>
      let '(cancelled, polls) := poll polls in
      if cancelled then (findings, polls, ticks) else
      let sz := default 0 (sizes !! p) in
      let '((s, reasons), ticks) := score_file p sz mt (Some dir_stats) ticks in
      let findings :=
        if decide (s >= 40) then findings ++ [mkFinding p s reasons sz mt]
        else findings in
      score_all mtimes' sizes dir_stats findings polls ticks
  end.

Definition scan_suspicious (files : list string) : list (SuspiciousFinding F) :=
  let '(mtimes, sizes, polls) := collect files [] ∅ 0 in
  let '(dir_stats, ticks) := build_recent_dir_stats mtimes (lit fl 24) 0 in
  let '(findings, _, _) := score_all mtimes sizes dir_stats [] polls ticks in
  py.sort_desc f_score findings.


(* --------------------------------------------------------------------- *)
(** ** The score of one file *)

(** The points and the reason of a signal that fires or not. *)
Definition points (c : bool) (p : Z) : Z := if c then p else 0.
Definition reason (c : bool) (m : string) : list string := if c then [m] else [].

(** The signals of [score_file] as conditions. *)
Section signals.
Variables (now : F) (path : string) (size : Z) (mtime : F).
Variable dir_stats : option (gmap string Z).

Definition ext_of : string := lower os (splitext os path).2.
Definition base_of : string := lower os (basename os path).
Definition entropy_of : F :=
  match _read_sample_for_entropy path with
  | [] => lit fl 0
  | _ => shannon_entropy (_read_sample_for_entropy path)
  end.
Definition age_hours_of : F :=
  if truthy fl mtime then div fl (sub fl now mtime) (lit fl 3600) else lit fl 1e9.
Definition count_of : Z :=
  match dir_stats with
  | Some stats => default 0 (stats !! dirname os path)
  | None => 0
  end.

Definition is_ransom_ext : bool := bool_decide (ext_of ∈ RANSOM_EXT).
Definition is_ransom_note : bool := bool_decide (base_of ∈ RANSOM_NOTES).
Definition is_large : bool := bool_decide (size > 0) && bool_decide (size >= 4096).
Definition high_entropy : bool := is_large && geb fl entropy_of (lit fl 7.6).
Definition raised_entropy : bool :=
  is_large && negb (geb fl entropy_of (lit fl 7.6)) && geb fl entropy_of (lit fl 7.2).
Definition is_mismatch : bool :=
  (magic.looks_like_extension_mismatch ext_of (_read_head path)).1.
Definition is_day_old : bool := ltb fl age_hours_of (of_int fl 24).
Definition is_hours_old : bool := ltb fl age_hours_of (of_int fl 3).
Definition is_busy_dir : bool :=
  bool_decide (is_Some dir_stats) && bool_decide (count_of >= 50).

Lemma stage_bool {B} (c : bool) (s p : Z) (r : list string) (m : string)
    (K : Z -> list string -> B) :
  (let '(s', r') := if c then (s + p, r ++ [m]) else (s, r) in K s' r') =
  K (s + points c p) (r ++ reason c m).
Proof. destruct c; simpl; by rewrite ?Z.add_0_r, ?app_nil_r. Qed.

Lemma stage_decide {B} (P : Prop) `{Decision P} (s p : Z) (r : list string)
    (m : string) (K : Z -> list string -> B) :
  (let '(s', r') := if decide P then (s + p, r ++ [m]) else (s, r) in K s' r') =
  K (s + points (bool_decide P) p) (r ++ reason (bool_decide P) m).
Proof.
  destruct (decide P); [rewrite bool_decide_eq_true_2 by done
                       |rewrite bool_decide_eq_false_2 by done];
    simpl; by rewrite ?Z.add_0_r, ?app_nil_r.
Qed.

(** [score_file] adds the points of the signals that fire, caps the sum at
    100, and gives their reasons in the order of the code. *)
Lemma score_file_at_sum :
  score_file_at now path size mtime dir_stats =
  (Z.min 100
     (points is_ransom_ext 45 + points is_ransom_note 60
      + points high_entropy 25 + points raised_entropy 15
      + points is_mismatch 15 + points is_day_old 8 + points is_hours_old 8
      + points is_busy_dir 10),
   reason is_ransom_ext ("Подозрительное расширение: " +:+ ext_of)
   ++ reason is_ransom_note "Похоже на ransom note (инструкция выкупа)"
   ++ reason high_entropy ("Высокая энтропия: " +:+ fmt2 fl entropy_of
                           +:+ " (шифрование/упаковка)")
   ++ reason raised_entropy ("Повышенная энтропия: " +:+ fmt2 fl entropy_of)
   ++ reason is_mismatch
        (magic.looks_like_extension_mismatch ext_of (_read_head path)).2
   ++ reason is_day_old "Изменён < 24 часов назад"
   ++ reason is_hours_old "Изменён < 3 часов назад"
   ++ reason is_busy_dir ("Много изменённых файлов в каталоге за сутки: "
                          +:+ pretty count_of)).
Proof.
  unfold score_file_at. fold ext_of base_of.
  rewrite stage_decide. fold is_ransom_ext.
  rewrite stage_decide. fold is_ransom_note.
  fold entropy_of.
  match goal with
  | |- context [if decide (size > 0) then _ else (?s, ?r)] =>
      set (s2 := s); set (r2 := r)
  end.
  assert (E :
    (if decide (size > 0)
     then
       if geb fl entropy_of (lit fl 7.6) && bool_decide (size >= 4096)
       then (s2 + 25,
             r2 ++ ["Высокая энтропия: " +:+ fmt2 fl entropy_of
                    +:+ " (шифрование/упаковка)"])
       else if geb fl entropy_of (lit fl 7.2) && bool_decide (size >= 4096)
       then (s2 + 15, r2 ++ ["Повышенная энтропия: " +:+ fmt2 fl entropy_of])
       else (s2, r2)
     else (s2, r2)) =
    (s2 + points high_entropy 25 + points raised_entropy 15,
     (r2 ++ reason high_entropy ("Высокая энтропия: " +:+ fmt2 fl entropy_of
                                 +:+ " (шифрование/упаковка)"))
     ++ reason raised_entropy ("Повышенная энтропия: " +:+ fmt2 fl entropy_of))).
  { clearbody s2 r2. unfold high_entropy, raised_entropy, is_large.
    generalize (geb fl entropy_of (lit fl 7.6)), (geb fl entropy_of (lit fl 7.2)),
      (fmt2 fl entropy_of).
    intros hi lo shown.
    destruct (decide (size > 0)).
    - rewrite (bool_decide_eq_true_2 (size > 0)) by done.
      destruct hi, (bool_decide (size >= 4096)), lo;
        cbn [andb negb points reason];
        (apply pair_equal_spec; split; [lia|by rewrite ?app_nil_r]).
    - rewrite (bool_decide_eq_false_2 (size > 0)) by done.
      cbn [andb negb points reason].
      apply pair_equal_spec; split; [lia|by rewrite ?app_nil_r]. }
  rewrite E. clear E.
  destruct (magic.looks_like_extension_mismatch ext_of (_read_head path))
    as [mismatch msg] eqn:Em.
  rewrite (stage_bool mismatch).
  fold age_hours_of.
  rewrite (stage_bool (ltb fl age_hours_of (of_int fl 24))). fold is_day_old.
  rewrite (stage_bool (ltb fl age_hours_of (of_int fl 3))). fold is_hours_old.
  unfold is_mismatch, is_busy_dir, count_of. rewrite Em. cbn [fst snd].
  unfold s2, r2. clear s2 r2 Em.
  generalize (points is_ransom_ext 45), (points is_ransom_note 60),
    (points high_entropy 25), (points raised_entropy 15), (points mismatch 15),
    (points is_day_old 8), (points is_hours_old 8).
  intros p1 p2 p3 p4 p5 p6 p7.
  destruct dir_stats as [stats|].
  - rewrite stage_decide.
    rewrite (bool_decide_eq_true_2 (is_Some (Some stats))) by done.
    cbn [andb]. apply pair_equal_spec; split; [f_equal; lia|].
    by rewrite <- ?app_assoc.
  - rewrite (bool_decide_eq_false_2 (is_Some None)) by (by intros [? ?]).
    cbn [andb points reason].
    apply pair_equal_spec; split; [f_equal; lia|].
    by rewrite ?app_nil_r, <- ?app_assoc.
Qed.

End signals.

(** The score of [score_file] lies between 0 and 100 and is 0 exactly when
    no reason is given.  A name with an extension of [RANSOM_EXT] scores 45
    or more and a name of [RANSOM_NOTES] 60 or more, whatever the file
    holds.  A file smaller than 4096 bytes with neither, whose head begins
    with no signature of [magic.MAGIC], scores 26 at most, whenever it was
    changed and whatever goes on in its directory: it is never reported. *)
Theorem score_file_range path size mtime dir_stats k :
  let ext := lower os (splitext os path).2 in
  let base := lower os (basename os path) in
  let '(s, reasons) := (score_file path size mtime dir_stats k).1 in
  0 <= s <= 100 /\
  (s = 0 <-> reasons = []) /\
  (ext ∈ RANSOM_EXT -> 45 <= s) /\
  (base ∈ RANSOM_NOTES -> 60 <= s) /\
  (ext ∉ RANSOM_EXT -> base ∉ RANSOM_NOTES -> size < 4096 ->
   magic.detect_kind (_read_head path) = None -> s <= 26).
Proof.
  intros ext base. unfold score_file. cbn [fst]. rewrite score_file_at_sum.
  assert (H1 : (ext ∈ RANSOM_EXT -> is_ransom_ext path = true) /\
               (ext ∉ RANSOM_EXT -> is_ransom_ext path = false)).
  { unfold is_ransom_ext. fold ext.
    split; intros; [by apply bool_decide_eq_true_2|by apply bool_decide_eq_false_2]. }
  assert (H2 : (base ∈ RANSOM_NOTES -> is_ransom_note path = true) /\
               (base ∉ RANSOM_NOTES -> is_ransom_note path = false)).
  { unfold is_ransom_note. fold base.
    split; intros; [by apply bool_decide_eq_true_2|by apply bool_decide_eq_false_2]. }
  assert (H3 : size < 4096 ->
               high_entropy path size = false /\ raised_entropy path size = false).
  { intros Hs. unfold high_entropy, raised_entropy, is_large.
    rewrite (bool_decide_eq_false_2 (size >= 4096)) by lia.
    by rewrite andb_false_r. }
  assert (H4 : magic.detect_kind (_read_head path) = None ->
               is_mismatch path = false).
  { intros Hn. unfold is_mismatch.
    pose proof (magic.mismatch_reported (ext_of path) (_read_head path))
      as (_ & _ & Hnone & _).
    by rewrite (Hnone Hn). }
  revert H1 H2 H3 H4.
  generalize (is_ransom_ext path), (is_ransom_note path), (high_entropy path size),
    (raised_entropy path size), (is_mismatch path),
    (is_day_old (time os k) mtime), (is_hours_old (time os k) mtime),
    (is_busy_dir path dir_stats).
  intros b1 b2 b3 b4 b5 b6 b7 b8.
  generalize (magic.detect_kind (_read_head path)). intros kind.
  generalize ("Подозрительное расширение: " +:+ ext_of path),
    ("Высокая энтропия: " +:+ fmt2 fl (entropy_of path)
     +:+ " (шифрование/упаковка)"),
    ("Повышенная энтропия: " +:+ fmt2 fl (entropy_of path)),
    ((magic.looks_like_extension_mismatch (ext_of path) (_read_head path)).2),
    ("Много изменённых файлов в каталоге за сутки: "
     +:+ pretty (count_of path dir_stats)).
  intros m1 m3 m4 m5 m8 [H1 H1'] [H2 H2'] H3 H4.
  assert (G1 : 0 <= points b1 45 <= 45 /\ (b1 = true -> points b1 45 = 45))
    by (destruct b1; simpl; lia).
  assert (G2 : 0 <= points b2 60 <= 60 /\ (b2 = true -> points b2 60 = 60))
    by (destruct b2; simpl; lia).
  assert (G3 : 0 <= points b3 25 <= 25) by (destruct b3; simpl; lia).
  assert (G4 : 0 <= points b4 15 <= 15) by (destruct b4; simpl; lia).
  assert (G5 : 0 <= points b5 15 <= 15) by (destruct b5; simpl; lia).
  assert (G6 : 0 <= points b6 8 <= 8) by (destruct b6; simpl; lia).
  assert (G7 : 0 <= points b7 8 <= 8) by (destruct b7; simpl; lia).
  assert (G8 : 0 <= points b8 10 <= 10) by (destruct b8; simpl; lia).
  split; [lia|]. split.
  - clear H1 H1' H2 H2' H3 H4 G1 G2 G3 G4 G5 G6 G7 G8.
    destruct b1, b2, b3, b4, b5, b6, b7, b8; cbn [points reason app];
      (split; [intros H; first [done | exfalso; lia]|intros H; done]).
  - split; [|split].
    + intros H. destruct G1 as [_ G1]. rewrite (G1 (H1 H)). lia.
    + intros H. destruct G2 as [_ G2]. rewrite (G2 (H2 H)). lia.
    + intros He Hb Hs Hk.
      rewrite (H1' He), (H2' Hb), (proj1 (H3 Hs)), (proj2 (H3 Hs)), (H4 Hk).
      cbn [points]. lia.
Qed.

(* --------------------------------------------------------------------- *)
(** ** The files changed of late, by directory *)

(** A file counted by [build_recent_dir_stats]: its time is not zero and
    is at most [hours] before [now]. *)
Definition recent (now hours : F) (x : string * F) : bool :=
  truthy fl x.2 && leb fl (sub fl now x.2) (mul fl hours (lit fl 3600)).

Definition recent_in (now hours : F) (d : string) (files : list (string * F))
    : list (string * F) :=
  filter (fun x => recent now hours x = true /\ dirname os x.1 = d) files.

(** [build_recent_dir_stats] counts, for each directory, the files of the
    list that are in it and were changed in the last [hours]; a directory
    without such a file has no key. *)
Theorem build_recent_dir_stats_counts files hours k d :
  let n := length (recent_in (time os k) hours d files) in
  (build_recent_dir_stats files hours k).1 !! d =
  if decide (n = 0)%nat then None else Some (Z.of_nat n).
Proof.
  unfold build_recent_dir_stats. cbn [fst].
  induction files as [|[p mt] files IH] using rev_ind.
  { simpl. by rewrite lookup_empty. }
  unfold recent_in in *. rewrite foldl_app, filter_app, length_app.
  cbn [foldl]. rewrite filter_cons, filter_nil.
  set (out := foldl _ ∅ files) in *.
  set (n := length (filter _ files)) in *.
  assert (E : (if negb (truthy fl mt) then out
               else if leb fl (sub fl (time os k) mt) (mul fl hours (lit fl 3600))
               then <[dirname os p := default 0 (out !! dirname os p) + 1]> out
               else out) =
              (if recent (time os k) hours (p, mt)
               then <[dirname os p := default 0 (out !! dirname os p) + 1]> out
               else out)).
  { unfold recent. cbn [fst snd]. by destruct (truthy fl mt). }
  rewrite E. clear E. cbn [fst].
  destruct (decide (recent (time os k) hours (p, mt) = true /\ dirname os p = d))
    as [[Hr <-]|Hno].
  - rewrite Hr, lookup_insert_eq, IH. cbn [length].
    destruct (decide (n = 0)%nat) as [->|]; simpl.
    + done.
    + rewrite decide_False by lia. f_equal. lia.
  - cbn [length]. rewrite Nat.add_0_r.
    destruct (recent (time os k) hours (p, mt)); [|exact IH].
    rewrite lookup_insert_ne; [exact IH|]. intros He. by apply Hno.
Qed.

(* --------------------------------------------------------------------- *)
(** ** The findings of a scan *)

(** What [scan_suspicious] notes of a file: the time and the size of
    [os.stat], or zeros when it raises. *)
Definition stat_of (p : string) : F * Z :=
  match stat os p with
  | Some (st_mtime, st_size) => (st_mtime, st_size)
  | None => (lit fl 0, 0)
  end.

Lemma collect_metadata files : forall mtimes sizes polls,
  exists n polls',
    collect files mtimes sizes polls =
      (mtimes ++ ((fun p => (p, (stat_of p).1)) <$> take n files),
       foldl (fun m p => <[p := (stat_of p).2]> m) sizes (take n files),
       polls') /\
    (n <= length files)%nat /\
    (cancel_flag = None -> n = length files) /\
    (forall f, cancel_flag = Some f ->
       (n = length files /\ polls' = (polls + n)%nat /\
        forall i, (polls <= i < polls + n)%nat -> f i = false) \/
       (exists j, (polls <= j)%nat /\ f j = true /\ polls' = S j)).
Proof.
  induction files as [|p files IH]; intros mtimes sizes polls.
  { exists 0%nat, polls. simpl. rewrite app_nil_r. repeat split; try done.
    intros f _. left. repeat split; [lia|]. intros; lia. }
  cbn [collect]. unfold poll. destruct cancel_flag as [f|] eqn:Ec.
  - destruct (f polls) eqn:Ef.
    + exists 0%nat, (S polls). simpl. rewrite app_nil_r.
      repeat split; [lia|done|]. intros f' [= <-]. right. by exists polls.
    + assert (E : (match stat os p with
                   | Some (st_mtime, st_size) =>
                       collect files (mtimes ++ [(p, st_mtime)])
                         (<[p:=st_size]> sizes) (S polls)
                   | None =>
                       collect files (mtimes ++ [(p, lit fl 0)])
                         (<[p:=0]> sizes) (S polls)
                   end) =
                  collect files (mtimes ++ [(p, (stat_of p).1)])
                    (<[p:=(stat_of p).2]> sizes) (S polls)).
      { unfold stat_of. by destruct (stat os p) as [[? ?]|]. }
      rewrite E. clear E.
      destruct (IH (mtimes ++ [(p, (stat_of p).1)]) (<[p:=(stat_of p).2]> sizes)
                  (S polls)) as (n & polls' & Hc & Hn & _ & Hf).
      exists (S n), polls'. rewrite Hc. cbn [take fmap list_fmap foldl length].
      rewrite <- app_assoc. repeat split; [lia|done|].
      intros f' [= <-].
      destruct (Hf f eq_refl) as [(Hl & Hp & Hi)|(j & Hj & Hfj & Hp)].
      * left. repeat split; [lia|lia|]. intros i Hi'.
        destruct (decide (i = polls)) as [->|]; [done|]. apply Hi. lia.
      * right. exists j. repeat split; [lia|done|done].
  - assert (E : (match stat os p with
                 | Some (st_mtime, st_size) =>
                     collect files (mtimes ++ [(p, st_mtime)])
                       (<[p:=st_size]> sizes) polls
                 | None =>
                     collect files (mtimes ++ [(p, lit fl 0)])
                       (<[p:=0]> sizes) polls
                 end) =
                collect files (mtimes ++ [(p, (stat_of p).1)])
                  (<[p:=(stat_of p).2]> sizes) polls).
    { unfold stat_of. by destruct (stat os p) as [[? ?]|]. }
    rewrite E. clear E.
    destruct (IH (mtimes ++ [(p, (stat_of p).1)]) (<[p:=(stat_of p).2]> sizes)
                polls) as (n & polls' & Hc & Hn & Hnone & _).
    exists (S n), polls'. rewrite Hc. cbn [take fmap list_fmap foldl length].
    rewrite <- app_assoc. repeat split; [lia| |done].
    intros _. by rewrite (Hnone eq_refl).
Qed.

(** The sizes noted for the files collected. *)
Lemma sizes_noted (files : list string) : forall (sizes : gmap string Z) p,
  p ∈ files ->
  foldl (fun m p => <[p := (stat_of p).2]> m) sizes files !! p
  = Some (stat_of p).2.
Proof.
  induction files as [|q files IH] using rev_ind; intros sizes p Hp.
  { by apply elem_of_nil in Hp. }
  rewrite foldl_app. cbn [foldl].
  destruct (decide (p = q)) as [->|Hne]; [by rewrite lookup_insert_eq|].
  rewrite lookup_insert_ne by done. apply IH.
  apply elem_of_app in Hp as [Hp|Hp%list_elem_of_singleton]; done.
Qed.

(** A finding that [score_all] may append. *)
Definition sound (mtimes : list (string * F)) (sizes : gmap string Z)
    (f : SuspiciousFinding F) : Prop :=
  (f_path f, f_mtime f) ∈ mtimes /\
  f_size f = default 0 (sizes !! f_path f) /\
  40 <= f_score f <= 100 /\
  f_reasons f <> [].

Lemma score_all_sound all sizes dir_stats mtimes :
  forall findings polls ticks,
  mtimes ⊆ all ->
  Forall (sound all sizes) findings ->
  let out := (score_all mtimes sizes dir_stats findings polls ticks).1.1 in
  Forall (sound all sizes) out /\
  findings `prefix_of` out /\
  (length out <= length findings + length mtimes)%nat.
Proof.
  induction mtimes as [|[p mt] mtimes IH]; intros findings polls ticks Hsub Hf.
  { simpl. repeat split; [done|done|lia]. }
  cbn [score_all]. destruct (poll polls) as [[|] polls'].
  { simpl. repeat split; [done|done|lia]. }
  pose proof (score_file_range p (default 0 (sizes !! p)) mt (Some dir_stats) ticks)
    as Hr.
  cbv zeta in Hr.
  destruct (score_file p (default 0 (sizes !! p)) mt (Some dir_stats) ticks)
    as [[s reasons] ticks'].
  cbn [fst] in Hr. destruct Hr as (Hs & Hz & _).
  assert (Hsub' : mtimes ⊆ all) by (intros x Hx; apply Hsub; by right).
  destruct (decide (s >= 40)) as [Hge|Hlt].
  - destruct (IH (findings ++ [mkFinding p s reasons (default 0 (sizes !! p)) mt])
                polls' ticks' Hsub') as (H1 & H2 & H3).
    { apply Forall_app. split; [done|]. apply Forall_singleton.
      unfold sound. cbn. repeat split; [apply Hsub; by left|lia|lia|].
      intros E. apply Hz in E. lia. }
    repeat split; [done| |].
    + etransitivity; [|exact H2]. by apply prefix_app_r.
    + rewrite length_app in H3. simpl in *. lia.
  - destruct (IH findings polls' ticks' Hsub' Hf) as (H1 & H2 & H3).
    repeat split; [done|done|]. simpl. lia.
Qed.

Lemma score_all_prefix sizes dir_stats mtimes :
  forall findings polls ticks,
  findings `prefix_of` (score_all mtimes sizes dir_stats findings polls ticks).1.1.
Proof.
  induction mtimes as [|[p mt] mtimes IH]; intros findings polls ticks; [done|].
  cbn [score_all]. destruct (poll polls) as [[|] polls']; [done|].
  destruct (score_file p (default 0 (sizes !! p)) mt (Some dir_stats) ticks)
    as [[s reasons] ticks'].
  destruct (decide (s >= 40)); [|apply IH].
  etransitivity; [|apply IH]. by apply prefix_app_r.
Qed.

(** The names that give a file away. *)
Definition named (p : string) : Prop :=
  lower os (splitext os p).2 ∈ RANSOM_EXT \/
  lower os (basename os p) ∈ RANSOM_NOTES.

Lemma score_all_complete sizes dir_stats mtimes :
  cancel_flag = None ->
  forall findings polls ticks p mt,
  (p, mt) ∈ mtimes -> named p ->
  exists f, f ∈ (score_all mtimes sizes dir_stats findings polls ticks).1.1 /\
            f_path f = p /\ f_mtime f = mt /\ 45 <= f_score f.
Proof.
  intros Hc. induction mtimes as [|[q mt'] mtimes IH];
    intros findings polls ticks p mt Hin Hnamed.
  { by apply elem_of_nil in Hin. }
  cbn [score_all]. unfold poll. rewrite Hc.
  pose proof (score_file_range q (default 0 (sizes !! q)) mt' (Some dir_stats) ticks)
    as Hr.
  cbv zeta in Hr.
  destruct (score_file q (default 0 (sizes !! q)) mt' (Some dir_stats) ticks)
    as [[s reasons] ticks'].
  cbn [fst] in Hr. destruct Hr as (Hs & _ & Hext & Hnote & _).
  apply elem_of_cons in Hin as [[= -> ->]|Hin].
  - assert (45 <= s) as H45 by (destruct Hnamed as [H|H]; [by apply Hext|];
                                apply Hnote in H; lia).
    rewrite decide_True by lia.
    set (f := mkFinding q s reasons (default 0 (sizes !! q)) mt').
    destruct (score_all_prefix sizes dir_stats mtimes (findings ++ [f])
                polls ticks') as [rest Hp].
    exists f. split; [|done]. rewrite Hp, !elem_of_app, list_elem_of_singleton.
    by left; right.
  - destruct (decide (s >= 40)); by apply IH.
Qed.

(** Whatever the flag answers, the findings of [scan_suspicious] come in
    the descending order of their scores, at most one for each file; each
    is of a file of the list, with the time and the size that [os.stat]
    gives for it (zeros when it raises), a score from 40 to 100 and a
    reason. *)
Theorem scan_suspicious_findings files :
  let res := scan_suspicious files in
  Sorted (py.desc f_score) res /\
  (length res <= length files)%nat /\
  forall f, f ∈ res ->
    f_path f ∈ files /\
    (f_mtime f, f_size f) = stat_of (f_path f) /\
    40 <= f_score f <= 100 /\
    f_reasons f <> [].
Proof.
  unfold scan_suspicious.
  destruct (collect_metadata files [] ∅ 0%nat) as (n & polls' & Hc & Hn & _).
  rewrite Hc. clear Hc. rewrite app_nil_l.
  set (mtimes := (fun p => (p, (stat_of p).1)) <$> take n files).
  set (sizes := foldl _ ∅ (take n files)).
  destruct (build_recent_dir_stats mtimes (lit fl 24) 0) as [dir_stats ticks].
  pose proof (score_all_sound mtimes sizes dir_stats mtimes [] polls' ticks)
    as Hs.
  cbv zeta in Hs.
  destruct (score_all mtimes sizes dir_stats [] polls' ticks) as [[findings ?] ?].
  cbn [fst] in Hs. destruct Hs as (Hall & _ & Hlen); [done|constructor|].
  split; [apply py.sort_desc_sorted|]. split.
  - rewrite py.length_sort_desc. unfold mtimes in Hlen.
    rewrite length_fmap, length_take in Hlen. simpl in Hlen. lia.
  - intros f Hf. rewrite py.sort_desc_perm in Hf.
    rewrite Forall_forall in Hall. destruct (Hall f Hf) as (Hin & Hsz & Hsc & Hr).
    apply list_elem_of_fmap in Hin as (p & [= Hp Hm] & Hin).
    assert (Hsize : f_size f = (stat_of (f_path f)).2).
    { rewrite Hsz, Hp. unfold sizes. by rewrite sizes_noted. }
    repeat split; try done; try lia.
    + rewrite Hp, <- (take_drop n files). apply elem_of_app. by left.
    + rewrite Hm, Hsize, <- Hp. by destruct (stat_of (f_path f)).
Qed.

(** A scan that is not cancelled reports every file of the list whose
    lower-cased extension is in [RANSOM_EXT] or whose lower-cased name is
    in [RANSOM_NOTES], with a score of 45 or more, whether or not the file
    can be read. *)
Theorem named_files_reported files p :
  cancel_flag = None -> p ∈ files -> named p ->
  exists f, f ∈ scan_suspicious files /\ f_path f = p /\ 45 <= f_score f.
Proof.
  intros Hc Hp Hnamed. unfold scan_suspicious.
  destruct (collect_metadata files [] ∅ 0%nat) as (n & polls' & Hcol & _ & Hn & _).
  rewrite Hcol. clear Hcol. rewrite (Hn Hc), firstn_all, app_nil_l.
  set (mtimes := (fun p => (p, (stat_of p).1)) <$> files).
  set (sizes := foldl _ ∅ files).
  destruct (build_recent_dir_stats mtimes (lit fl 24) 0) as [dir_stats ticks].
  destruct (score_all_complete sizes dir_stats mtimes Hc [] polls' ticks p
              (stat_of p).1) as (f & Hf & Hpath & _ & Hscore); [|done|].
  { apply list_elem_of_fmap. by exists p. }
  destruct (score_all mtimes sizes dir_stats [] polls' ticks) as [[findings ?] ?].
  exists f. by rewrite py.sort_desc_perm.
Qed.

(** A flag that, once set, stays set and is set while the times and the
    sizes are being collected leaves no finding: the scan returns the
    empty list. *)
Theorem cancelled_collection_reports_nothing f files i :
  cancel_flag = Some f ->
  (forall a b, (a <= b)%nat -> f a = true -> f b = true) ->
  (i < length files)%nat -> f i = true ->
  scan_suspicious files = [].
Proof.
  intros Hc Hstays Hi Hfi. unfold scan_suspicious.
  destruct (collect_metadata files [] ∅ 0%nat) as (n & polls' & Hcol & _ & _ & Hf).
  rewrite Hcol. clear Hcol.
  destruct (build_recent_dir_stats _ (lit fl 24) 0) as [dir_stats ticks].
  destruct (Hf f Hc) as [(Hl & _ & Hall)|(j & _ & Hfj & ->)].
  { rewrite Hall in Hfi by lia. done. }
  destruct ([] ++ _) as [|[q mt] mtimes]; [done|].
  cbn [score_all]. unfold poll. rewrite Hc.
  by rewrite (Hstays j (S j)) by (done || lia).
Qed.

(* --------------------------------------------------------------------- *)
(** ** The entropy of a sample *)

(** The counts that [shannon_entropy] makes of the bytes: [counts[b]] is
    the number of the bytes [b] of the data. *)
Lemma tally_lookup (data : list Byte.byte) : forall (counts : list Z) (i : nat),
  foldl (fun counts b =>
           let i := N.to_nat (Byte.to_N b) in
           <[i := default 0 (counts !! i) + 1]> counts) counts data !! i =
  Z.add (Z.of_nat (length (filter (fun b => N.to_nat (Byte.to_N b) = i) data)))
    <$> counts !! i.
Proof.
  induction data as [|b data IH]; intros counts i.
  { simpl. by destruct (counts !! i). }
  cbn [foldl]. rewrite IH. rewrite filter_cons.
  case_decide as Hd.
  - subst i. set (j := N.to_nat (Byte.to_N b)).
    destruct (counts !! j) as [c|] eqn:Ec.
    + rewrite list_lookup_insert_eq by (by eapply lookup_lt_Some).
      cbn [default from_option fmap option_fmap option_map length]. unfold id.
      f_equal. lia.
    + rewrite list_insert_ge by (by apply lookup_ge_None).
      by rewrite Ec.
  - rewrite list_lookup_insert_ne by done. done.
Qed.

(** [shannon_entropy] does not depend on the order of the bytes: it is
    computed from the number of times each byte value occurs. *)
Theorem shannon_entropy_order (data data' : list Byte.byte) :
  data ≡ₚ data' -> shannon_entropy data = shannon_entropy data'.
Proof.
  intros Hp. unfold shannon_entropy.
  destruct data as [|b data].
  { apply Permutation_nil_l in Hp. by subst. }
  destruct data' as [|b' data'].
  { by apply Permutation_nil_r in Hp. }
  cbv zeta. rewrite (Permutation_length Hp).
  f_equal. apply list_eq. intros i. rewrite !tally_lookup.
  by rewrite Hp.
Qed.

End suspicious.
End suspicious.

(* ===================================================================== *)
(** * Part XVIII. The suspicious-file scan on concrete input *)

(** Stand-ins for running the code: rationals for floats, with a logarithm
    that is 0 everywhere and one way of printing; POSIX names; a file
    system with one file that [os.stat] finds and none that can be read. *)
Module sample.

Definition floats : suspicious.FloatOps Q :=
  suspicious.mkFloatOps Q
    (fun q => q) inject_Z Qminus Qmult Qdiv
    (fun c n => (inject_Z c / inject_Z n)%Q)
    (fun _ => 0%Q)
    (fun x y => negb (Qle_bool y x)) Qle_bool (fun x y => Qle_bool y x)
    (fun x => negb (Qeq_bool x 0))
    (fun _ => "0.00").

(** [posixpath.dirname] of a relative path with single slashes: what
    precedes the last slash. *)
Fixpoint dirname (p : string) : string :=
  match p with
  | EmptyString => EmptyString
  | String a p' =>
      if existsb posix.is_slash (list_ascii_of_string p')
      then String a (dirname p') else EmptyString
  end.

Definition os : suspicious.Os Q :=
  suspicious.mkOs Q
    posix.splitext posix.basename dirname posix.lower
    (fun p => if decide (p = "docs/readme.txt") then Some (1000%Q, 10) else None)
    (fun _ _ => None)
    (fun k => inject_Z (2000 + Z.of_nat k)).

End sample.

(** A ransom note among two files is reported. *)
Lemma named_files_reported_witness :
  exists f,
    f ∈ suspicious.scan_suspicious sample.floats sample.os None
          ["docs/a.bin"; "docs/readme.txt"] /\
    suspicious.f_path f = "docs/readme.txt" /\ 45 <= suspicious.f_score f.
Proof.
  apply (suspicious.named_files_reported sample.floats sample.os None
           ["docs/a.bin"; "docs/readme.txt"] "docs/readme.txt" eq_refl).
  - right. left.
  - right. refine (bool_decide_unpack _ _). vm_compute. exact I.
Defined.

(** A flag set from its first call on. *)
Lemma cancelled_collection_reports_nothing_witness :
  suspicious.scan_suspicious sample.floats sample.os (Some (fun _ => true))
    ["docs/a.locked"; "docs/readme.txt"] = [].
Proof.
  apply (suspicious.cancelled_collection_reports_nothing sample.floats sample.os
           (Some (fun _ => true)) (fun _ => true)
           ["docs/a.locked"; "docs/readme.txt"] 0 eq_refl).
  - reflexivity.
  - simpl. lia.
  - reflexivity.
Defined.

(** Two bytes either way round. *)
Lemma shannon_entropy_order_witness :
  suspicious.shannon_entropy sample.floats [Byte.x01; Byte.x02] =
  suspicious.shannon_entropy sample.floats [Byte.x02; Byte.x01].
Proof.
  apply (suspicious.shannon_entropy_order sample.floats [Byte.x01; Byte.x02]
           [Byte.x02; Byte.x01]).
  apply perm_swap.
Defined.
